(** * Job-search automation core: a shallow embedding and its properties

    The development follows the JavaScript sources of the repository:
    - the [AutomatedJobApplicant] service: portal classification and the
      top-level [applyToJob] dispatcher;
    - the [JobPortalScraper] service: [removeDuplicateJobs] and
      [filterJobsByRecency];
    - the [CredentialManager] service: the encrypted credential vault;
    - the routes of [/api/auto-apply]: [determinePortal],
      [generateBatchId], [processBatchApplications], [saveBatchStatus],
      [getBatchStatus].

    JavaScript strings are sequences of UTF-16 code units; they are modelled
    as [list N]; numbers are doubles where the code divides.  What lies
    outside the repository is a parameter: the block cipher of Node's
    [crypto], the runtime's case and number conversions, its time zone and
    its date parser are section variables; the browser automation, the
    [User] and [Application] models and the evaluation of [Job.findById],
    a name the route file leaves unbound, are fields of an environment
    record.  The [Credential] collection is a list of documents in the
    vault's world; the table of batch statuses is a plain object: its own
    properties are a finite map to batch objects held by reference, and it
    inherits those of [Object.prototype]. *)

From Stdlib Require Import ZArith NArith List Lia Bool String Ascii Sorted.
From Stdlib.Strings Require Byte.
From stdpp Require Import gmap list.

Set Default Proof Using "Type".

(** ** JavaScript strings and numbers *)

Module JS.

(** A string is the list of its UTF-16 code units. *)
Abbreviation jsstring := (list N).

(** Literals of the source, written as Rocq strings. *)
Definition js (s : string) : jsstring :=
  List.map N_of_ascii (list_ascii_of_string s).

(** [startsWith s p]: [p] is a prefix of [s]. *)
Fixpoint startsWith (s p : jsstring) {struct p} : bool :=
  match p, s with
  | [], _ => true
  | _ :: _, [] => false
  | c :: p', d :: s' => (c =? d)%N && startsWith s' p'
  end.

(** [String.prototype.includes]: some suffix of [s] starts with [frag]. *)
Fixpoint includes (s frag : jsstring) : bool :=
  startsWith s frag ||
  match s with
  | [] => false
  | _ :: s' => includes s' frag
  end.

(** What a [String.prototype.includes] call decides. *)
Definition contains (s frag : jsstring) : Prop :=
  exists pre post, s = pre ++ frag ++ post.

(** JavaScript truthiness of a string-or-absent property: only a non-empty
    string is truthy. *)
Definition truthy (v : option jsstring) : bool :=
  match v with
  | Some (_ :: _) => true
  | _ => false
  end.

(** Numbers are IEEE 754 doubles.  A positive double is written
    [m * 2^e] with [2^52 <= m < 2^53]; zero is [(0, 0)].

    [nearestDouble num den] is the double nearest to the quotient of two
    non-negative integers, ties going to the even significand: the result
    of the division of two doubles that hold integers, and of any other
    operation whose exact result is that quotient. *)
Definition nearestDouble (num den : Z) : Z * Z :=
  if (num =? 0)%Z then (0, 0)%Z else
  let e0 := (Z.log2 num - Z.log2 den - 52)%Z in
  let scaled e :=
    if (0 <=? e)%Z then (num, den * 2 ^ e)%Z else (num * 2 ^ (- e), den)%Z in
  let e :=
    if (fst (scaled e0) / snd (scaled e0) <? 2 ^ 52)%Z then (e0 - 1)%Z else e0 in
  let '(a, b) := scaled e in
  let q := (a / b)%Z in
  let r := (a mod b)%Z in
  let m := if (2 * r <? b)%Z then q
           else if (b <? 2 * r)%Z then (q + 1)%Z
           else if Z.even q then q else (q + 1)%Z in
  if (m =? 2 ^ 53)%Z then (2 ^ 52, e + 1)%Z else (m, e).

(** A finite number of either sign, [significand * 2 ^ exponent]: every
    finite double is one, and the whole number [z] is [wholeNumber z]. *)
Record Number := { significand : Z; exponent : Z }.

Definition wholeNumber (z : Z) : Number :=
  {| significand := z; exponent := 0 |}.

(** [h - x] for a whole number [h] that is a double and a number [x]: the
    double nearest to the difference. *)
Definition subtractNumber (h : Z) (x : Number) : Number :=
  let num := if (0 <=? exponent x)%Z
             then (h - significand x * 2 ^ exponent x)%Z
             else (h * 2 ^ (- exponent x) - significand x)%Z in
  let den := if (0 <=? exponent x)%Z then 1%Z else (2 ^ (- exponent x))%Z in
  let '(m, e) := nearestDouble (Z.abs num) den in
  {| significand := Z.sgn num * m; exponent := e |}.

(** ECMAScript's [ToIntegerOrInfinity] on a finite number: the fraction is
    dropped. *)
Definition ToIntegerOrInfinity (x : Number) : Z :=
  if (0 <=? exponent x)%Z then (significand x * 2 ^ exponent x)%Z
  else Z.quot (significand x) (2 ^ (- exponent x)).

End JS.

Import JS.

(** ** Portal classification *)

Module Portal.

(** The kinds returned by [detectApplicationSystem]. *)
Inductive ApplicationSystem :=
| workday | greenhouse | lever | indeed | linkedin | generic.

(** The portals of the [Credential] schema ([enum] of the [portal] path),
    which are also the values returned by [determinePortal]. *)
Inductive PortalName :=
| p_linkedin | p_indeed | p_glassdoor | p_workday | p_greenhouse | p_lever
| p_other.

#[global] Instance ApplicationSystem_eq_dec : EqDecision ApplicationSystem.
Proof. solve_decision. Defined.

#[global] Instance PortalName_eq_dec : EqDecision PortalName.
Proof. solve_decision. Defined.

(** AutomatedJobApplicant.detectApplicationSystem *)
Definition detectApplicationSystem (url : jsstring) : ApplicationSystem :=
  if includes url (js "myworkdayjobs.com") || includes url (js "workday.com")
  then workday
  else if includes url (js "greenhouse.io") then greenhouse
  else if includes url (js "lever.co") then lever
  else if includes url (js "indeed.com") then indeed
  else if includes url (js "linkedin.com") then linkedin
  else generic.

(** determinePortal, of the auto-apply routes *)
Definition determinePortal (url : jsstring) : PortalName :=
  if includes url (js "myworkdayjobs.com") || includes url (js "workday.com")
  then p_workday
  else if includes url (js "greenhouse.io") then p_greenhouse
  else if includes url (js "lever.co") then p_lever
  else if includes url (js "indeed.com") then p_indeed
  else if includes url (js "linkedin.com") then p_linkedin
  else if includes url (js "glassdoor.com") then p_glassdoor
  else p_other.

(** The domain fragments [detectApplicationSystem] looks for. *)
Definition knownFragments : list jsstring :=
  [js "myworkdayjobs.com"; js "workday.com"; js "greenhouse.io";
   js "lever.co"; js "indeed.com"; js "linkedin.com"].

End Portal.

(** ** Job listings, de-duplication and the recency filter *)

Module Scraper.

(** The [company] sub-object of a listing. *)
Record Company := {
  name : jsstring;
  logo : option jsstring;
  website : option jsstring
}.

(** A normalised job listing, as built by the three search adapters.
    [publishedAt] is an ISO timestamp string; [None] stands for an absent
    ([undefined] or [null]) property. *)
Record JobListing := {
  id : jsstring;
  title : jsstring;
  company : Company;
  location : jsstring;
  applicationUrl : jsstring;
  publishedAt : option jsstring;
  isRemote : bool
}.

#[global] Instance Company_eq_dec : EqDecision Company.
Proof. solve_decision. Defined.

#[global] Instance JobListing_eq_dec : EqDecision JobListing.
Proof. solve_decision. Defined.

(** Milliseconds per hour and per day, hours per day (ECMAScript time
    values are integers counting milliseconds since the epoch). *)
Definition msPerHour : Z := 3600000.
Definition msPerDay : Z := 86400000.
Definition HoursPerDay : Z := 24.

Section WithRuntime.

(** [String.prototype.toLowerCase] (the Unicode case tables are the
    runtime's). *)
Variable toLowerCase : jsstring -> jsstring.

(** The offset of local time from UTC in milliseconds, as ECMAScript's
    [LocalTZA(t, isUTC)]: with [isUTC], the offset in force at the instant
    [t]; without, the offset the runtime reads for the local time [t]
    (where a change of the clocks repeats or skips local times, the choice
    is the runtime's).  And the runtime's date-string parser ([None] is
    an invalid date, whose time value is NaN). *)
Variable LocalTZA : Z -> bool -> Z.
Variable Date_parse : jsstring -> option Z.

(** The key computed inside the loop of [removeDuplicateJobs]: the template
    literal [`${title.toLowerCase()}-${company.name.toLowerCase()}`]. *)
Definition dedupKey (job : JobListing) : jsstring :=
  toLowerCase (title job) ++ js "-" ++ toLowerCase (name (company job)).

(** The [for ... of] loop of [removeDuplicateJobs], with its two mutable
    locals [seen] (a [Set]) and [uniqueJobs] (an array, [push] appends). *)
Fixpoint removeDuplicateJobs_loop (jobs : list JobListing)
    (seen : gset jsstring) (uniqueJobs : list JobListing) : list JobListing :=
  match jobs with
  | [] => uniqueJobs
  | job :: rest =>
      let key := dedupKey job in
      if decide (key ∈ seen)
      then removeDuplicateJobs_loop rest seen uniqueJobs
      else removeDuplicateJobs_loop rest ({[key]} ∪ seen) (uniqueJobs ++ [job])
  end.

(** JobPortalScraper.removeDuplicateJobs *)
Definition removeDuplicateJobs (jobs : list JobListing) : list JobListing :=
  removeDuplicateJobs_loop jobs ∅ [].

(** Local time, as in the ECMAScript definitions of [LocalTime], [UTC],
    [Day], [HourFromTime] and [TimeClip] ([None] is NaN). *)
Definition LocalTime (t : Z) : Z := (t + LocalTZA t true)%Z.
Definition UTC (t : Z) : Z := (t - LocalTZA t false)%Z.
Definition Day (t : Z) : Z := (t / msPerDay)%Z.
Definition HourFromTime (t : Z) : Z := ((t / msPerHour) mod HoursPerDay)%Z.

Definition maxTime : Z := 8640000000000000.

Definition TimeClip (time : Z) : option Z :=
  if (Z.abs time <=? maxTime)%Z then Some time else None.

(** [Date.prototype.getHours] and [Date.prototype.setHours] with one
    argument, a finite number of which the fraction is dropped: the day,
    minutes, seconds and milliseconds of the local time are kept, the hour
    is replaced (an hour outside 0..23 carries into the day), and the
    local time so made is converted back with the offset read for it.
    The new time value is [None] when it leaves the range of dates. *)
Definition getHours (t : Z) : Z := HourFromTime (LocalTime t).

Definition setHours (t : Z) (hour : Number) : option Z :=
  let lt := LocalTime t in
  let h := ToIntegerOrInfinity hour in
  TimeClip (UTC (Day lt * msPerDay + (h * msPerHour + lt mod msPerHour))%Z).

(** The predicate passed to [jobs.filter] in [filterJobsByRecency];
    a comparison with an invalid date, on either side, is false. *)
Definition isRecent (cutoffTime : option Z) (job : JobListing) : bool :=
  if negb (truthy (publishedAt job)) then true
  else match publishedAt job with
       | Some s =>
           match Date_parse s, cutoffTime with
           | Some publishedDate, Some cutoff => (cutoff <=? publishedDate)%Z
           | _, _ => false
           end
       | None => true
       end.

(** JobPortalScraper.filterJobsByRecency; [now] is the reading of
    [new Date()] at the call, [hours] a finite number. *)
Definition filterJobsByRecency (now : Z) (jobs : list JobListing)
    (hours : Number) : list JobListing :=
  let cutoffTime := setHours now (subtractNumber (getHours now) hours) in
  List.filter (isRecent cutoffTime) jobs.

End WithRuntime.

(** An instance of [toLowerCase] on the ASCII range, for concrete runs. *)
Definition asciiLower (s : jsstring) : jsstring :=
  List.map (fun c => if ((65 <=? c) && (c <=? 90))%N then (c + 32)%N else c) s.

(** An instance of [Date_parse] for concrete runs: a string of decimal
    digits is read as a time value, anything else is invalid. *)
Fixpoint parseDigits (acc : Z) (s : jsstring) : option Z :=
  match s with
  | [] => Some acc
  | c :: s' =>
      if ((48 <=? c) && (c <=? 57))%N
      then parseDigits (10 * acc + Z.of_N (c - 48))%Z s'
      else None
  end.

Definition parseMillis (s : jsstring) : option Z :=
  match s with
  | [] => None
  | _ => parseDigits 0 s
  end.

(** What it means for [out] to keep, for every key, exactly the first
    listing of [jobs] that has this key: the listings of [out] with key [k]
    are that first listing alone (none when no listing of [jobs] has the
    key). *)
Definition keeps_first_per_key {K : Type} `{EqDecision K}
    (key : JobListing -> K) (jobs out : list JobListing) : Prop :=
  forall k : K,
    List.filter (fun x => bool_decide (key x = k)) out =
    match List.find (fun x => bool_decide (key x = k)) jobs with
    | Some first => [first]
    | None => []
    end.

(** The case-insensitive (title, company name) pair of a listing. *)
Definition pairKey (toLowerCase : jsstring -> jsstring) (job : JobListing)
  : jsstring * jsstring :=
  (toLowerCase (title job), toLowerCase (name (company job))).

(** A listing is missing its [publishedAt] when the property is absent or
    the empty string. *)
Definition missingPublishedAt (job : JobListing) : Prop :=
  publishedAt job = None \/ publishedAt job = Some [].

(** A listing was published at the instant [t]. *)
Definition publishedAtTime (Date_parse : jsstring -> option Z)
    (job : JobListing) (t : Z) : Prop :=
  exists s, publishedAt job = Some s /\ s <> [] /\ Date_parse s = Some t.

End Scraper.

(** ** Effects: state passing with exceptions *)

Module Eff.

(** The outcome of a call: a returned value or a thrown [Error] with its
    [message]. *)
Inductive Exc (A : Type) : Type :=
| Ok (a : A)
| Throw (message : jsstring).
Arguments Ok {A} a.
Arguments Throw {A} message.

(** A computation over a mutable world [W]; what was written before a
    throw stays written. *)
Definition M (W A : Type) : Type := W -> Exc A * W.

Definition ret {W A} (a : A) : M W A := fun w => (Ok a, w).

Definition throw {W A} (message : jsstring) : M W A :=
  fun w => (Throw message, w).

Definition bind {W A B} (m : M W A) (k : A -> M W B) : M W B :=
  fun w =>
    match m w with
    | (Ok a, w') => k a w'
    | (Throw e, w') => (Throw e, w')
    end.

(** [try { m } catch (error) { handler error.message }] *)
Definition try_catch {W A} (m : M W A) (handler : jsstring -> M W A) : M W A :=
  fun w =>
    match m w with
    | (Ok a, w') => (Ok a, w')
    | (Throw e, w') => handler e w'
    end.

Definition get {W} : M W W := fun w => (Ok w, w).
Definition modify {W} (f : W -> W) : M W unit := fun w => (Ok tt, f w).

(** Result and final world of a run. *)
Definition result {W A} (m : M W A) (w : W) : Exc A := fst (m w).
Definition world_after {W A} (m : M W A) (w : W) : W := snd (m w).

Definition returns {A} (r : Exc A) : Prop := exists a, r = Ok a.

End Eff.

Import Eff.

Declare Scope eff_scope.
Delimit Scope eff_scope with eff.
Notation "'let*' x ':=' m 'in' k" := (bind m (fun x => k))
  (at level 10, x name, m at level 100, k at level 200) : eff_scope.
Notation "m1 '>>' m2" := (bind m1 (fun _ => m2))
  (at level 100, m2 at level 200, right associativity) : eff_scope.

(** ** Buffers, hex and UTF-8 *)

Module Buf.

(** A Node [Buffer]. *)
Abbreviation Buffer := (list Byte.byte).

(** The byte with the given value (values are below 256 where this is
    called). *)
Definition byteOf (n : N) : Byte.byte :=
  match Byte.of_N (n mod 256) with
  | Some b => b
  | None => Byte.x00
  end.

(** [buffer.toString('hex')]: two lower-case hex digits per byte. *)
Definition hexDigit (n : N) : N :=
  if (n <? 10)%N then (48 + n)%N else (87 + n)%N.

Definition toHex (b : Buffer) : jsstring :=
  flat_map (fun x => [hexDigit (Byte.to_N x / 16); hexDigit (Byte.to_N x mod 16)]) b.

(** The value of a hex digit of either case. *)
Definition hexValue (c : N) : option N :=
  if ((48 <=? c) && (c <=? 57))%N then Some (c - 48)%N
  else if ((97 <=? c) && (c <=? 102))%N then Some (c - 87)%N
  else if ((65 <=? c) && (c <=? 70))%N then Some (c - 55)%N
  else None.

(** [Buffer.from(s, 'hex')]: pairs of hex digits are decoded until the
    first pair that is not two hex digits; a trailing single character is
    dropped. *)
Fixpoint fromHex (s : jsstring) : Buffer :=
  match s with
  | c1 :: c2 :: rest =>
      match hexValue c1, hexValue c2 with
      | Some h, Some l => byteOf (16 * h + l) :: fromHex rest
      | _, _ => []
      end
  | _ => []
  end.

Definition isHighSurrogate (c : N) : bool := ((0xD800 <=? c) && (c <=? 0xDBFF))%N.
Definition isLowSurrogate (c : N) : bool := ((0xDC00 <=? c) && (c <=? 0xDFFF))%N.

(** [String.prototype.isWellFormed]: every code unit is a 16-bit value and
    every surrogate is half of a pair. *)
Fixpoint isWellFormed (s : jsstring) : bool :=
  match s with
  | [] => true
  | c :: rest =>
      if isHighSurrogate c then
        match rest with
        | d :: rest' => isLowSurrogate d && isWellFormed rest'
        | [] => false
        end
      else negb (isLowSurrogate c) && (c <? 0x10000)%N && isWellFormed rest
  end.

(** The UTF-8 bytes of one code point. *)
Definition utf8Bytes (cp : N) : Buffer :=
  (if cp <? 0x80 then [byteOf cp]
   else if cp <? 0x800 then
     [byteOf (0xC0 + cp / 64); byteOf (0x80 + cp mod 64)]
   else if cp <? 0x10000 then
     [byteOf (0xE0 + cp / 4096); byteOf (0x80 + (cp / 64) mod 64);
      byteOf (0x80 + cp mod 64)]
   else
     [byteOf (0xF0 + cp / 262144); byteOf (0x80 + (cp / 4096) mod 64);
      byteOf (0x80 + (cp / 64) mod 64); byteOf (0x80 + cp mod 64)])%N.

(** Encoding a string as ['utf8']: a surrogate pair is one code point, an
    unpaired surrogate is replaced by U+FFFD. *)
Fixpoint utf8Encode (s : jsstring) : Buffer :=
  match s with
  | [] => []
  | c :: rest =>
      if isHighSurrogate c then
        match rest with
        | d :: rest' =>
            if isLowSurrogate d
            then utf8Bytes (0x10000 + (c - 0xD800) * 1024 + (d - 0xDC00))%N
                 ++ utf8Encode rest'
            else utf8Bytes 0xFFFD ++ utf8Encode rest
        | [] => utf8Bytes 0xFFFD
        end
      else if isLowSurrogate c then utf8Bytes 0xFFFD ++ utf8Encode rest
      else utf8Bytes c ++ utf8Encode rest
  end.

Definition isContinuation (n : N) : bool := ((0x80 <=? n) && (n <=? 0xBF))%N.

(** The code units of one code point. *)
Definition codeUnits (cp : N) : jsstring :=
  (if cp <? 0x10000 then [cp]
   else [0xD800 + (cp - 0x10000) / 1024; 0xDC00 + (cp - 0x10000) mod 1024])%N.

(** Decoding ['utf8'] bytes to a string.  Shortest-form sequences of one
    to four bytes are decoded; a byte that starts no such sequence yields
    U+FFFD and decoding resumes at the next byte. *)
Fixpoint utf8Decode (b : Buffer) : jsstring :=
  match b with
  | [] => []
  | b0 :: rest =>
      let n0 := Byte.to_N b0 in
      if (n0 <? 0x80)%N then n0 :: utf8Decode rest
      else
        match rest with
        | [] => [0xFFFD%N]
        | b1 :: rest1 =>
            let n1 := Byte.to_N b1 in
            if ((0xC2 <=? n0) && (n0 <=? 0xDF))%N && isContinuation n1
            then ((n0 - 0xC0) * 64 + (n1 - 0x80))%N :: utf8Decode rest1
            else
              match rest1 with
              | [] => 0xFFFD%N :: utf8Decode rest
              | b2 :: rest2 =>
                  let n2 := Byte.to_N b2 in
                  let cp3 :=
                    ((n0 - 0xE0) * 4096 + (n1 - 0x80) * 64 + (n2 - 0x80))%N in
                  if ((0xE0 <=? n0) && (n0 <=? 0xEF))%N
                     && isContinuation n1 && isContinuation n2
                     && (0x800 <=? cp3)%N
                     && negb (isHighSurrogate cp3 || isLowSurrogate cp3)
                  then cp3 :: utf8Decode rest2
                  else
                    match rest2 with
                    | [] => 0xFFFD%N :: utf8Decode rest
                    | b3 :: rest3 =>
                        let n3 := Byte.to_N b3 in
                        let cp4 :=
                          ((n0 - 0xF0) * 262144 + (n1 - 0x80) * 4096
                           + (n2 - 0x80) * 64 + (n3 - 0x80))%N in
                        if ((0xF0 <=? n0) && (n0 <=? 0xF4))%N
                           && isContinuation n1 && isContinuation n2
                           && isContinuation n3
                           && ((0x10000 <=? cp4) && (cp4 <=? 0x10FFFF))%N
                        then codeUnits cp4 ++ utf8Decode rest3
                        else 0xFFFD%N :: utf8Decode rest
                    end
              end
        end
  end.

(** [s.split(':')] *)
Fixpoint splitColon (s : jsstring) : list jsstring :=
  match s with
  | [] => [[]]
  | c :: rest =>
      if (c =? 58)%N then [] :: splitColon rest
      else match splitColon rest with
           | piece :: pieces => (c :: piece) :: pieces
           | [] => [[c]]
           end
  end.

End Buf.

(** ** The credential vault *)

Module Vault.
Import Portal Buf.

Local Open Scope eff_scope.

(** The values a secret bag can hold. *)
Inductive Value :=
| VString (s : jsstring)
| VNumber (z : Z)
| VBool (b : bool)
| VNull.

#[global] Instance Value_eq_dec : EqDecision Value.
Proof. solve_decision. Defined.

(** A plain object, as the list of its entries in the order of
    [Object.entries]. *)
Abbreviation Obj := (list (jsstring * Value)).

(** Writing an own property: an existing one keeps its place, a new one is
    added last. *)
Fixpoint ownSet (o : Obj) (key : jsstring) (v : Value) : Obj :=
  match o with
  | [] => [(key, v)]
  | (k, old) :: o' =>
      if decide (k = key) then (key, v) :: o' else (k, old) :: ownSet o' key v
  end.

(** An object created by [{}] while it is filled: its own properties, and
    whether [Object.prototype] is still its prototype. *)
Record PlainObject := {
  props : Obj;
  protoIntact : bool
}.

(** [{}] *)
Definition emptyObject : PlainObject :=
  {| props := []; protoIntact := true |}.

(** [o[key] = v].  As long as [Object.prototype] is the prototype, the name
    [__proto__] reaches its setter and no property is created: [null]
    becomes the prototype, a string, a number or a boolean is ignored.
    Every other name, and [__proto__] once the prototype is [null], writes
    an own property. *)
Definition objSet (o : PlainObject) (key : jsstring) (v : Value)
  : PlainObject :=
  if decide (key = js "__proto__") then
    if protoIntact o then
      match v with
      | VNull => {| props := props o; protoIntact := false |}
      | _ => o
      end
    else {| props := ownSet (props o) key v; protoIntact := false |}
  else {| props := ownSet (props o) key v; protoIntact := protoIntact o |}.

(** The own property [key] of an object, [None] when it has none. *)
Fixpoint objGet (o : Obj) (key : jsstring) : option Value :=
  match o with
  | [] => None
  | (k, v) :: o' => if decide (k = key) then Some v else objGet o' key
  end.

(** A document of the [Credential] collection. *)
Record CredentialDoc := {
  _id : nat;
  user : jsstring;
  portal : PortalName;
  credentials : Obj;
  createdAt : Z;
  updatedAt : Z
}.

(** What the vault reads and writes: the system's source of random bytes
    (a tape and the position reached on it), the clock, and the
    [Credential] collection with the next free document id. *)
Record World := {
  entropy : nat -> Byte.byte;
  cursor : nat;
  clock : Z;
  Credential : list CredentialDoc;
  nextId : nat
}.

(** A [CredentialManager] instance. *)
Record CredentialManager := { encryptionKey : jsstring }.

(** The portal name inside a template literal. *)
Definition portalString (p : PortalName) : jsstring :=
  match p with
  | p_linkedin => js "linkedin"
  | p_indeed => js "indeed"
  | p_glassdoor => js "glassdoor"
  | p_workday => js "workday"
  | p_greenhouse => js "greenhouse"
  | p_lever => js "lever"
  | p_other => js "other"
  end.

(** The constructor: [encryptionKey || process.env.CREDENTIAL_ENCRYPTION_KEY]
    must be present and decode to 32 bytes. *)
Definition new_CredentialManager (encryptionKey envKey : option jsstring)
  : Exc CredentialManager :=
  match (if truthy encryptionKey then encryptionKey else envKey) with
  | Some (c :: k) =>
      if (length (fromHex (c :: k)) =? 32)%nat
      then Ok {| encryptionKey := c :: k |}
      else Throw (js "Encryption key must be 64 hex characters (32 bytes)")
  | _ => Throw (js "Encryption key is required for credential management")
  end.

(** [crypto.randomBytes(n)] *)
Definition randomBytes (n : nat) : M World Buffer :=
  fun w =>
    (Ok (List.map (entropy w) (seq (cursor w) n)),
     {| entropy := entropy w; cursor := cursor w + n; clock := clock w;
        Credential := Credential w; nextId := nextId w |}).

(** [new Date()] *)
Definition newDate : M World Z := fun w => (Ok (clock w), w).

(** [crypto.createCipheriv('aes-256-cbc', key, iv)] and
    [crypto.createDecipheriv] reject a key that is not 32 bytes and an
    initialization vector that is not 16 bytes. *)
Definition createCipheriv (key iv : Buffer) : M World unit :=
  if (length key =? 32)%nat then
    if (length iv =? 16)%nat then ret tt
    else throw (js "Invalid initialization vector")
  else throw (js "Invalid key length").

Definition createDecipheriv (key iv : Buffer) : M World unit :=
  createCipheriv key iv.

Section WithCrypto.

(** AES-256 in CBC mode with the default padding, on whole messages:
    [update] followed by [final].  Decryption fails ([None]) on a
    ciphertext that is not a padded whole number of blocks. *)
Variable aes256cbc_encrypt : Buffer -> Buffer -> Buffer -> Buffer.
Variable aes256cbc_decrypt : Buffer -> Buffer -> Buffer -> option Buffer.

(** CredentialManager.encrypt *)
Definition encrypt (cm : CredentialManager) (data : jsstring) : M World Value :=
  match data with
  | [] => ret VNull
  | _ =>
      try_catch
        (let* iv := randomBytes 16 in
         let key := fromHex (encryptionKey cm) in
         createCipheriv key iv >>
         let encrypted := toHex (aes256cbc_encrypt key iv (utf8Encode data)) in
         ret (VString (toHex iv ++ js ":" ++ encrypted)))
        (fun _ => throw (js "Failed to encrypt data"))
  end.

(** CredentialManager.decrypt *)
Definition decrypt (cm : CredentialManager) (encryptedData : jsstring)
  : M World Value :=
  match encryptedData with
  | [] => ret VNull
  | _ =>
      try_catch
        (match splitColon encryptedData with
         | [part0; part1] =>
             let iv := fromHex part0 in
             let encrypted := part1 in
             let key := fromHex (encryptionKey cm) in
             createDecipheriv key iv >>
             match aes256cbc_decrypt key iv (fromHex encrypted) with
             | Some decrypted => ret (VString (utf8Decode decrypted))
             | None => throw (js "bad decrypt")
             end
         | _ => throw (js "Invalid encrypted data format")
         end)
        (fun _ => throw (js "Failed to decrypt data"))
  end.

(** The loop of [storeCredentials] over [Object.entries(credentials)]. *)
Fixpoint encryptFields (cm : CredentialManager) (entries : Obj)
    (encryptedCredentials : PlainObject) : M World PlainObject :=
  match entries with
  | [] => ret encryptedCredentials
  | (key, value) :: rest =>
      match value with
      | VString s =>
          let* e := encrypt cm s in
          encryptFields cm rest (objSet encryptedCredentials key e)
      | _ => encryptFields cm rest (objSet encryptedCredentials key value)
      end
  end.

(** [Credential.findOne({ user: userId, portal })] *)
Definition findOne (userId : jsstring) (p : PortalName)
  : M World (option CredentialDoc) :=
  fun w =>
    (Ok (List.find (fun d => bool_decide (user d = userId /\ portal d = p))
                   (Credential w)), w).

(** [credential.save()]: the stored document with the same [_id] is
    replaced. *)
Definition save (doc : CredentialDoc) : M World unit :=
  modify (fun w =>
    {| entropy := entropy w; cursor := cursor w; clock := clock w;
       Credential :=
         List.map (fun d => if decide (_id d = _id doc) then doc else d)
                  (Credential w);
       nextId := nextId w |}).

(** [Credential.create({ user, portal, credentials })]; the schema's
    defaults fill the two dates. *)
Definition create (userId : jsstring) (p : PortalName) (creds : Obj)
  : M World CredentialDoc :=
  fun w =>
    let doc := {| _id := nextId w; user := userId; portal := p;
                  credentials := creds;
                  createdAt := clock w; updatedAt := clock w |} in
    (Ok doc,
     {| entropy := entropy w; cursor := cursor w; clock := clock w;
        Credential := Credential w ++ [doc]; nextId := S (nextId w) |}).

(** CredentialManager.storeCredentials *)
Definition storeCredentials (cm : CredentialManager) (userId : jsstring)
    (p : PortalName) (creds : Obj) : M World CredentialDoc :=
  try_catch
    (let* encryptedCredentials := encryptFields cm creds emptyObject in
     let* credential := findOne userId p in
     match credential with
     | Some credential =>
         let* now := newDate in
         let credential :=
           {| _id := _id credential; user := user credential;
              portal := portal credential;
              credentials := props encryptedCredentials;
              createdAt := createdAt credential; updatedAt := now |} in
         save credential >> ret credential
     | None => create userId p (props encryptedCredentials)
     end)
    (fun _ => throw (js "Failed to store credentials for " ++ portalString p)).

(** The loop of [getCredentials] over the stored entries. *)
Fixpoint decryptFields (cm : CredentialManager) (entries : Obj)
    (decryptedCredentials : PlainObject) : M World PlainObject :=
  match entries with
  | [] => ret decryptedCredentials
  | (key, value) :: rest =>
      match value with
      | VString s =>
          if includes s (js ":")
          then let* d := decrypt cm s in
               decryptFields cm rest (objSet decryptedCredentials key d)
          else decryptFields cm rest (objSet decryptedCredentials key value)
      | _ => decryptFields cm rest (objSet decryptedCredentials key value)
      end
  end.

(** CredentialManager.getCredentials; [None] is the [null] returned when
    no document is found. *)
Definition getCredentials (cm : CredentialManager) (userId : jsstring)
    (p : PortalName) : M World (option Obj) :=
  try_catch
    (let* credential := findOne userId p in
     match credential with
     | None => ret None
     | Some credential =>
         let* decryptedCredentials :=
           decryptFields cm (credentials credential) emptyObject in
         ret (Some (props decryptedCredentials))
     end)
    (fun _ => throw (js "Failed to retrieve credentials for " ++ portalString p)).

End WithCrypto.

(** A stand-in cipher for concrete runs: the message is mirrored. *)
Definition mirror_encrypt (key iv message : Buffer) : Buffer := rev message.
Definition mirror_decrypt (key iv message : Buffer) : option Buffer :=
  Some (rev message).

(** An object has no property twice. *)
Definition wfObj (o : Obj) : Prop := NoDup (List.map fst o).

(** The fields of a bag that the loops of [storeCredentials] and
    [getCredentials] copy as properties: all but one named [__proto__]. *)
Definition copiedFields (o : Obj) : Obj :=
  List.filter (fun kv => negb (bool_decide (fst kv = js "__proto__"))) o.

(** The round trip of one secret bag through the vault: what
    [getCredentials] returns once [storeCredentials] has run is the bag. *)
Definition roundTrips (enc : Buffer -> Buffer -> Buffer -> Buffer)
    (dec : Buffer -> Buffer -> Buffer -> option Buffer)
    (cm : CredentialManager) (userId : jsstring) (p : PortalName)
    (bag : Obj) (w : World) : Prop :=
  returns (result (storeCredentials enc cm userId p bag) w) /\
  result (getCredentials dec cm userId p)
         (world_after (storeCredentials enc cm userId p bag) w)
  = Ok (Some bag).

End Vault.

(** ** The application adapters' entry point *)

Module Applicant.
Import Portal Scraper.

Local Open Scope eff_scope.

(** The objects that report the outcome of an application attempt, with
    every property that some producer sets.  [None] is a property that is
    absent or [undefined]; [timestamp] holds the instant whose ISO form is
    the property. *)
Record ApplicationResult := {
  success : bool;
  jobId : jsstring;
  company : option jsstring;
  title : option jsstring;
  applicationUrl : option jsstring;
  error : option jsstring;
  timestamp : option Z;
  applicationId : option jsstring
}.

#[global] Instance ApplicationResult_eq_dec : EqDecision ApplicationResult.
Proof. solve_decision. Defined.

(** How far [initialize] gets: [puppeteer.launch] throws, or a later call
    on the new page throws, or all of it succeeds. *)
Inductive LaunchOutcome := launchThrows | pageSetupThrows | ready.

(** One browser session as seen from the applicant: what launching does,
    what driving the pages of a portal yields for a job (the confirmation
    marker was found or not, or the exception that escaped the adapter's
    steps), what closing does, and the clock reading when a result is
    built. *)
Record Session := {
  launch : LaunchOutcome;
  drive : ApplicationSystem -> JobListing -> Exc bool;
  closeBrowser : Exc unit;
  now : Z
}.

(** The mutable fields of an [AutomatedJobApplicant]. *)
Record Applicant := {
  browser : bool;
  applicationResults : list ApplicationResult
}.

(** [new AutomatedJobApplicant(userProfile)] *)
Definition new_AutomatedJobApplicant : Applicant :=
  {| browser := false; applicationResults := [] |}.

Section WithSession.

Variable session : Session.

(** AutomatedJobApplicant.initialize: any exception is caught and turned
    into [false]; the browser handle is assigned as soon as the launch
    returns. *)
Definition initialize : M Applicant bool :=
  match launch session with
  | launchThrows => ret false
  | pageSetupThrows =>
      modify (fun a => {| browser := true;
                          applicationResults := applicationResults a |}) >>
      ret false
  | ready =>
      modify (fun a => {| browser := true;
                          applicationResults := applicationResults a |}) >>
      ret true
  end.

(** AutomatedJobApplicant.close *)
Definition close : M Applicant unit :=
  let* a := get in
  if browser a then
    match closeBrowser session with
    | Ok _ =>
        modify (fun a => {| browser := false;
                            applicationResults := applicationResults a |})
    | Throw e => throw e
    end
  else ret tt.

(** The shape shared by the six [applyVia...] methods: the steps run
    against the page, then the result object is built; an exception is
    logged and thrown again. *)
Definition applyVia (kind : ApplicationSystem) (job : JobListing)
  : M Applicant ApplicationResult :=
  try_catch
    (match drive session kind job with
     | Ok marker =>
         ret {| success := marker;
                jobId := id job;
                company := Some (name (Scraper.company job));
                title := Some (Scraper.title job);
                applicationUrl := Some (Scraper.applicationUrl job);
                error := None;
                timestamp := Some (now session);
                applicationId := None |}
     | Throw e => throw e
     end)
    (fun e => throw e).

Definition applyViaWorkday := applyVia workday.
Definition applyViaGreenhouse := applyVia greenhouse.
Definition applyViaLever := applyVia lever.
Definition applyViaIndeed := applyVia indeed.
Definition applyViaLinkedIn := applyVia linkedin.
Definition applyViaGenericForm := applyVia generic.

(** [this.applicationResults.push(result)] *)
Definition pushResult (r : ApplicationResult) : M Applicant unit :=
  modify (fun a => {| browser := browser a;
                      applicationResults := applicationResults a ++ [r] |}).

(** The [try ... catch] of [applyToJob]. *)
Definition applyToJob_body (job : JobListing) : M Applicant ApplicationResult :=
  try_catch
    (let applicationType := detectApplicationSystem (Scraper.applicationUrl job) in
     let* result :=
       match applicationType with
       | workday => applyViaWorkday job
       | greenhouse => applyViaGreenhouse job
       | lever => applyViaLever job
       | indeed => applyViaIndeed job
       | linkedin => applyViaLinkedIn job
       | generic => applyViaGenericForm job
       end in
     pushResult result >> ret result)
    (fun message =>
       let result :=
         {| success := false;
            jobId := id job;
            company := Some (name (Scraper.company job));
            title := Some (Scraper.title job);
            applicationUrl := Some (Scraper.applicationUrl job);
            error := Some message;
            timestamp := Some (now session);
            applicationId := None |} in
       pushResult result >> ret result).

(** AutomatedJobApplicant.applyToJob *)
Definition applyToJob (job : JobListing) : M Applicant ApplicationResult :=
  let* a := get in
  if negb (browser a) then
    let* initialized := initialize in
    if negb initialized then
      ret {| success := false;
             jobId := id job;
             company := None; title := None; applicationUrl := None;
             error := Some (js "Failed to initialize browser");
             timestamp := None; applicationId := None |}
    else applyToJob_body job
  else applyToJob_body job.

End WithSession.

(** The adapter is reached: a browser is there already, or launching one
    succeeds. *)
Definition reachesAdapter (session : Session) (a : Applicant) : Prop :=
  browser a = true \/ launch session = ready.

(** A complete result object: company, title, application URL and
    timestamp are present, and so is the error when the attempt failed. *)
Definition complete (r : ApplicationResult) : Prop :=
  is_Some (company r) /\ is_Some (title r) /\ is_Some (applicationUrl r) /\
  is_Some (timestamp r) /\ (success r = false -> is_Some (error r)).

End Applicant.

(** ** The batch orchestrator and its tracker *)

Module AutoApply.
Import Portal Applicant.

Local Open Scope eff_scope.

Inductive BatchStatus := processing | completed.

(** The batch record built by [processBatchApplications]. *)
Record Batch := {
  id : jsstring;
  userId : jsstring;
  jobIds : list jsstring;
  status : BatchStatus;
  progress : Z;
  results : list ApplicationResult;
  startTime : Z;
  endTime : option Z
}.

(** The part of a [User] document the routes test. *)
Record User := { profileComplete : bool }.

(** What can be observed of a run, in order. *)
Inductive Event :=
| EvResponse (httpStatus : Z) (batchId : option jsstring)
| EvJob (i : nat) (jobId : jsstring)
| EvSave (snapshot : Batch)
| EvDelay (ms : Z)
| EvLog (message : jsstring).

(** The collaborators of the route: the [User] model, the evaluation of
    [Job.findById(jobId)], the credential manager, profile building (only
    whether it throws is of interest here), the browser session of the
    applicant created for the [i]-th job, and [application.save()], which
    yields the new document's id.  The number is the index of the loop
    iteration that makes the call.

    The route file requires [Application] and [User] but never binds
    [Job]: as the repository stands, evaluating [Job] throws a
    ReferenceError ([Job_unbound] below).  The field also covers the file
    with a [Job] model in scope, whose [findById] resolves to a document
    or to null, or rejects. *)
Record Env := {
  User_findById : jsstring -> Exc (option User);
  Job_findById : nat -> jsstring -> Exc (option Scraper.JobListing);
  hasCredentials : nat -> jsstring -> PortalName -> Exc bool;
  getCredentials : nat -> jsstring -> PortalName -> Exc (option Vault.Obj);
  buildUserProfile : User -> option Vault.Obj -> Exc unit;
  session : nat -> Session;
  Application_save : nat -> jsstring -> Scraper.JobListing -> Exc jsstring
}.

(** The repository as it stands: nothing binds [Job] in the route file,
    so every evaluation of [Job.findById(jobId)] throws the ReferenceError
    whose message is [Job is not defined]. *)
Definition Job_unbound (env : Env) : Prop :=
  forall i jobId, Job_findById env i jobId = Throw (js "Job is not defined").

(** The process-wide state: the reading of the clock, the successive
    values of [Math.random().toString(36)], the batch objects by
    reference, the own properties of the table [global.batchStatuses] from
    batch id to batch object, and the events so far. *)
Record World := {
  clock : Z;
  randoms : nat -> jsstring;
  drawn : nat;
  heap : gmap nat Batch;
  nextRef : nat;
  batchStatuses : gmap jsstring nat;
  trace : list Event
}.

Definition lift {A} (e : Exc A) : M World A := fun w => (e, w).

Definition emit (e : Event) : M World unit :=
  modify (fun w =>
    {| clock := clock w; randoms := randoms w; drawn := drawn w;
       heap := heap w; nextRef := nextRef w;
       batchStatuses := batchStatuses w; trace := trace w ++ [e] |}).

(** [new Date()] and [Date.now()] *)
Definition newDate : M World Z := fun w => (Ok (clock w), w).

(** [await new Promise(resolve => setTimeout(resolve, ms))]: the event of
    the timer.  The reading of the clock is moved by the time asked for;
    how long the timer and the calls around it really take is not
    modelled. *)
Definition delay (ms : Z) : M World unit :=
  modify (fun w =>
    {| clock := (clock w + ms)%Z; randoms := randoms w; drawn := drawn w;
       heap := heap w; nextRef := nextRef w;
       batchStatuses := batchStatuses w;
       trace := trace w ++ [EvDelay ms] |}).

(** A new object. *)
Definition alloc (b : Batch) : M World nat :=
  fun w =>
    (Ok (nextRef w),
     {| clock := clock w; randoms := randoms w; drawn := drawn w;
        heap := <[nextRef w := b]> (heap w); nextRef := S (nextRef w);
        batchStatuses := batchStatuses w; trace := trace w |}).

(** An assignment to properties of the object behind [ref]. *)
Definition updateBatch (ref : nat) (f : Batch -> Batch) : M World unit :=
  modify (fun w =>
    match heap w !! ref with
    | Some b =>
        {| clock := clock w; randoms := randoms w; drawn := drawn w;
           heap := <[ref := f b]> (heap w); nextRef := nextRef w;
           batchStatuses := batchStatuses w; trace := trace w |}
    | None => w
    end).

(** [batch.results.push(r)] *)
Definition pushBatchResult (ref : nat) (r : ApplicationResult) : M World unit :=
  updateBatch ref (fun b =>
    {| id := id b; userId := userId b; jobIds := jobIds b;
       status := status b; progress := progress b;
       results := results b ++ [r];
       startTime := startTime b; endTime := endTime b |}).

(** [batch.progress = p] *)
Definition setProgress (ref : nat) (p : Z) : M World unit :=
  updateBatch ref (fun b =>
    {| id := id b; userId := userId b; jobIds := jobIds b;
       status := status b; progress := p; results := results b;
       startTime := startTime b; endTime := endTime b |}).

(** [batch.status = 'completed'; batch.endTime = t] *)
Definition setCompleted (ref : nat) (t : Z) : M World unit :=
  updateBatch ref (fun b =>
    {| id := id b; userId := userId b; jobIds := jobIds b;
       status := completed; progress := progress b; results := results b;
       startTime := startTime b; endTime := Some t |}).

(** saveBatchStatus: the table entry for [batch.id] is made to point to
    the batch object itself. *)
Definition saveBatchStatus (ref : nat) : M World unit :=
  modify (fun w =>
    match heap w !! ref with
    | Some b =>
        {| clock := clock w; randoms := randoms w; drawn := drawn w;
           heap := heap w; nextRef := nextRef w;
           batchStatuses := <[id b := ref]> (batchStatuses w);
           trace := trace w ++ [EvSave b] |}
    | None => w
    end).

(** getBatchStatus, as far as batch objects go: the batch stored under the
    id, [None] when the table has no own property of that name (the code
    then returns [undefined] or, for the name of a property of
    [Object.prototype], what the table inherits: see
    [ApplyRoutes.inheritedName]). *)
Definition getBatchStatus (batchId : jsstring) : M World (option Batch) :=
  fun w => (Ok (batchStatuses w !! batchId ≫= fun ref => heap w !! ref), w).

(** [x * c] for a double [x] and a positive integer [c]. *)
Definition timesDouble (x : Z * Z) (c : Z) : Z * Z :=
  let '(m, e) := x in
  if (0 <=? e)%Z then nearestDouble (m * c * 2 ^ e) 1
  else nearestDouble (m * c) (2 ^ (- e)).

(** [Math.round(x)] for a double [x >= 0]: the nearest integer, halves
    going up. *)
Definition Math_round (x : Z * Z) : Z :=
  let '(m, e) := x in
  if (0 <=? e)%Z then (m * 2 ^ e)%Z else ((2 * m + 2 ^ (- e)) / 2 ^ (1 - e))%Z.

(** [Math.round((k / n) * 100)] for [k = i + 1] and [n = jobIds.length],
    which is at least 1 where the loop evaluates it, and a double like
    [k], as the length of an array: the quotient is rounded to a double,
    then the product, then [Math.round] is taken. *)
Definition roundPercent (k n : nat) : Z :=
  Math_round (timesDouble (nearestDouble (Z.of_nat k) (Z.of_nat n)) 100).

(** [s.substr(start, len)] *)
Definition substr (s : jsstring) (start len : nat) : jsstring :=
  firstn len (skipn start s).

(** The result objects pushed by the batch loop. *)
Definition failed (jobId : jsstring) (err : option jsstring) : ApplicationResult :=
  {| success := false; jobId := jobId;
     company := None; title := None; applicationUrl := None;
     error := err; timestamp := None; applicationId := None |}.

Definition applied (jobId applicationId : jsstring) : ApplicationResult :=
  {| success := true; jobId := jobId;
     company := None; title := None; applicationUrl := None;
     error := None; timestamp := None; applicationId := Some applicationId |}.

(** How an iteration of the loop leaves its [try] statement: by
    [continue], or by reaching the statements after it. *)
Inductive Flow := continue | fallThrough.

(** Responses of [POST /api/auto-apply/batch]. *)
Inductive Response :=
| batchStarted (count : nat) (batchId : jsstring)
| errorResponse (httpStatus : Z) (message : jsstring).

Section WithRuntime.

(** [Number.prototype.toString(36)] and [String.prototype.toUpperCase]. *)
Variable toString36 : Z -> jsstring.
Variable toUpperCase : jsstring -> jsstring.

Variable env : Env.

(** generateBatchId *)
Definition generateBatchId : M World jsstring :=
  fun w =>
    (Ok (toString36 (clock w)
         ++ toUpperCase (substr (randoms w (drawn w)) 2 5)),
     {| clock := clock w; randoms := randoms w; drawn := S (drawn w);
        heap := heap w; nextRef := nextRef w;
        batchStatuses := batchStatuses w; trace := trace w |}).

(** The [try ... catch] inside the loop of [processBatchApplications],
    for the job at index [i]. *)
Definition tryApply (userId : jsstring) (user : User) (batch : nat)
    (i : nat) (jobId : jsstring) : M World Flow :=
  try_catch
    (let* job := lift (Job_findById env i jobId) in
     match job with
     | None =>
         pushBatchResult batch (failed jobId (Some (js "Job not found"))) >>
         ret continue
     | Some job =>
         let portal := determinePortal (Scraper.applicationUrl job) in
         let* has := lift (hasCredentials env i userId portal) in
         if negb has then
           pushBatchResult batch
             (failed jobId
                (Some (js "No credentials for " ++ Vault.portalString portal))) >>
           ret continue
         else
           let* credentials := lift (getCredentials env i userId portal) in
           let* userProfile := lift (buildUserProfile env user credentials) in
           let run := applyToJob (session env i) job new_AutomatedJobApplicant in
           let* result := lift (fst run) in
           let* closed := lift (fst (close (session env i) (snd run))) in
           if success result then
             let* applicationId := lift (Application_save env i userId job) in
             pushBatchResult batch (applied jobId applicationId) >>
             ret fallThrough
           else
             pushBatchResult batch (failed jobId (error result)) >>
             ret fallThrough
     end)
    (fun message =>
       emit (EvLog message) >>
       pushBatchResult batch (failed jobId (Some message)) >>
       ret fallThrough).

(** The [for] loop of [processBatchApplications] from index [i] on;
    [total] is [jobIds.length]. *)
Fixpoint processJobs (userId : jsstring) (user : User) (batch : nat)
    (total i : nat) (remaining : list jsstring) : M World unit :=
  match remaining with
  | [] => ret tt
  | jobId :: rest =>
      emit (EvJob i jobId) >>
      let* flow := tryApply userId user batch i jobId in
      match flow with
      | continue => ret tt
      | fallThrough =>
          setProgress batch (roundPercent (i + 1) total) >>
          saveBatchStatus batch >>
          delay 5000
      end >>
      processJobs userId user batch total (S i) rest
  end.

(** processBatchApplications *)
Definition processBatchApplications (userId : jsstring)
    (jobIds : list jsstring) (user : User) : M World unit :=
  try_catch
    (let* batchId := generateBatchId in
     let* startTime := newDate in
     let* batch :=
       alloc {| id := batchId; userId := userId; jobIds := jobIds;
                status := processing; progress := 0; results := [];
                startTime := startTime; endTime := None |} in
     saveBatchStatus batch >>
     processJobs userId user batch (length jobIds) 0 jobIds >>
     let* endTime := newDate in
     setCompleted batch endTime >>
     saveBatchStatus batch)
    (fun message => emit (EvLog message)).

(** [router.post('/batch', ...)]; [jobIds] is [None] when the body holds
    no array under that name.  The background processing is run to its
    end. *)
Definition postBatch (reqUserId : jsstring) (jobIds : option (list jsstring))
  : M World Response :=
  try_catch
    (match jobIds with
     | None | Some [] =>
         emit (EvResponse 400 None) >>
         ret (errorResponse 400 (js "Job IDs array is required"))
     | Some jobIds =>
         let* user := lift (User_findById env reqUserId) in
         match user with
         | None =>
             emit (EvResponse 404 None) >>
             ret (errorResponse 404 (js "User not found"))
         | Some user =>
             if negb (profileComplete user) then
               emit (EvResponse 400 None) >>
               ret (errorResponse 400
                      (js "Please complete your profile before applying to jobs"))
             else
               let* batchId := generateBatchId in
               emit (EvResponse 200 (Some batchId)) >>
               processBatchApplications reqUserId jobIds user >>
               ret (batchStarted (length jobIds) batchId)
         end
     end)
    (fun message =>
       emit (EvLog message) >>
       emit (EvResponse 500 None) >>
       ret (errorResponse 500
              (js "Server error while setting up batch application"))).

End WithRuntime.

(** Instances of the runtime's conversions for concrete runs: lower-case
    base-36 digits, ASCII upper case. *)
Definition digit36 (d : N) : N := if (d <? 10)%N then (48 + d)%N else (87 + d)%N.

Fixpoint base36 (fuel : nat) (n : N) (acc : jsstring) : jsstring :=
  match fuel with
  | O => acc
  | S fuel' =>
      let acc' := digit36 (n mod 36) :: acc in
      if (n / 36 =? 0)%N then acc' else base36 fuel' (n / 36) acc'
  end.

Definition toString36 (z : Z) : jsstring :=
  base36 (S (N.size_nat (Z.to_N z))) (Z.to_N z) [].

Definition asciiUpper (s : jsstring) : jsstring :=
  List.map (fun c => if ((97 <=? c) && (c <=? 122))%N then (c - 32)%N else c) s.

(** The state of the batch behind the id [batchId], as a poller sees it. *)
Definition batchOf (batchId : jsstring) (w : World) : option Batch :=
  batchStatuses w !! batchId ≫= fun ref => heap w !! ref.

(** The positions of the trace at which the delay that follows job [i]
    would have to be: after the start of job [i] and before the start of
    job [i + 1]. *)
Fixpoint eventsBetween (i : nat) (tr : list Event) (inside : bool) : list Event :=
  match tr with
  | [] => []
  | e :: tr' =>
      match e with
      | EvJob j _ =>
          if (j =? i)%nat then eventsBetween i tr' true
          else if (j =? S i)%nat then []
          else if inside then e :: eventsBetween i tr' inside
          else eventsBetween i tr' inside
      | _ => if inside then e :: eventsBetween i tr' inside
             else eventsBetween i tr' inside
      end
  end.

Definition delayedAfter (i : nat) (tr : list Event) : Prop :=
  In (EvDelay 5000) (eventsBetween i tr false).

End AutoApply.

(** ** The rest of the credential manager, and its routes *)

Module VaultOps.
Import Portal Buf Vault.

Local Open Scope eff_scope.

(** The filter [{ user: userId, portal }]. *)
Definition matchesPair (userId : jsstring) (p : PortalName)
    (d : CredentialDoc) : bool :=
  bool_decide (user d = userId /\ portal d = p).

(** The collection without its first document that satisfies [P], and
    whether there was one. *)
Fixpoint removeFirst (P : CredentialDoc -> bool) (coll : list CredentialDoc)
  : list CredentialDoc * bool :=
  match coll with
  | [] => ([], false)
  | d :: coll' =>
      if P d then (coll', true)
      else let '(rest, found) := removeFirst P coll' in (d :: rest, found)
  end.

(** [Credential.deleteOne({ user: userId, portal })], giving
    [deletedCount]. *)
Definition deleteOne (userId : jsstring) (p : PortalName) : M World nat :=
  fun w =>
    let '(rest, found) := removeFirst (matchesPair userId p) (Credential w) in
    (Ok (if found then 1 else 0)%nat,
     {| entropy := entropy w; cursor := cursor w; clock := clock w;
        Credential := rest; nextId := nextId w |}).

(** CredentialManager.deleteCredentials *)
Definition deleteCredentials (cm : CredentialManager) (userId : jsstring)
    (p : PortalName) : M World bool :=
  try_catch
    (let* deletedCount := deleteOne userId p in
     ret (0 <? deletedCount)%nat)
    (fun _ => throw (js "Failed to delete credentials for " ++ portalString p)).

(** [Credential.find({ user: userId })] *)
Definition findByUser (userId : jsstring) : M World (list CredentialDoc) :=
  fun w =>
    (Ok (List.filter (fun d => bool_decide (user d = userId)) (Credential w)), w).

(** CredentialManager.listUserPortals *)
Definition listUserPortals (cm : CredentialManager) (userId : jsstring)
  : M World (list PortalName) :=
  try_catch
    (let* credentials := findByUser userId in
     ret (List.map portal credentials))
    (fun _ => throw (js "Failed to list user portals")).

(** [Credential.countDocuments({ user: userId, portal })] *)
Definition countDocuments (userId : jsstring) (p : PortalName) : M World nat :=
  fun w => (Ok (length (List.filter (matchesPair userId p) (Credential w))), w).

(** CredentialManager.hasCredentials *)
Definition hasCredentials (cm : CredentialManager) (userId : jsstring)
    (p : PortalName) : M World bool :=
  try_catch
    (let* count := countDocuments userId p in
     ret (0 <? count)%nat)
    (fun _ => throw (js "Failed to check credentials for " ++ portalString p)).

(** The test [[...].includes(portal)] of the three [/:portal] routes: the
    parameter is one of the seven names. *)
Definition allPortals : list PortalName :=
  [p_linkedin; p_indeed; p_glassdoor; p_workday; p_greenhouse; p_lever; p_other].

Definition portalOfString (s : jsstring) : option PortalName :=
  List.find (fun p => bool_decide (portalString p = s)) allPortals.

(** The JSON bodies the credential routes answer with. *)
Inductive CredentialResponse :=
| credentialsStored (message : jsstring)
| credentialsDeleted (message : jsstring)
| portalList (portals : list PortalName)
| hasCredentialsAnswer (has : bool)
| credentialError (httpStatus : Z) (message : jsstring).

Section WithCrypto.

Variable aes256cbc_encrypt : Buffer -> Buffer -> Buffer -> Buffer.

(** [router.get('/')] *)
Definition getPortals (cm : CredentialManager) (reqUserId : jsstring)
  : M World CredentialResponse :=
  try_catch
    (let* portals := listUserPortals cm reqUserId in
     ret (portalList portals))
    (fun _ => ret (credentialError 500
                     (js "Server error while fetching credentials"))).

(** [router.post('/:portal')]; [body] is [None] when the request has no
    object as its body. *)
Definition postCredentials (cm : CredentialManager) (reqUserId : jsstring)
    (portalParam : jsstring) (body : option Obj) : M World CredentialResponse :=
  try_catch
    (match portalOfString portalParam with
     | None => ret (credentialError 400 (js "Invalid portal specified"))
     | Some p =>
         match body with
         | None | Some [] =>
             ret (credentialError 400 (js "No credentials provided"))
         | Some credentials =>
             storeCredentials aes256cbc_encrypt cm reqUserId p credentials >>
             ret (credentialsStored
                    (js "Credentials for " ++ portalParam
                     ++ js " stored successfully"))
         end
     end)
    (fun _ => ret (credentialError 500
                     (js "Server error while storing credentials"))).

(** [router.get('/:portal')] *)
Definition getHasCredentials (cm : CredentialManager) (reqUserId : jsstring)
    (portalParam : jsstring) : M World CredentialResponse :=
  try_catch
    (match portalOfString portalParam with
     | None => ret (credentialError 400 (js "Invalid portal specified"))
     | Some p =>
         let* has := hasCredentials cm reqUserId p in
         ret (hasCredentialsAnswer has)
     end)
    (fun _ => ret (credentialError 500
                     (js "Server error while checking credentials"))).

(** [router.delete('/:portal')] *)
Definition deleteCredentialsRoute (cm : CredentialManager)
    (reqUserId : jsstring) (portalParam : jsstring)
  : M World CredentialResponse :=
  try_catch
    (match portalOfString portalParam with
     | None => ret (credentialError 400 (js "Invalid portal specified"))
     | Some p =>
         let* deleted := deleteCredentials cm reqUserId p in
         if deleted then
           ret (credentialsDeleted
                  (js "Credentials for " ++ portalParam
                   ++ js " deleted successfully"))
         else
           ret (credentialError 404
                  (js "No credentials found for " ++ portalParam))
     end)
    (fun _ => ret (credentialError 500
                     (js "Server error while deleting credentials"))).

End WithCrypto.

(** The invariants the [Credential] collection has in the database: the
    document ids are distinct and below the next id to be given out, and
    the unique index on (user, portal) holds. *)
Definition distinctIds (w : World) : Prop :=
  NoDup (List.map _id (Credential w)) /\
  Forall (fun d => (_id d < nextId w)%nat) (Credential w).

Definition pairCount (userId : jsstring) (p : PortalName) (w : World) : nat :=
  length (List.filter (matchesPair userId p) (Credential w)).

Definition uniqueIndex (w : World) : Prop :=
  forall userId p, (pairCount userId p w <= 1)%nat.

End VaultOps.

(** ** Searching all platforms *)

Module Search.
Import Scraper.

Local Open Scope eff_scope.

(** [try { m } finally { f }]: [f] runs after [m] however [m] ends, and
    an exception thrown by [f] replaces the outcome of [m]. *)
Definition try_finally {W A} (m : M W A) (f : M W unit) : M W A :=
  fun w =>
    let '(r, w') := m w in
    match f w' with
    | (Ok _, w'') => (r, w'')
    | (Throw e, w'') => (Throw e, w'')
    end.

(** The sites as seen from [searchAllPlatforms]: how far launching a
    browser gets, what each of the three searches settles to, and what
    closing the browser does. *)
Record Sites := {
  launch : Applicant.LaunchOutcome;
  searchLinkedIn : Exc (list JobListing);
  searchIndeed : Exc (list JobListing);
  searchGlassdoor : Exc (list JobListing);
  browserClose : Exc unit
}.

(** The mutable field of a [JobPortalScraper] that its methods test:
    whether [this.browser] is set. *)
Record ScraperState := { browser : bool }.

Section WithRuntime.

Variable toLowerCase : jsstring -> jsstring.
Variable Date_parse : jsstring -> option Z.

(** [Array.prototype.sort] with a comparator; the comparator's [None] is
    NaN. *)
Variable Array_sort :
  (JobListing -> JobListing -> option Z) -> list JobListing -> list JobListing.

Variable sites : Sites.

(** The time value of [new Date(job.publishedAt)]; [None] for an invalid
    date (an unparseable string, or no property at all). *)
Definition timeValue (job : JobListing) : option Z :=
  match publishedAt job with
  | Some s => Date_parse s
  | None => None
  end.

(** The comparator [(a, b) => new Date(b.publishedAt) - new Date(a.publishedAt)]. *)
Definition newestFirst (a b : JobListing) : option Z :=
  match timeValue b, timeValue a with
  | Some tb, Some ta => Some (tb - ta)%Z
  | _, _ => None
  end.

(** JobPortalScraper.initialize *)
Definition initialize : M ScraperState bool :=
  match launch sites with
  | Applicant.launchThrows => ret false
  | Applicant.pageSetupThrows =>
      modify (fun _ => {| browser := true |}) >> ret false
  | Applicant.ready =>
      modify (fun _ => {| browser := true |}) >> ret true
  end.

(** JobPortalScraper.close *)
Definition close : M ScraperState unit :=
  let* s := get in
  if browser s then
    match browserClose sites with
    | Ok _ => modify (fun _ => {| browser := false |})
    | Throw e => throw e
    end
  else ret tt.

(** [search.catch(err => [])] *)
Definition orEmpty (search : Exc (list JobListing)) : list JobListing :=
  match search with
  | Ok jobs => jobs
  | Throw _ => []
  end.

(** JobPortalScraper.searchAllPlatforms *)
Definition searchAllPlatforms : M ScraperState (list JobListing) :=
  try_finally
    (try_catch
       (let* s := get in
        (if negb (browser s) then
           let* initialized := initialize in
           if negb initialized
           then throw (js "Failed to initialize browser")
           else ret tt
         else ret tt) >>
        let linkedInJobs := orEmpty (searchLinkedIn sites) in
        let indeedJobs := orEmpty (searchIndeed sites) in
        let glassdoorJobs := orEmpty (searchGlassdoor sites) in
        let allJobs := linkedInJobs ++ indeedJobs ++ glassdoorJobs in
        let uniqueJobs := removeDuplicateJobs toLowerCase allJobs in
        ret (Array_sort newestFirst uniqueJobs))
       (fun e => throw e))
    close.

(** The [fromage] parameter [searchIndeed] adds to its address when
    [params.hours] is given and not zero: a number of days.  [hours] is
    [None] when the parameter is absent. *)
Definition indeedFromage (hours : option Z) : option Z :=
  match hours with
  | None => None
  | Some h =>
      if (h =? 0)%Z then None
      else if (h <=? 24)%Z then Some 1%Z
      else if (h <=? 72)%Z then Some 3%Z
      else Some 7%Z
  end.

End WithRuntime.

(** An instance of [Array_sort] for concrete runs: a stable insertion
    sort; an element is placed before the first one it does not have to
    follow. *)
Fixpoint insertBy (cmp : JobListing -> JobListing -> option Z)
    (x : JobListing) (l : list JobListing) : list JobListing :=
  match l with
  | [] => [x]
  | y :: l' =>
      match cmp x y with
      | Some d => if (d <=? 0)%Z then x :: l else y :: insertBy cmp x l'
      | None => x :: l
      end
  end.

Definition insertionSort (cmp : JobListing -> JobListing -> option Z)
    (l : list JobListing) : list JobListing :=
  fold_right (insertBy cmp) [] l.

End Search.

(** ** The single application route, the status route and the profile *)

Module ApplyRoutes.
Import Portal Applicant AutoApply.

Local Open Scope eff_scope.

(** The JSON bodies [POST /api/auto-apply] answers with; the success body
    is represented by the id of the saved application. *)
Inductive ApplyResponse :=
| applySuccess (applicationId : jsstring)
| applyError (httpStatus : Z) (message : jsstring) (error : option jsstring).

(** [router.post('/', ...)]; [jobId] is [None] when the body has no such
    property.  The collaborators are those of the batch loop, asked as for
    its first job. *)
Definition postApply (env : Env) (reqUserId : jsstring)
    (jobId : option jsstring) : M World ApplyResponse :=
  try_catch
    (match jobId with
     | None | Some [] => ret (applyError 400 (js "Job ID is required") None)
     | Some jobId =>
         let* user := lift (User_findById env reqUserId) in
         match user with
         | None => ret (applyError 404 (js "User not found") None)
         | Some user =>
             if negb (profileComplete user) then
               ret (applyError 400
                      (js "Please complete your profile before applying to jobs")
                      None)
             else
               let* job := lift (Job_findById env 0 jobId) in
               match job with
               | None => ret (applyError 404 (js "Job not found") None)
               | Some job =>
                   let portal := determinePortal (Scraper.applicationUrl job) in
                   let* has := lift (hasCredentials env 0 reqUserId portal) in
                   if negb has then
                     ret (applyError 400
                            (js "You need to add your "
                             ++ Vault.portalString portal
                             ++ js " credentials before applying") None)
                   else
                     let* credentials :=
                       lift (getCredentials env 0 reqUserId portal) in
                     let* userProfile :=
                       lift (buildUserProfile env user credentials) in
                     let run :=
                       applyToJob (session env 0) job new_AutomatedJobApplicant in
                     let* result := lift (fst run) in
                     let* closed :=
                       lift (fst (close (session env 0) (snd run))) in
                     if success result then
                       let* applicationId :=
                         lift (Application_save env 0 reqUserId job) in
                       ret (applySuccess applicationId)
                     else
                       ret (applyError 400 (js "Failed to apply to job")
                              (error result))
               end
         end
     end)
    (fun _ =>
       ret (applyError 500 (js "Server error while applying to job") None)).

(** The names of the properties of [Object.prototype], which the table
    [global.batchStatuses], a plain object, inherits. *)
Definition objectPrototypeNames : list jsstring :=
  [js "constructor"; js "__defineGetter__"; js "__defineSetter__";
   js "hasOwnProperty"; js "__lookupGetter__"; js "__lookupSetter__";
   js "isPrototypeOf"; js "propertyIsEnumerable"; js "toString";
   js "valueOf"; js "__proto__"; js "toLocaleString"].

Definition inheritedName (name : jsstring) : bool :=
  bool_decide (name ∈ objectPrototypeNames).

(** What [global.batchStatuses[batchId]] evaluates to when it is not
    [undefined]: a batch object stored under the id or, when no batch is
    stored under it and the id is the name of a property of
    [Object.prototype], that property (a function, or for [__proto__] the
    prototype itself; all of them truthy). *)
Inductive TableValue :=
| batchObject (b : Batch)
| inheritedProperty (name : jsstring).

(** [global.batchStatuses[batchId]] as the route receives it from
    [getBatchStatus]; [None] is [undefined]. *)
Definition lookupBatchStatus (batchId : jsstring)
  : M World (option TableValue) :=
  let* own := getBatchStatus batchId in
  match own with
  | Some b => ret (Some (batchObject b))
  | None =>
      if inheritedName batchId then ret (Some (inheritedProperty batchId))
      else ret None
  end.

(** The JSON bodies [GET /api/auto-apply/status/:batchId] answers with;
    [statusFound] is the answer 200 with status [success] and the value
    found (of which JSON keeps nothing when it is a function). *)
Inductive StatusResponse :=
| statusFound (batchStatus : TableValue)
| statusError (httpStatus : Z) (message : jsstring).

(** [router.get('/status/:batchId', ...)] *)
Definition getStatus (batchId : jsstring) : M World StatusResponse :=
  try_catch
    (let* batchStatus := lookupBatchStatus batchId in
     match batchStatus with
     | None =>
         ret (statusError 404 (js "Batch application process not found"))
     | Some batchStatus => ret (statusFound batchStatus)
     end)
    (fun _ =>
       ret (statusError 500 (js "Server error while getting batch status"))).

(** An entry of [user.education]; [degree] is [None] when the property
    is [undefined]. *)
Record Education := { degree : option jsstring }.

(** The object [educationLevels], in the order of [Object.entries]. *)
Definition educationLevels : list (jsstring * Z) :=
  [(js "High School", 1%Z); (js "Associate", 2%Z); (js "Bachelor", 3%Z);
   (js "Master", 4%Z); (js "PhD", 5%Z)].

(** The inner loop of [getHighestEducation] over the levels, with the
    locals [highestLevel] and [highestValue] as a pair. *)
Fixpoint scanLevels (degree : jsstring) (levels : list (jsstring * Z))
    (highest : jsstring * Z) : jsstring * Z :=
  match levels with
  | [] => highest
  | (level, value) :: rest =>
      if includes degree level && (snd highest <? value)%Z
      then scanLevels degree rest (level, value)
      else scanLevels degree rest highest
  end.

(** The outer loop over the entries; [degree.includes] on [undefined]
    throws a [TypeError]. *)
Fixpoint scanEducation (education : list Education) (highest : jsstring * Z)
  : Exc (jsstring * Z) :=
  match education with
  | [] => Ok highest
  | edu :: rest =>
      match degree edu with
      | None =>
          Throw (js "Cannot read properties of undefined (reading 'includes')")
      | Some d => scanEducation rest (scanLevels d educationLevels highest)
      end
  end.

(** getHighestEducation; [education] is [None] when the user document has
    no such array. *)
Definition getHighestEducation (education : option (list Education))
  : Exc jsstring :=
  match education with
  | None | Some [] => Ok (js "High School")
  | Some education =>
      match scanEducation education (js "High School", 1%Z) with
      | Ok (highestLevel, _) => Ok highestLevel
      | Throw e => Throw e
      end
  end.

(** An entry of [user.workExperience]: the time values of
    [new Date(job.startDate)] and [new Date(job.endDate)], [None] for an
    invalid date, and whether [job.current] is truthy. *)
Record WorkExperience := {
  startDate : option Z;
  endDate : option Z;
  current : bool
}.

Section WithCalendar.

(** [Date.prototype.getFullYear] and [Date.prototype.getMonth], on time
    values. *)
Variable getFullYear : Z -> Z.
Variable getMonth : Z -> Z.

(** The [months] of one iteration of [calculateYearsOfExperience];
    [None] is NaN.  [now] is the reading of [new Date()]. *)
Definition monthsOf (now : Z) (job : WorkExperience) : option Z :=
  let endDate := if current job then Some now else endDate job in
  match startDate job, endDate with
  | Some s, Some e =>
      Some ((getFullYear e - getFullYear s) * 12 + (getMonth e - getMonth s))%Z
  | _, _ => None
  end.

(** The loop, with its local [totalMonths]. *)
Fixpoint sumMonths (now : Z) (workExperience : list WorkExperience)
    (totalMonths : option Z) : option Z :=
  match workExperience with
  | [] => totalMonths
  | job :: rest =>
      sumMonths now rest
        (match totalMonths, monthsOf now job with
         | Some t, Some m => Some (t + m)%Z
         | _, _ => None
         end)
  end.

(** calculateYearsOfExperience; [Math.round] rounds halves up, so that
    [Math.round(t / 12)] is the floor of [(t + 6) / 12].  The clock is read
    as [now] throughout the loop. *)
Definition calculateYearsOfExperience (now : Z)
    (workExperience : option (list WorkExperience)) : option Z :=
  match workExperience with
  | None | Some [] => Some 0%Z
  | Some workExperience =>
      match sumMonths now workExperience (Some 0%Z) with
      | Some totalMonths => Some ((totalMonths + 6) / 12)%Z
      | None => None
      end
  end.

End WithCalendar.

End ApplyRoutes.

(** ** The steps of a LinkedIn application *)

Module EasyApply.
Import Applicant.

(** What [applyViaLinkedIn] does to the primary button in one pass of its
    loop. *)
Inductive Click :=
| clickNext (step : nat)
| clickSubmit (step : nat).

(** How the loop ends: the final button was clicked, no primary button
    was found, the step counter passed [maxSteps], or a call on the page
    threw. *)
Inductive LoopEnd :=
| submitted
| noButton
| stepsExhausted
| interrupted (message : jsstring).

Definition maxSteps : nat := 5.

(** The [while (currentStep <= maxSteps)] loop of [applyViaLinkedIn].
    [pass k] is what the [k]-th pass finds on the page: the text of the
    primary button, [None] when there is none, or the exception thrown by
    one of the calls on the page in this pass (a click of this pass is then
    not counted).  [remaining] counts the values of [currentStep] still
    within [maxSteps]. *)
Fixpoint stepLoop (pass : nat -> Exc (option jsstring))
    (currentStep remaining : nat) : list Click * LoopEnd :=
  match remaining with
  | O => ([], stepsExhausted)
  | S remaining' =>
      match pass currentStep with
      | Throw e => ([], interrupted e)
      | Ok None => ([], noButton)
      | Ok (Some buttonText) =>
          if includes buttonText (js "Submit") || includes buttonText (js "Apply")
          then ([clickSubmit currentStep], submitted)
          else
            let '(clicks, ending) :=
              stepLoop pass (S currentStep) remaining' in
            (clickNext currentStep :: clicks, ending)
      end
  end.

Definition easyApplySteps (pass : nat -> Exc (option jsstring))
  : list Click * LoopEnd :=
  stepLoop pass 1 maxSteps.

(** AutomatedJobApplicant.getApplicationResults *)
Definition getApplicationResults : M Applicant (list ApplicationResult) :=
  fun a => (Ok (applicationResults a), a).

End EasyApply.

(** ** Facts about strings *)

Module JSFacts.

Lemma startsWith_spec (s p : jsstring) :
  startsWith s p = true <-> exists post, s = p ++ post.
Proof.
  revert s; induction p as [|c p IH]; intros s; simpl.
  - split; [intros _; now exists s | reflexivity].
  - destruct s as [|d s]; simpl.
    + split; [discriminate | intros [post H]; discriminate].
    + rewrite andb_true_iff, N.eqb_eq, IH. split.
      * intros [-> [post ->]]. now exists post.
      * intros [post H]. injection H as -> ->. split; [reflexivity | now exists post].
Qed.

Lemma includes_spec (s frag : jsstring) :
  includes s frag = true <-> contains s frag.
Proof.
  unfold contains. induction s as [|d s IH]; simpl.
  - rewrite orb_false_r, startsWith_spec. split.
    + intros [post H]. now exists [], post.
    + intros [pre [post H]].
      destruct pre; [now exists post | discriminate].
  - rewrite orb_true_iff, startsWith_spec, IH. split.
    + intros [[post H] | [pre [post H]]].
      * now exists [], post.
      * exists (d :: pre), post. simpl. now rewrite H.
    + intros [pre [post H]]. destruct pre as [|e pre]; simpl in H.
      * left. now exists post.
      * right. injection H as -> ->. now exists pre, post.
Qed.

Lemma includes_false_spec (s frag : jsstring) :
  includes s frag = false <-> ~ contains s frag.
Proof.
  rewrite <- includes_spec. destruct (includes s frag); split; intros H;
    try reflexivity; try discriminate; try (intros H'; discriminate).
  now destruct H.
Qed.

End JSFacts.

Module PortalFacts.
Import Portal JSFacts.

(** C7. Portal classification ([detectApplicationSystem]) is a total,
    deterministic function of the URL string: every URL gets exactly one
    kind, two calls on the same URL agree, every URL that contains
    "myworkdayjobs.com" is classified as workday, and every URL that
    contains none of the known domain fragments is classified as
    generic.  The orchestrator's [determinePortal] is total as well and
    agrees on the workday URLs. *)
Theorem detectApplicationSystem_total_deterministic (url : jsstring) :
  (exists! k, detectApplicationSystem url = k) /\
  (forall url', url' = url ->
                detectApplicationSystem url' = detectApplicationSystem url) /\
  (contains url (js "myworkdayjobs.com") ->
   detectApplicationSystem url = workday) /\
  ((forall frag, In frag knownFragments -> ~ contains url frag) ->
   detectApplicationSystem url = generic) /\
  (exists! p, determinePortal url = p) /\
  (contains url (js "myworkdayjobs.com") -> determinePortal url = p_workday).
Proof.
  repeat split.
  - exists (detectApplicationSystem url). split; [reflexivity | now intros k <-].
  - now intros url' ->.
  - intros H. apply includes_spec in H.
    unfold detectApplicationSystem. now rewrite H.
  - intros H. unfold detectApplicationSystem.
    assert (Hf : forall frag, In frag knownFragments -> includes url frag = false).
    { intros frag Hin. apply includes_false_spec. now apply H. }
    unfold knownFragments in Hf. simpl in Hf.
    rewrite !Hf by tauto. reflexivity.
  - exists (determinePortal url). split; [reflexivity | now intros k <-].
  - intros H. apply includes_spec in H.
    unfold determinePortal. now rewrite H.
Qed.

Lemma detectApplicationSystem_total_deterministic_witness :
  detectApplicationSystem (js "https://acme.myworkdayjobs.com/careers/job/42")
    = workday
  /\ detectApplicationSystem (js "https://careers.example.org/apply") = generic.
Proof.
  split.
  - apply (detectApplicationSystem_total_deterministic
             (js "https://acme.myworkdayjobs.com/careers/job/42")).
    exists (js "https://acme."), (js "/careers/job/42"). reflexivity.
  - apply (detectApplicationSystem_total_deterministic
             (js "https://careers.example.org/apply")).
    intros frag Hin. apply includes_false_spec.
    simpl in Hin.
    repeat (destruct Hin as [<- | Hin]; [vm_compute; reflexivity |]).
    destruct Hin.
Defined.

(** The orchestrator's own classifier agrees on workday URLs, but its
    default is [p_other], and it knows one more portal. *)
Lemma determinePortal_workday (url : jsstring) :
  contains url (js "myworkdayjobs.com") -> determinePortal url = p_workday.
Proof.
  intros H. apply includes_spec in H. unfold determinePortal. now rewrite H.
Qed.

Lemma determinePortal_default (url : jsstring) :
  (forall frag, In frag (knownFragments ++ [js "glassdoor.com"]) ->
                ~ contains url frag) ->
  determinePortal url = p_other.
Proof.
  intros H. unfold determinePortal.
  assert (Hf : forall frag, In frag (knownFragments ++ [js "glassdoor.com"]) ->
                            includes url frag = false).
  { intros frag Hin. apply includes_false_spec. now apply H. }
  unfold knownFragments in Hf. simpl in Hf.
  rewrite !Hf by tauto. reflexivity.
Qed.

End PortalFacts.

(** ** De-duplication and recency filter: properties *)

Module ScraperFacts.
Import Scraper.

Section Dedup.

Variable toLowerCase : jsstring -> jsstring.

Local Abbreviation key := (dedupKey toLowerCase).
Local Abbreviation loop := (removeDuplicateJobs_loop toLowerCase).

(** The accumulator of the loop is only ever extended at its end. *)
Lemma removeDuplicateJobs_loop_acc (jobs : list JobListing) :
  forall seen acc, loop jobs seen acc = acc ++ loop jobs seen [].
Proof.
  induction jobs as [|job rest IH]; intros seen acc; simpl.
  - now rewrite app_nil_r.
  - destruct (decide (key job ∈ seen)) as [Hin|Hnin].
    + apply IH.
    + rewrite (IH _ (acc ++ [job])), (IH _ [job]).
      now rewrite <- app_assoc.
Qed.

Lemma removeDuplicateJobs_loop_cons (job : JobListing) rest seen :
  loop (job :: rest) seen [] =
  if decide (key job ∈ seen) then loop rest seen []
  else job :: loop rest ({[key job]} ∪ seen) [].
Proof.
  simpl. destruct (decide (key job ∈ seen)); [reflexivity|].
  now rewrite removeDuplicateJobs_loop_acc.
Qed.

(** Output order is input order. *)
Lemma removeDuplicateJobs_loop_sublist (jobs : list JobListing) :
  forall seen, sublist (loop jobs seen []) jobs.
Proof.
  induction jobs as [|job rest IH]; intros seen.
  - simpl. constructor.
  - rewrite removeDuplicateJobs_loop_cons.
    destruct (decide (key job ∈ seen)).
    + apply sublist_cons, IH.
    + apply sublist_skip, IH.
Qed.

Lemma removeDuplicateJobs_loop_filter (jobs : list JobListing) :
  forall seen k,
    List.filter (fun x => bool_decide (key x = k)) (loop jobs seen []) =
    if decide (k ∈ seen) then []
    else match List.find (fun x => bool_decide (key x = k)) jobs with
         | Some first => [first]
         | None => []
         end.
Proof.
  induction jobs as [|job rest IH]; intros seen k.
  - simpl. now destruct (decide (k ∈ seen)).
  - rewrite removeDuplicateJobs_loop_cons.
    destruct (decide (key job ∈ seen)) as [Hin|Hnin].
    + rewrite IH. destruct (decide (k ∈ seen)) as [|Hk]; [reflexivity|].
      simpl. rewrite bool_decide_eq_false_2; [reflexivity|].
      intros Heq. apply Hk. now rewrite <- Heq.
    + simpl. rewrite IH.
      destruct (decide (key job = k)) as [Heq|Hne].
      * rewrite (bool_decide_eq_true_2 _ Heq).
        rewrite decide_True by (rewrite <- Heq; set_solver).
        rewrite decide_False by (now rewrite <- Heq).
        reflexivity.
      * rewrite (bool_decide_eq_false_2 _ Hne).
        destruct (decide (k ∈ seen)) as [Hk|Hk].
        -- destruct (decide (k ∈ {[key job]} ∪ seen)) as [|Hn]; [reflexivity|].
           exfalso. apply Hn, elem_of_union. now right.
        -- destruct (decide (k ∈ {[key job]} ∪ seen)) as [Hy|]; [|reflexivity].
           apply elem_of_union in Hy as [Hy|Hy]; [|contradiction].
           apply elem_of_singleton in Hy. congruence.
Qed.

(** C5 (as amended). For every list of job listings, [removeDuplicateJobs]
    returns, in input order, exactly one entry per distinct value of the
    concatenated key [lower(title) ++ "-" ++ lower(company.name)], and that
    entry is the first listing of the input with this key. *)
Theorem removeDuplicateJobs_first_per_concatenated_key
    (jobs : list JobListing) :
  keeps_first_per_key key jobs (removeDuplicateJobs toLowerCase jobs) /\
  sublist (removeDuplicateJobs toLowerCase jobs) jobs.
Proof.
  split.
  - intros k. unfold removeDuplicateJobs.
    rewrite removeDuplicateJobs_loop_filter.
    rewrite decide_False by set_solver. reflexivity.
  - apply removeDuplicateJobs_loop_sublist.
Qed.

End Dedup.

(** Two listings whose (title, company) pairs differ and whose concatenated
    keys coincide. *)
Definition listing (t c : string) : JobListing :=
  {| id := js "1"; title := js t;
     company := {| name := js c; logo := None; website := None |};
     location := js "Remote"; applicationUrl := js "https://example.org/j";
     publishedAt := None; isRemote := true |}.

Definition collidingJobs : list JobListing :=
  [listing "Data-Engineer" "Acme"; listing "Data" "Engineer-Acme"].

(** C5 (as stated) fails: on [collidingJobs] the two listings have distinct
    case-insensitive (title, company name) pairs, yet the output holds no
    entry for the second pair. *)
Lemma removeDuplicateJobs_pair_key_counterexample :
  ~ keeps_first_per_key (pairKey asciiLower) collidingJobs
      (removeDuplicateJobs asciiLower collidingJobs).
Proof.
  intros H.
  specialize (H (pairKey asciiLower (listing "Data" "Engineer-Acme"))).
  vm_compute in H. discriminate H.
Qed.

(** An integer below 2^53 is a double. *)
Lemma nearestDouble_exact (n : Z) :
  (0 < n < 2 ^ 53)%Z ->
  exists e, (e <= 0)%Z /\ nearestDouble n 1 = (n * 2 ^ (- e), e)%Z.
Proof.
  intros Hn. unfold nearestDouble.
  destruct (Z.eqb_spec n 0%Z) as [|_]; [lia|].
  change (Z.log2 1) with 0%Z.
  pose proof (Z.log2_spec n ltac:(lia)) as [Hlo Hhi].
  assert (Hlog : (0 <= Z.log2 n <= 52)%Z).
  { split; [apply Z.log2_nonneg|].
    apply Z.lt_succ_r. apply (Z.pow_lt_mono_r_iff 2%Z); lia. }
  set (l := Z.log2 n) in *.
  replace (l - 0 - 52)%Z with (l - 52)%Z by lia.
  assert (Hq : (2 ^ 52 <= n * 2 ^ (52 - l) < 2 ^ 53)%Z).
  { replace (2 ^ 52)%Z with (2 ^ l * 2 ^ (52 - l))%Z
      by (rewrite <- Z.pow_add_r by lia; f_equal; lia).
    replace (2 ^ 53)%Z with (2 ^ (Z.succ l) * 2 ^ (52 - l))%Z
      by (rewrite <- Z.pow_add_r by lia; f_equal; lia).
    assert (0 < 2 ^ (52 - l))%Z by (apply Z.pow_pos_nonneg; lia).
    split; nia. }
  destruct (Z.eq_dec l 52%Z) as [E|Hne].
  - rewrite E in *. change (52 - 52)%Z with 0%Z in *.
    change (0 <=? 0)%Z with true. cbn [fst snd].
    rewrite Z.pow_0_r, Z.mul_1_r in *. rewrite Z.div_1_r.
    destruct (Z.ltb_spec n (2 ^ 52)%Z) as [|_]; [lia|].
    change (0 <=? 0)%Z with true. cbv beta iota.
    rewrite Z.pow_0_r, Z.mul_1_r, Z.div_1_r, Z.mod_1_r.
    change (2 * 0 <? 1)%Z with true. cbv beta iota.
    destruct (Z.eqb_spec n (2 ^ 53)%Z) as [|_]; [lia|].
    exists 0%Z. split; [lia|]. now rewrite Z.pow_0_r, Z.mul_1_r.
  - destruct (Z.leb_spec 0 (l - 52)%Z) as [|_]; [lia|]. cbn [fst snd].
    replace (- (l - 52))%Z with (52 - l)%Z by lia.
    rewrite Z.div_1_r.
    destruct (Z.ltb_spec (n * 2 ^ (52 - l))%Z (2 ^ 52)%Z) as [|_]; [lia|].
    destruct (Z.leb_spec 0 (l - 52)%Z) as [|_]; [lia|].
    replace (- (l - 52))%Z with (52 - l)%Z by lia.
    rewrite Z.div_1_r, Z.mod_1_r.
    change (2 * 0 <? 1)%Z with true. cbv beta iota.
    destruct (Z.eqb_spec (n * 2 ^ (52 - l))%Z (2 ^ 53)%Z) as [|_]; [lia|].
    exists (l - 52)%Z. split; [lia|].
    now replace (- (l - 52))%Z with (52 - l)%Z by lia.
Qed.

(** Subtracting a whole number from a whole number is exact, and leaves
    no fraction to drop. *)
Lemma subtract_whole (h z : Z) :
  (Z.abs (h - z) < 2 ^ 53)%Z ->
  ToIntegerOrInfinity (subtractNumber h (wholeNumber z)) = (h - z)%Z.
Proof.
  intros Hb. unfold subtractNumber, wholeNumber.
  cbn [exponent significand]. change (0 <=? 0)%Z with true. cbv beta iota.
  rewrite Z.pow_0_r, Z.mul_1_r.
  destruct (Z.eq_dec (h - z)%Z 0%Z) as [E|Hne].
  - rewrite E. reflexivity.
  - destruct (nearestDouble_exact (Z.abs (h - z)%Z) ltac:(lia))
      as (e & He & ->).
    unfold ToIntegerOrInfinity. cbn [exponent significand].
    assert (Hpow : (0 < 2 ^ (- e))%Z) by (apply Z.pow_pos_nonneg; lia).
    destruct (Z.leb_spec 0%Z e).
    + replace e with 0%Z by lia. rewrite !Z.pow_0_r, !Z.mul_1_r.
      rewrite Z.mul_comm. apply Z.abs_sgn.
    + rewrite Z.mul_assoc, Z.quot_mul by lia.
      rewrite Z.mul_comm. apply Z.abs_sgn.
Qed.

Section Recency.

Variable LocalTZA : Z -> bool -> Z.
Variable Date_parse : jsstring -> option Z.

(** What the changes of the clocks add to the cutoff: the offset in force
    at [now], minus the offset read for the local time [hours] hours
    earlier. *)
Definition drift (now hours : Z) : Z :=
  (LocalTZA now true
   - LocalTZA (now + LocalTZA now true - hours * msPerHour) false)%Z.

(** The instant [hours] hours before [now], moved by the drift. *)
Definition cutoff (now hours : Z) : Z :=
  (now - hours * msPerHour + drift now hours)%Z.

(** The whole number of hours by which [setHours] moves the local time
    back: the local hour, minus what is left of the rounded difference
    once its fraction is dropped. *)
Definition hoursBack (now : Z) (hours : Number) : Z :=
  (getHours LocalTZA now
   - ToIntegerOrInfinity (subtractNumber (getHours LocalTZA now) hours))%Z.

(** Subtracting [hours] from the local hour moves the local time back by
    a whole number of hours; the instant moves back by as much only where
    the two offsets agree. *)
Lemma setHours_getHours_minus (now : Z) (hours : Number) :
  setHours LocalTZA now (subtractNumber (getHours LocalTZA now) hours)
  = TimeClip (cutoff now (hoursBack now hours)).
Proof.
  unfold setHours, cutoff, drift. f_equal.
  assert (Hh : ToIntegerOrInfinity
                 (subtractNumber (getHours LocalTZA now) hours)
               = (getHours LocalTZA now - hoursBack now hours)%Z)
    by (unfold hoursBack; lia).
  rewrite Hh. generalize (hoursBack now hours). intros back.
  unfold getHours, UTC, LocalTime.
  set (lt := (now + LocalTZA now true)%Z).
  assert (Hlocal :
    (Day lt * msPerDay + ((HourFromTime lt - back) * msPerHour
                          + lt mod msPerHour)
     = lt - back * msPerHour)%Z).
  { unfold HourFromTime, Day, msPerHour, msPerDay, HoursPerDay.
    Z.div_mod_to_equations. lia. }
  rewrite Hlocal. unfold lt. lia.
Qed.

(** For a whole number of hours, the local time is moved back by that
    number. *)
Lemma hoursBack_whole (now h : Z) :
  (Z.abs h <= 2 ^ 52)%Z -> hoursBack now (wholeNumber h) = h.
Proof.
  intros Hh. unfold hoursBack. rewrite subtract_whole; [lia|].
  assert (0 <= getHours LocalTZA now < 24)%Z
    by (unfold getHours, HourFromTime, HoursPerDay; apply Z.mod_pos_bound; lia).
  change (2 ^ 53)%Z with (2 * 2 ^ 52)%Z. lia.
Qed.

Lemma isRecent_spec (cutoffTime : option Z) (job : JobListing) :
  isRecent Date_parse cutoffTime job = true <->
  missingPublishedAt job \/
  exists t c, publishedAtTime Date_parse job t /\
              cutoffTime = Some c /\ (c <= t)%Z.
Proof.
  unfold isRecent, missingPublishedAt, publishedAtTime.
  destruct (publishedAt job) as [[|c s]|]; cbn [truthy negb].
  - split; [intros _; left; now right | reflexivity].
  - destruct (Date_parse (c :: s)) as [t|] eqn:Hp.
    + destruct cutoffTime as [c0|].
      * rewrite Z.leb_le. split.
        -- intros H. right. exists t, c0. split; [|now split].
           exists (c :: s). now repeat split.
        -- intros [[H|H] | (t' & c' & (s' & [= <-] & _ & Hs) & [= <-] & Ht)];
             try discriminate.
           congruence.
      * split; [discriminate|].
        intros [[H|H] | (t' & c' & _ & Hc & _)]; discriminate.
    + split; [discriminate|].
      intros [[H|H] | (t' & c' & (s' & [= <-] & _ & Hs) & _)];
        try discriminate.
      congruence.
  - split; [intros _; left; now left | reflexivity].
Qed.

End Recency.

Definition datedListing (t : string) (p : option jsstring) : JobListing :=
  {| id := js "7"; title := js t;
     company := {| name := js "Acme"; logo := None; website := None |};
     location := js "Remote"; applicationUrl := js "https://example.org/j";
     publishedAt := p; isRemote := true |}.

Definition oldListing : JobListing := datedListing "old" (Some (js "1000")).
Definition undatedListing : JobListing := datedListing "undated" None.
Definition someListings : list JobListing :=
  [oldListing; datedListing "fresh" (Some (js "9000000")); undatedListing].

(** Local time in New York around the end of daylight saving time in
    2024: four hours behind UTC until 2024-11-03T06:00:00Z, five hours
    from then on; a local time before 02:00 of that day is read with the
    earlier offset. *)
Definition newYork (t : Z) (isUTC : bool) : Z :=
  if isUTC
  then if (t <? 1730613600000)%Z then (-4 * msPerHour)%Z else (-5 * msPerHour)%Z
  else if (t <? 1730599200000)%Z then (-4 * msPerHour)%Z else (-5 * msPerHour)%Z.

(** A listing published at 04:00 UTC of that day, and 07:30 UTC of that
    day, which is 02:30 in New York. *)
Definition staleListing : JobListing :=
  datedListing "stale" (Some (js "2024-11-03T04:00:00.000Z")).

Definition halfPastTwo : Z := 1730619000000.

(** C6 (the code at a failing input). In New York at 02:30 on the night
    the clocks go back, with a bound of 3 hours: the local hour 2 minus 3
    is set on the local date, which gives 23:30 of the day before, read
    with the offset of daylight saving time: the cutoff is four hours
    before now, not three, and a listing published three and a half hours
    ago is kept. *)
Theorem filterJobsByRecency_keeps_stale_listing
    (Date_parse : jsstring -> option Z) :
  Date_parse (js "2024-11-03T04:00:00.000Z") = Some 1730606400000%Z ->
  publishedAtTime Date_parse staleListing 1730606400000 /\
  (1730606400000 < halfPastTwo - 3 * msPerHour)%Z /\
  setHours newYork halfPastTwo
    (subtractNumber (getHours newYork halfPastTwo) (wholeNumber 3))
  = Some (halfPastTwo - 4 * msPerHour)%Z /\
  In staleListing
     (filterJobsByRecency newYork Date_parse halfPastTwo [staleListing]
        (wholeNumber 3)).
Proof.
  intros Hparse. split; [|split; [|split]].
  - exists (js "2024-11-03T04:00:00.000Z").
    split; [reflexivity|]. split; [discriminate | exact Hparse].
  - reflexivity.
  - reflexivity.
  - unfold filterJobsByRecency. apply filter_In. split; [now left|].
    apply isRecent_spec. right. eexists _, _. split; [|split].
    + exists (js "2024-11-03T04:00:00.000Z").
      split; [reflexivity|]. split; [discriminate | exact Hparse].
    + reflexivity.
    + discriminate.
Qed.

(** A date parser that knows the one string of the example. *)
Definition parseStale (s : jsstring) : option Z :=
  if decide (s = js "2024-11-03T04:00:00.000Z") then Some 1730606400000%Z
  else None.

Lemma filterJobsByRecency_keeps_stale_listing_witness :
  publishedAtTime parseStale staleListing 1730606400000 /\
  (1730606400000 < halfPastTwo - 3 * msPerHour)%Z /\
  setHours newYork halfPastTwo
    (subtractNumber (getHours newYork halfPastTwo) (wholeNumber 3))
  = Some (halfPastTwo - 4 * msPerHour)%Z /\
  In staleListing
     (filterJobsByRecency newYork parseStale halfPastTwo [staleListing]
        (wholeNumber 3)).
Proof.
  apply (filterJobsByRecency_keeps_stale_listing parseStale).
  reflexivity.
Defined.

End ScraperFacts.

(** ** Buffers, hex and UTF-8: properties *)

Module BufFacts.
Import Buf JSFacts.

Local Open Scope N_scope.

Lemma to_N_byteOf (n : N) : n < 256 -> Byte.to_N (byteOf n) = n.
Proof.
  intros Hn. unfold byteOf. rewrite N.mod_small by exact Hn.
  destruct (Byte.of_N n) as [b|] eqn:Hb.
  - now apply Byte.to_of_N.
  - apply Byte.of_N_None_iff in Hb. lia.
Qed.

Lemma byteOf_to_N (b : Byte.byte) : byteOf (Byte.to_N b) = b.
Proof.
  unfold byteOf. pose proof (Byte.to_N_bounded b) as Hb.
  rewrite N.mod_small by lia. now rewrite Byte.of_to_N.
Qed.

Lemma to_N_lt_256 (b : Byte.byte) : Byte.to_N b < 256.
Proof. pose proof (Byte.to_N_bounded b). lia. Qed.

Lemma hexValue_hexDigit (n : N) : n < 16 -> hexValue (hexDigit n) = Some n.
Proof.
  intros Hn. unfold hexValue, hexDigit.
  destruct (N.ltb_spec n 10).
  - replace ((48 <=? 48 + n) && (48 + n <=? 57))%bool with true.
    + f_equal. lia.
    + symmetry. apply andb_true_iff. split; apply N.leb_le; lia.
  - replace ((48 <=? 87 + n) && (87 + n <=? 57))%bool with false.
    + replace ((97 <=? 87 + n) && (87 + n <=? 102))%bool with true.
      * f_equal. lia.
      * symmetry. apply andb_true_iff. split; apply N.leb_le; lia.
    + symmetry. apply andb_false_iff. right. apply N.leb_gt. lia.
Qed.

Lemma hexDigit_not_colon (n : N) : n < 16 -> hexDigit n <> 58.
Proof. unfold hexDigit. destruct (N.ltb_spec n 10); lia. Qed.

(** Decoding undoes encoding. *)
Lemma fromHex_toHex (b : Buffer) : fromHex (toHex b) = b.
Proof.
  induction b as [|x b IH]; [reflexivity|].
  pose proof (to_N_lt_256 x) as Hx.
  cbn [toHex flat_map app fromHex]. fold (toHex b).
  rewrite !hexValue_hexDigit.
  - rewrite IH. f_equal.
    rewrite <- (byteOf_to_N x) at 3. f_equal.
    rewrite (N.div_mod' (Byte.to_N x) 16) at 3. reflexivity.
  - apply N.mod_lt. lia.
  - apply N.Div0.div_lt_upper_bound. lia.
Qed.

Lemma toHex_no_colon (b : Buffer) : ~ In 58 (toHex b).
Proof.
  induction b as [|x b IH]; [intros []|].
  pose proof (to_N_lt_256 x) as Hx.
  cbn [toHex flat_map app]. fold (toHex b).
  intros [H | [H | H]].
  - revert H. apply hexDigit_not_colon, N.Div0.div_lt_upper_bound. lia.
  - revert H. apply hexDigit_not_colon, N.mod_lt. lia.
  - now apply IH.
Qed.

Lemma length_toHex (b : Buffer) : length (toHex b) = (2 * length b)%nat.
Proof.
  induction b as [|x b IH]; [reflexivity|].
  cbn [toHex flat_map app length]. fold (toHex b). rewrite IH. lia.
Qed.

Lemma splitColon_no_colon (s : jsstring) : ~ In 58 s -> splitColon s = [s].
Proof.
  induction s as [|c s IH]; intros Hs; [reflexivity|].
  cbn [splitColon]. destruct (N.eqb_spec c 58) as [->|Hc].
  - exfalso. apply Hs. now left.
  - rewrite IH; [reflexivity|]. intros H. apply Hs. now right.
Qed.

Lemma splitColon_app (a b : jsstring) :
  ~ In 58 a -> ~ In 58 b -> splitColon (a ++ 58 :: b) = [a; b].
Proof.
  intros Ha Hb. induction a as [|c a IH]; cbn [app splitColon].
  - rewrite N.eqb_refl. now rewrite splitColon_no_colon.
  - destruct (N.eqb_spec c 58) as [->|Hc].
    + exfalso. apply Ha. now left.
    + rewrite IH; [reflexivity|]. intros H. apply Ha. now right.
Qed.

(** Arithmetic with quotients and remainders by constants. *)
Ltac lia_div := zify; Z.to_euclidean_division_equations; lia.

(** Turn a boolean comparison goal into the arithmetic it decides. *)
Ltac bool_arith :=
  unfold isContinuation, isHighSurrogate, isLowSurrogate;
  repeat first
    [ rewrite andb_true_iff | rewrite andb_false_iff
    | rewrite orb_true_iff | rewrite orb_false_iff
    | rewrite negb_true_iff | rewrite negb_false_iff
    | rewrite N.leb_le | rewrite N.leb_gt
    | rewrite N.ltb_lt | rewrite N.ltb_ge ];
  lia_div.

(** Decide the test of the outermost conditional on the left. *)
Ltac step_if :=
  match goal with
  | |- (if ?c then _ else _) = _ =>
      let H := fresh "Hc" in
      first [ assert (H : c = true) by bool_arith
            | assert (H : c = false) by bool_arith ];
      rewrite H; clear H; cbv beta iota
  end.

(** Unfold the decoder once on a buffer whose first bytes are known. *)
Ltac open_decoder :=
  match goal with
  | |- utf8Decode (_ :: ?rest) = _ =>
      let r := fresh "rest" in
      let E := fresh "E" in
      remember rest as r eqn:E; cbn [utf8Decode]; subst r;
      cbv beta iota zeta
  end.

Lemma utf8Decode_1 (cp : N) (t : Buffer) :
  cp < 0x80 -> utf8Decode (utf8Bytes cp ++ t) = cp :: utf8Decode t.
Proof.
  intros H. unfold utf8Bytes.
  destruct (N.ltb_spec cp 0x80); [|lia].
  cbn [app]. open_decoder. rewrite !to_N_byteOf by lia.
  step_if. reflexivity.
Qed.

Lemma utf8Decode_2 (cp : N) (t : Buffer) :
  0x80 <= cp < 0x800 -> utf8Decode (utf8Bytes cp ++ t) = cp :: utf8Decode t.
Proof.
  intros H. unfold utf8Bytes.
  destruct (N.ltb_spec cp 0x80); [lia|].
  destruct (N.ltb_spec cp 0x800); [|lia].
  cbn [app]. open_decoder. rewrite !to_N_byteOf by lia_div.
  step_if. step_if. f_equal. lia_div.
Qed.

Lemma utf8Decode_3 (cp : N) (t : Buffer) :
  0x800 <= cp < 0x10000 ->
  isHighSurrogate cp = false -> isLowSurrogate cp = false ->
  utf8Decode (utf8Bytes cp ++ t) = cp :: utf8Decode t.
Proof.
  intros H Hhi Hlo. unfold utf8Bytes.
  destruct (N.ltb_spec cp 0x80); [lia|].
  destruct (N.ltb_spec cp 0x800); [lia|].
  destruct (N.ltb_spec cp 0x10000); [|lia].
  assert (Hns : cp < 0xD800 \/ 0xDFFF < cp).
  { revert Hhi Hlo. unfold isHighSurrogate, isLowSurrogate.
    rewrite !andb_false_iff, !N.leb_gt. lia. }
  clear Hhi Hlo.
  cbn [app]. open_decoder. rewrite !to_N_byteOf by lia_div.
  step_if. step_if. step_if. f_equal. lia_div.
Qed.

Lemma utf8Decode_4 (cp : N) (t : Buffer) :
  0x10000 <= cp <= 0x10FFFF ->
  utf8Decode (utf8Bytes cp ++ t) = codeUnits cp ++ utf8Decode t.
Proof.
  intros H. unfold utf8Bytes.
  destruct (N.ltb_spec cp 0x80); [lia|].
  destruct (N.ltb_spec cp 0x800); [lia|].
  destruct (N.ltb_spec cp 0x10000); [lia|].
  cbn [app]. open_decoder. rewrite !to_N_byteOf by lia_div.
  step_if. step_if. step_if. step_if. do 2 f_equal. lia_div.
Qed.

(** A code unit that is no surrogate is decoded to itself. *)
Lemma utf8Decode_scalar_unit (c : N) (t : Buffer) :
  c < 0x10000 -> isHighSurrogate c = false -> isLowSurrogate c = false ->
  utf8Decode (utf8Bytes c ++ t) = c :: utf8Decode t.
Proof.
  intros Hc Hhi Hlo.
  destruct (N.lt_ge_cases c 0x80); [now apply utf8Decode_1|].
  destruct (N.lt_ge_cases c 0x800); [now apply utf8Decode_2|].
  now apply utf8Decode_3.
Qed.

(** A surrogate pair is decoded to itself. *)
Lemma utf8Decode_pair (c d : N) (t : Buffer) :
  isHighSurrogate c = true -> isLowSurrogate d = true ->
  utf8Decode (utf8Bytes (0x10000 + (c - 0xD800) * 1024 + (d - 0xDC00)) ++ t)
  = c :: d :: utf8Decode t.
Proof.
  unfold isHighSurrogate, isLowSurrogate.
  rewrite !andb_true_iff, !N.leb_le. intros [Hc1 Hc2] [Hd1 Hd2].
  rewrite utf8Decode_4 by lia. unfold codeUnits.
  destruct (N.ltb_spec (0x10000 + (c - 0xD800) * 1024 + (d - 0xDC00)) 0x10000);
    [lia|].
  cbn [app]. f_equal; [|f_equal]; lia_div.
Qed.

(** Decoding undoes encoding on well-formed strings. *)
Lemma utf8Decode_utf8Encode (s : jsstring) :
  isWellFormed s = true -> utf8Decode (utf8Encode s) = s.
Proof.
  remember (length s) as n eqn:Hn. revert s Hn.
  induction n as [n IH] using lt_wf_ind. intros s Hn Hwf.
  destruct s as [|c rest]; [reflexivity|].
  cbn [isWellFormed utf8Encode] in *.
  destruct (isHighSurrogate c) eqn:Hhi.
  - destruct rest as [|d rest']; [discriminate|].
    apply andb_true_iff in Hwf as [Hlo Hwf]. rewrite Hlo.
    rewrite utf8Decode_pair by assumption.
    do 2 f_equal. apply (IH (length rest')); [simpl in Hn; lia | reflexivity | exact Hwf].
  - apply andb_true_iff in Hwf as [Hwf1 Hwf].
    apply andb_true_iff in Hwf1 as [Hlo Hc].
    apply negb_true_iff in Hlo. apply N.ltb_lt in Hc. rewrite Hlo.
    rewrite utf8Decode_scalar_unit by assumption.
    f_equal. apply (IH (length rest)); [simpl in Hn; lia | reflexivity | exact Hwf].
Qed.

End BufFacts.

(** ** Running effectful code *)

Module EffFacts.

Lemma bind_ok {W A B} (m : M W A) (k : A -> M W B) (w w' : W) (a : A) :
  m w = (Ok a, w') -> bind m k w = k a w'.
Proof. intros H. unfold bind. now rewrite H. Qed.

Lemma bind_throw {W A B} (m : M W A) (k : A -> M W B) (w w' : W) e :
  m w = (Throw e, w') -> bind m k w = (Throw e, w').
Proof. intros H. unfold bind. now rewrite H. Qed.

Lemma try_catch_ok {W A} (m : M W A) (h : jsstring -> M W A) (w w' : W) (a : A) :
  m w = (Ok a, w') -> try_catch m h w = (Ok a, w').
Proof. intros H. unfold try_catch. now rewrite H. Qed.

Lemma try_catch_throw {W A} (m : M W A) (h : jsstring -> M W A) (w w' : W) e :
  m w = (Throw e, w') -> try_catch m h w = h e w'.
Proof. intros H. unfold try_catch. now rewrite H. Qed.

End EffFacts.

(** ** The credential vault: properties *)

Module VaultFacts.
Import Portal Buf Vault JSFacts BufFacts EffFacts.

Local Open Scope eff_scope.

(** What a value of the bag has become once stored and read back. *)
Definition roundTripValue (v : Value) : Value :=
  match v with
  | VString [] => VNull
  | VString s => VString (utf8Decode (utf8Encode s))
  | _ => v
  end.

Definition roundTripEntry (e : jsstring * Value) : jsstring * Value :=
  (fst e, roundTripValue (snd e)).

(** The parts of the world that encryption leaves alone. *)
Definition sameStore (w w' : World) : Prop :=
  Credential w' = Credential w /\ nextId w' = nextId w /\ clock w' = clock w.

Lemma ownSet_fresh (o : Obj) (key : jsstring) (v : Value) :
  ~ In key (List.map fst o) -> ownSet o key v = o ++ [(key, v)].
Proof.
  induction o as [|[k old] o IH]; intros Hk; [reflexivity|].
  cbn [ownSet app]. destruct (decide (k = key)) as [->|Hne].
  - exfalso. apply Hk. now left.
  - rewrite IH; [reflexivity|]. intros H. apply Hk. now right.
Qed.

(** A new name other than [__proto__] becomes the last property. *)
Lemma objSet_fresh (o : PlainObject) (key : jsstring) (v : Value) :
  key <> js "__proto__" -> ~ In key (List.map fst (props o)) ->
  objSet o key v
  = {| props := props o ++ [(key, v)]; protoIntact := protoIntact o |}.
Proof.
  intros Hkey Hk. unfold objSet. rewrite decide_False by exact Hkey.
  now rewrite ownSet_fresh.
Qed.

(** On an object that still has its prototype, the name [__proto__] creates
    no property. *)
Lemma objSet_proto (o : PlainObject) (v : Value) :
  protoIntact o = true -> props (objSet o (js "__proto__") v) = props o.
Proof.
  intros Hp. unfold objSet. rewrite decide_True by reflexivity. rewrite Hp.
  now destruct v.
Qed.

Lemma copiedFields_cons_proto (v : Value) (o : Obj) :
  copiedFields ((js "__proto__", v) :: o) = copiedFields o.
Proof.
  unfold copiedFields. cbn [List.filter fst].
  now rewrite bool_decide_eq_true_2.
Qed.

Lemma copiedFields_cons_other (k : jsstring) (v : Value) (o : Obj) :
  k <> js "__proto__" -> copiedFields ((k, v) :: o) = (k, v) :: copiedFields o.
Proof.
  intros Hk. unfold copiedFields. cbn [List.filter fst].
  now rewrite bool_decide_eq_false_2.
Qed.

Lemma copiedFields_In (k : jsstring) (v : Value) (o : Obj) :
  In (k, v) (copiedFields o) <-> In (k, v) o /\ k <> js "__proto__".
Proof.
  unfold copiedFields. rewrite filter_In. cbn [fst].
  rewrite negb_true_iff, bool_decide_eq_false. reflexivity.
Qed.

Lemma copiedFields_no_proto (o : Obj) :
  ~ In (js "__proto__") (List.map fst (copiedFields o)).
Proof.
  intros Hin. apply in_map_iff in Hin as ([k v] & Hk & Hin).
  apply copiedFields_In in Hin as [_ Hne]. now apply Hne.
Qed.

Lemma copiedFields_wfObj (o : Obj) : wfObj o -> wfObj (copiedFields o).
Proof.
  unfold wfObj. induction o as [|[k v] o IH]; intros Hnd; [constructor|].
  cbn [List.map fst] in Hnd. apply NoDup_cons in Hnd as [Hk Hnd].
  destruct (decide (k = js "__proto__")) as [->|Hne].
  - rewrite copiedFields_cons_proto. now apply IH.
  - rewrite copiedFields_cons_other by exact Hne. cbn [List.map fst].
    apply NoDup_cons. split; [|now apply IH].
    intros Hin. apply Hk. apply list_elem_of_In. apply list_elem_of_In in Hin.
    apply in_map_iff in Hin as ([k' v'] & Hk' & Hin). cbn [fst] in Hk'. subst k'.
    apply copiedFields_In in Hin as [Hin _].
    change k with (fst (k, v')). now apply in_map.
Qed.

(** A bag without a field named [__proto__] is copied whole. *)
Lemma copiedFields_all (o : Obj) :
  ~ In (js "__proto__") (List.map fst o) -> copiedFields o = o.
Proof.
  induction o as [|[k v] o IH]; intros Hk; [reflexivity|].
  rewrite copiedFields_cons_other.
  - f_equal. apply IH. intros H. apply Hk. now right.
  - intros ->. apply Hk. now left.
Qed.

Lemma objGet_In (o : Obj) (key : jsstring) (v : Value) :
  wfObj o -> In (key, v) o -> objGet o key = Some v.
Proof.
  unfold wfObj. induction o as [|[k x] o IH]; intros Hnd Hin; [destruct Hin|].
  cbn [List.map fst] in Hnd. apply NoDup_cons in Hnd as [Hk Hnd].
  cbn [objGet]. destruct Hin as [Heq | Hin].
  - injection Heq as -> ->. now rewrite decide_True.
  - destruct (decide (k = key)) as [->|Hne]; [|now apply IH].
    exfalso. apply Hk. apply list_elem_of_In.
    change key with (fst (key, v)). now apply in_map.
Qed.

Lemma new_CredentialManager_key (ek envk : option jsstring) cm :
  new_CredentialManager ek envk = Ok cm ->
  length (fromHex (encryptionKey cm)) = 32%nat.
Proof.
  unfold new_CredentialManager.
  destruct (if truthy ek then ek else envk) as [[|c k]|]; try discriminate.
  destruct (Nat.eqb_spec (length (fromHex (c :: k))) 32); [|discriminate].
  now intros [= <-].
Qed.

Section WithCrypto.

Variable aes256cbc_encrypt : Buffer -> Buffer -> Buffer -> Buffer.
Variable aes256cbc_decrypt : Buffer -> Buffer -> Buffer -> option Buffer.

(** Decryption under the key and initialization vector of the encryption
    gives the message back. *)
Hypothesis aes256cbc_decrypt_encrypt :
  forall key iv message,
    length key = 32%nat -> length iv = 16%nat ->
    aes256cbc_decrypt key iv (aes256cbc_encrypt key iv message) = Some message.

Variable cm : CredentialManager.
Hypothesis cm_key : length (fromHex (encryptionKey cm)) = 32%nat.

Local Abbreviation key := (fromHex (encryptionKey cm)).

(** The stored form [v'] of a value [v] of the bag. *)
Definition storedAs (v v' : Value) : Prop :=
  match v with
  | VString [] => v' = VNull
  | VString s =>
      exists iv, length iv = 16%nat /\
        v' = VString (toHex iv ++ js ":" ++
                      toHex (aes256cbc_encrypt key iv (utf8Encode s)))
  | _ => v' = v
  end.

Lemma encrypt_storedAs (s : jsstring) (w : World) :
  exists v' w',
    encrypt aes256cbc_encrypt cm s w = (Ok v', w') /\
    storedAs (VString s) v' /\ sameStore w w'.
Proof using cm_key.
  destruct s as [|c s].
  - exists VNull, w. repeat split.
  - eexists _, _. split; [|split].
    + unfold encrypt. apply try_catch_ok.
      unfold bind, randomBytes, createCipheriv.
      rewrite cm_key, length_map, length_seq. cbn [Nat.eqb]. reflexivity.
    + cbn [storedAs]. eexists. split; [|reflexivity].
      now rewrite length_map, length_seq.
    + repeat split.
Qed.

Lemma decrypt_encrypted (iv message : Buffer) (w : World) :
  length iv = 16%nat ->
  decrypt aes256cbc_decrypt cm
    (toHex iv ++ js ":" ++ toHex (aes256cbc_encrypt key iv message)) w
  = (Ok (VString (utf8Decode message)), w).
Proof using cm_key aes256cbc_decrypt_encrypt.
  intros Hiv. unfold decrypt.
  destruct (toHex iv ++ js ":" ++ _) as [|c data] eqn:E.
  { apply app_eq_nil in E as [_ E]. discriminate E. }
  rewrite <- E. apply try_catch_ok.
  change (js ":" ++ ?x) with (58%N :: x).
  rewrite splitColon_app by apply toHex_no_colon.
  rewrite !fromHex_toHex. unfold bind, createDecipheriv, createCipheriv.
  rewrite cm_key, Hiv. cbn [Nat.eqb ret].
  now rewrite aes256cbc_decrypt_encrypt.
Qed.

(** The loop of [storeCredentials]: the copied fields are appended in
    their order, each in its stored form. *)
Lemma encryptFields_spec (entries : Obj) :
  forall acc w,
    NoDup (List.map fst (props acc ++ entries)) ->
    protoIntact acc = true \/ ~ In (js "__proto__") (List.map fst entries) ->
    exists acc' out w',
      encryptFields aes256cbc_encrypt cm entries acc w = (Ok acc', w') /\
      props acc' = props acc ++ out /\
      Forall2 (fun e e' => fst e' = fst e /\ storedAs (snd e) (snd e'))
              (copiedFields entries) out /\
      sameStore w w'.
Proof using cm_key.
  induction entries as [|[k v] rest IH]; intros acc w Hnd Hproto.
  - exists acc, [], w. rewrite app_nil_r. repeat split. constructor.
  - assert (Hk : ~ In k (List.map fst (props acc))).
    { rewrite map_app in Hnd. apply NoDup_app in Hnd as (_ & Hdisj & _).
      intros Hin. apply (Hdisj k); apply list_elem_of_In; [exact Hin | now left]. }
    assert (Hrest : ~ In k (List.map fst rest)).
    { rewrite map_app in Hnd. apply NoDup_app in Hnd as (_ & _ & Hnd).
      cbn [List.map fst] in Hnd. apply NoDup_cons in Hnd as [Hnd _].
      intros Hin. apply Hnd. now apply list_elem_of_In. }
    assert (Hnd' : forall x, NoDup (List.map fst ((props acc ++ [(k, x)]) ++ rest))).
    { intros x. rewrite <- app_assoc. cbn [app].
      rewrite !map_app in *. exact Hnd. }
    assert (Hstep : forall v' w1,
      storedAs v v' -> sameStore w w1 ->
      exists acc' out w',
        encryptFields aes256cbc_encrypt cm rest (objSet acc k v') w1
        = (Ok acc', w') /\
        props acc' = props acc ++ out /\
        Forall2 (fun e e' => fst e' = fst e /\ storedAs (snd e) (snd e'))
                (copiedFields ((k, v) :: rest)) out /\
        sameStore w w').
    { intros v' w1 Hv (Hs1 & Hs2 & Hs3).
      destruct (decide (k = js "__proto__")) as [->|Hne].
      - destruct Hproto as [Hp | Hp]; [|exfalso; apply Hp; now left].
        destruct (IH (objSet acc (js "__proto__") v') w1)
          as (acc' & out & w' & Hrun & Hprops & Hall & Hs).
        + rewrite objSet_proto by exact Hp.
          rewrite map_app in *. apply NoDup_app in Hnd as (Ha & Hd & Hr).
          cbn [List.map fst] in Hr. apply NoDup_cons in Hr as [_ Hr].
          apply NoDup_app. split; [exact Ha|]. split; [|exact Hr].
          intros x Hx Hx'. apply (Hd x Hx). now right.
        + now right.
        + exists acc', out, w'. rewrite copiedFields_cons_proto.
          rewrite objSet_proto in Hprops by exact Hp.
          repeat split; try assumption; destruct Hs as (Ht1 & Ht2 & Ht3);
            congruence.
      - rewrite objSet_fresh by assumption.
        destruct (IH {| props := props acc ++ [(k, v')];
                        protoIntact := protoIntact acc |} w1 (Hnd' v'))
          as (acc' & out & w' & Hrun & Hprops & Hall & Hs).
        { cbn [protoIntact]. destruct Hproto as [Hp | Hp]; [now left|].
          right. intros Hin. apply Hp. now right. }
        cbn [props] in Hprops.
        exists acc', ((k, v') :: out), w'. split; [exact Hrun|]. split; [|split].
        + now rewrite Hprops, <- app_assoc.
        + rewrite copiedFields_cons_other by exact Hne.
          constructor; [now split | exact Hall].
        + destruct Hs as (Ht1 & Ht2 & Ht3). repeat split; congruence. }
    cbn [encryptFields]. destruct v as [s|z|b|].
    + destruct (encrypt_storedAs s w) as (v' & w1 & Henc & Hv & Hs).
      rewrite (bind_ok _ _ _ _ _ Henc). now apply Hstep.
    + apply Hstep; [reflexivity | repeat split].
    + apply Hstep; [reflexivity | repeat split].
    + apply Hstep; [reflexivity | repeat split].
Qed.

Lemma includes_colon (a b : jsstring) : includes (a ++ js ":" ++ b) (js ":") = true.
Proof. apply includes_spec. now exists a, b. Qed.

(** The loop of [getCredentials] over the stored form of [entries], none
    of them named [__proto__]. *)
Lemma decryptFields_spec (entries stored : Obj) :
  Forall2 (fun e e' => fst e' = fst e /\ storedAs (snd e) (snd e'))
          entries stored ->
  forall acc w,
    NoDup (List.map fst (props acc ++ entries)) ->
    ~ In (js "__proto__") (List.map fst entries) ->
    decryptFields aes256cbc_decrypt cm stored acc w
    = (Ok {| props := props acc ++ List.map roundTripEntry entries;
             protoIntact := protoIntact acc |}, w).
Proof using cm_key aes256cbc_decrypt_encrypt.
  induction 1 as [|[k v] [k' v'] entries stored [Hk Hv] Hall IH];
    intros acc w Hnd Hproto.
  - cbn. rewrite app_nil_r. now destruct acc.
  - cbn [fst snd] in Hk, Hv. subst k'.
    assert (Hfresh : ~ In k (List.map fst (props acc))).
    { rewrite map_app in Hnd. apply NoDup_app in Hnd as (_ & Hdisj & _).
      intros Hin. apply (Hdisj k); apply list_elem_of_In; [exact Hin | now left]. }
    assert (Hne : k <> js "__proto__").
    { intros ->. apply Hproto. now left. }
    assert (Hstep : forall x w1,
      decryptFields aes256cbc_decrypt cm stored (objSet acc k x) w1
      = (Ok {| props := props acc ++ (k, x) :: List.map roundTripEntry entries;
               protoIntact := protoIntact acc |}, w1)).
    { intros x w1. rewrite objSet_fresh by assumption.
      rewrite IH; cbn [props protoIntact].
      - now rewrite <- app_assoc.
      - rewrite <- app_assoc. cbn [app]. rewrite !map_app in *. exact Hnd.
      - intros Hin. apply Hproto. now right. }
    cbn [decryptFields List.map]. unfold roundTripEntry at 1. cbn [fst snd].
    destruct v as [[|c s]|z|b|]; cbn [storedAs] in Hv.
    + subst v'. apply Hstep.
    + destruct Hv as (iv & Hiv & ->).
      rewrite includes_colon.
      rewrite (bind_ok _ _ _ _ _ (decrypt_encrypted iv _ w Hiv)).
      apply Hstep.
    + subst v'. apply Hstep.
    + subst v'. apply Hstep.
    + subst v'. apply Hstep.
Qed.

(** After [save], the first document of the pair is the saved one. *)
Lemma find_after_save (P : CredentialDoc -> bool) (coll : list CredentialDoc)
    (found doc : CredentialDoc) :
  List.find P coll = Some found -> P doc = true -> _id doc = _id found ->
  List.find P
    (List.map (fun d => if decide (_id d = _id doc) then doc else d) coll)
  = Some doc.
Proof.
  intros Hfind Hdoc Hid. induction coll as [|d coll IH]; [discriminate|].
  cbn [List.find List.map] in *.
  destruct (decide (_id d = _id doc)) as [Heq|Hne].
  - now rewrite Hdoc.
  - destruct (P d) eqn:HP.
    + injection Hfind as ->. congruence.
    + now apply IH.
Qed.

(** After [create], the first document of the pair is the created one. *)
Lemma find_after_create (P : CredentialDoc -> bool) (coll : list CredentialDoc)
    (doc : CredentialDoc) :
  List.find P coll = None -> P doc = true ->
  List.find P (coll ++ [doc]) = Some doc.
Proof.
  intros Hfind Hdoc. induction coll as [|d coll IH]; cbn [List.find app] in *.
  - now rewrite Hdoc.
  - destruct (P d); [discriminate | now apply IH].
Qed.

(** Reading back what was stored: every value has gone through
    [roundTripValue]. *)
Lemma getCredentials_after_storeCredentials
    (userId : jsstring) (p : PortalName) (bag : Obj) (w : World) :
  wfObj bag ->
  returns (result (storeCredentials aes256cbc_encrypt cm userId p bag) w) /\
  result (getCredentials aes256cbc_decrypt cm userId p)
         (world_after (storeCredentials aes256cbc_encrypt cm userId p bag) w)
  = Ok (Some (List.map roundTripEntry (copiedFields bag))).
Proof using cm_key aes256cbc_decrypt_encrypt.
  intros Hwf.
  destruct (encryptFields_spec bag emptyObject w Hwf (or_introl eq_refl))
    as (enc & stored & w1 & Henc & Hprops & Hall & Hsame).
  cbn [app props emptyObject] in Hprops. destruct Hsame as (Hcoll & _ & _).
  set (P := fun d : CredentialDoc => bool_decide (user d = userId /\ portal d = p)).
  assert (Hget : forall w2 doc,
    List.find P (Credential w2) = Some doc -> credentials doc = stored ->
    getCredentials aes256cbc_decrypt cm userId p w2
    = (Ok (Some (List.map roundTripEntry (copiedFields bag))), w2)).
  { intros w2 doc Hfind Hcreds. unfold getCredentials. apply try_catch_ok.
    unfold bind at 1. unfold findOne. fold P. rewrite Hfind.
    rewrite Hcreds.
    rewrite (bind_ok _ _ _ _ _
               (decryptFields_spec (copiedFields bag) stored Hall emptyObject w2
                  (copiedFields_wfObj bag Hwf) (copiedFields_no_proto bag))).
    reflexivity. }
  unfold result, world_after, storeCredentials.
  destruct (List.find P (Credential w1)) as [found|] eqn:Hfind.
  - erewrite try_catch_ok.
    2:{ rewrite (bind_ok _ _ _ _ _ Henc). unfold bind at 1. unfold findOne.
        fold P. rewrite Hfind. unfold bind, newDate, save, modify, ret.
        reflexivity. }
    cbn [fst snd]. split; [eexists; reflexivity|].
    erewrite Hget; [reflexivity|..].
    + cbn [Credential].
      apply (find_after_save P _ found); [exact Hfind| |reflexivity].
      apply find_some in Hfind as [_ Hfound]. exact Hfound.
    + exact Hprops.
  - erewrite try_catch_ok.
    2:{ rewrite (bind_ok _ _ _ _ _ Henc). unfold bind at 1. unfold findOne.
        fold P. rewrite Hfind. unfold create. reflexivity. }
    cbn [fst snd]. split; [eexists; reflexivity|].
    erewrite Hget; [reflexivity|..].
    + cbn [Credential]. apply find_after_create; [exact Hfind|].
      unfold P. cbn [user portal]. apply bool_decide_eq_true_2. now split.
    + exact Hprops.
Qed.

End WithCrypto.

(** A bag whose values are all non-empty, well-formed strings. *)
Definition nonEmptyStrings (bag : Obj) : Prop :=
  forall k v, In (k, v) bag ->
    exists s, v = VString s /\ s <> [] /\ isWellFormed s = true.

(** A bag whose values are all strings. *)
Definition stringValued (bag : Obj) : Prop :=
  forall k v, In (k, v) bag -> exists s, v = VString s.

(** A bag none of whose fields is named [__proto__]. *)
Definition ordinaryNames (bag : Obj) : Prop :=
  ~ In (js "__proto__") (List.map fst bag).

(** C1 (as amended). For every user, portal and secret bag whose fields
    are non-empty well-formed strings, none of them named [__proto__], and
    every cipher whose decryption inverts its encryption, [getCredentials]
    after [storeCredentials] returns a bag equal to the original. *)
Theorem getCredentials_storeCredentials_roundtrip
    (enc : Buffer -> Buffer -> Buffer -> Buffer)
    (dec : Buffer -> Buffer -> Buffer -> option Buffer)
    (ek envk : option jsstring) (cm : CredentialManager)
    (userId : jsstring) (p : PortalName) (bag : Obj) (w : World) :
  (forall key iv message,
      length key = 32%nat -> length iv = 16%nat ->
      dec key iv (enc key iv message) = Some message) ->
  new_CredentialManager ek envk = Ok cm ->
  wfObj bag -> nonEmptyStrings bag -> ordinaryNames bag ->
  roundTrips enc dec cm userId p bag w.
Proof.
  intros Hdec Hcm Hwf Hbag Hnames.
  apply new_CredentialManager_key in Hcm.
  destruct (getCredentials_after_storeCredentials enc dec Hdec cm Hcm
              userId p bag w Hwf) as [Hstore Hget].
  split; [exact Hstore|]. rewrite Hget. do 2 f_equal.
  rewrite (copiedFields_all bag Hnames).
  clear Hget Hstore Hwf Hnames. induction bag as [|[k v] bag IH]; [reflexivity|].
  cbn [List.map]. f_equal.
  - destruct (Hbag k v (or_introl eq_refl)) as (s & -> & Hne & Hs).
    unfold roundTripEntry. cbn [fst snd roundTripValue].
    destruct s as [|c s]; [congruence|].
    now rewrite utf8Decode_utf8Encode.
  - apply IH. intros k' v' Hin. apply (Hbag k' v'). now right.
Qed.

(** C10 (as amended). For every secret bag with a field, not named
    [__proto__], whose value is the empty string, [encrypt] returns null
    for that value, the stored document holds null for the field, and a
    later [getCredentials] returns the field as null, not as the empty
    string. *)
Theorem empty_string_field_comes_back_null
    (enc : Buffer -> Buffer -> Buffer -> Buffer)
    (dec : Buffer -> Buffer -> Buffer -> option Buffer)
    (ek envk : option jsstring) (cm : CredentialManager)
    (userId : jsstring) (p : PortalName) (bag : Obj) (k : jsstring)
    (w : World) :
  (forall key iv message,
      length key = 32%nat -> length iv = 16%nat ->
      dec key iv (enc key iv message) = Some message) ->
  new_CredentialManager ek envk = Ok cm ->
  wfObj bag -> In (k, VString []) bag -> k <> js "__proto__" ->
  encrypt enc cm [] w = (Ok VNull, w) /\
  (exists doc,
      result (storeCredentials enc cm userId p bag) w = Ok doc /\
      objGet (credentials doc) k = Some VNull) /\
  (exists out,
      result (getCredentials dec cm userId p)
             (world_after (storeCredentials enc cm userId p bag) w)
      = Ok (Some out) /\
      objGet out k = Some VNull /\ objGet out k <> Some (VString [])).
Proof.
  intros Hdec Hcm Hwf Hin Hk. split; [reflexivity|].
  apply new_CredentialManager_key in Hcm.
  assert (Hcopied : In (k, VString []) (copiedFields bag)).
  { apply copiedFields_In. now split. }
  pose proof (copiedFields_wfObj bag Hwf) as Hwfc.
  split.
  - destruct (encryptFields_spec enc cm Hcm bag emptyObject w Hwf
                (or_introl eq_refl))
      as (acc & stored & w1 & Henc & Hprops & Hall & Hsame).
    cbn [app props emptyObject] in Hprops.
    assert (Hstored : objGet (props acc) k = Some VNull).
    { rewrite Hprops. apply objGet_In.
      - unfold wfObj in *.
        replace (List.map fst stored)
          with (List.map fst (copiedFields bag)); [exact Hwfc|].
        clear -Hall. induction Hall as [|e e' ? ? [He _] _ IH]; [reflexivity|].
        cbn [List.map]. now rewrite IH, He.
      - clear -Hall Hcopied. induction Hall as [|e e' ? ? [He Hv] _ IH];
          [destruct Hcopied|].
        destruct Hcopied as [-> | Hin]; [|right; now apply IH].
        left. destruct e' as [k' v']. cbn [fst snd storedAs] in *. congruence. }
    unfold result, storeCredentials.
    destruct (List.find (fun d => bool_decide (user d = userId /\ portal d = p))
                        (Credential w1)) as [found|] eqn:Hfind.
    + erewrite try_catch_ok.
      2:{ rewrite (bind_ok _ _ _ _ _ Henc). unfold bind at 1. unfold findOne.
          rewrite Hfind. unfold bind, newDate, save, modify, ret. reflexivity. }
      eexists. split; [reflexivity | exact Hstored].
    + erewrite try_catch_ok.
      2:{ rewrite (bind_ok _ _ _ _ _ Henc). unfold bind at 1. unfold findOne.
          rewrite Hfind. unfold create. reflexivity. }
      eexists. split; [reflexivity | exact Hstored].
  - destruct (getCredentials_after_storeCredentials enc dec Hdec cm Hcm
                userId p bag w Hwf) as [_ Hget].
    exists (List.map roundTripEntry (copiedFields bag)). split; [exact Hget|].
    assert (Hout : objGet (List.map roundTripEntry (copiedFields bag)) k
                   = Some VNull).
    { apply objGet_In.
      - unfold wfObj in *. rewrite List.map_map.
        erewrite map_ext; [exact Hwfc|]. now intros [k' v'].
      - change (k, VNull) with (roundTripEntry (k, VString [])).
        now apply in_map. }
    split; [exact Hout|]. rewrite Hout. discriminate.
Qed.

(** A concrete vault for runs: a 32-byte key, an empty collection, and a
    tape of random bytes. *)
Definition hexKey : jsstring :=
  js "00112233445566778899aabbccddeeff00112233445566778899AABBCCDDEEFF".

Definition cm0 : CredentialManager := {| encryptionKey := hexKey |}.

Definition w0 : World :=
  {| entropy := fun i => byteOf (N.of_nat (7 * i + 3));
     cursor := 0; clock := 1700000000000;
     Credential := []; nextId := 0 |}.

Definition loginBag : Obj :=
  [(js "email", VString (js "ana@example.org"));
   (js "password", VString [0x70; 0x3A; 0xE9; 0x20AC; 0xD83D; 0xDE00]%N)].

Definition blankPasswordBag : Obj :=
  [(js "email", VString (js "ana@example.org"));
   (js "password", VString [])].

Lemma mirror_decrypt_encrypt (key iv message : Buffer) :
  length key = 32%nat -> length iv = 16%nat ->
  mirror_decrypt key iv (mirror_encrypt key iv message) = Some message.
Proof.
  intros _ _. unfold mirror_decrypt, mirror_encrypt.
  now rewrite rev_involutive.
Qed.

Lemma wfObj_loginBag : wfObj loginBag.
Proof. unfold wfObj. apply (bool_decide_unpack _). vm_compute. exact I. Qed.

Lemma wfObj_blankPasswordBag : wfObj blankPasswordBag.
Proof. unfold wfObj. apply (bool_decide_unpack _). vm_compute. exact I. Qed.

Lemma getCredentials_storeCredentials_roundtrip_witness :
  roundTrips mirror_encrypt mirror_decrypt cm0 (js "u1") p_linkedin loginBag w0.
Proof.
  apply (getCredentials_storeCredentials_roundtrip
           mirror_encrypt mirror_decrypt (Some hexKey) None).
  - exact mirror_decrypt_encrypt.
  - reflexivity.
  - exact wfObj_loginBag.
  - intros k v [H | [H | []]]; injection H as <- <-; eexists;
      (split; [reflexivity | split; [discriminate | reflexivity]]).
  - intros [H | [H | []]]; discriminate H.
Defined.

Definition loneSurrogateBag : Obj :=
  [(js "password", VString [0x70; 0xD83D]%N)].

Definition protoNamedBag : Obj :=
  [(js "__proto__", VString (js "x")); (js "a", VString (js "x"))].

(** C1 (as stated) fails: a bag whose password is the empty string is
    string-valued, yet what [getCredentials] returns after
    [storeCredentials] holds null for the password; a password that ends
    in an unpaired surrogate comes back with U+FFFD in its place; and a
    field named [__proto__] does not come back at all. *)
Lemma roundtrip_empty_string_counterexample :
  (stringValued protoNamedBag /\
   wfObj protoNamedBag /\
   result (getCredentials mirror_decrypt cm0 (js "u1") p_linkedin)
          (world_after
             (storeCredentials mirror_encrypt cm0 (js "u1") p_linkedin
                               protoNamedBag) w0)
   = Ok (Some [(js "a", VString (js "x"))]) /\
   ~ roundTrips mirror_encrypt mirror_decrypt cm0 (js "u1") p_linkedin
       protoNamedBag w0) /\
  (stringValued blankPasswordBag /\
   wfObj blankPasswordBag /\
   new_CredentialManager (Some hexKey) None = Ok cm0 /\
   result (getCredentials mirror_decrypt cm0 (js "u1") p_linkedin)
          (world_after
             (storeCredentials mirror_encrypt cm0 (js "u1") p_linkedin
                               blankPasswordBag) w0)
   = Ok (Some [(js "email", VString (js "ana@example.org"));
               (js "password", VNull)]) /\
   ~ roundTrips mirror_encrypt mirror_decrypt cm0 (js "u1") p_linkedin
       blankPasswordBag w0) /\
  (stringValued loneSurrogateBag /\
   wfObj loneSurrogateBag /\
   result (getCredentials mirror_decrypt cm0 (js "u1") p_linkedin)
          (world_after
             (storeCredentials mirror_encrypt cm0 (js "u1") p_linkedin
                               loneSurrogateBag) w0)
   = Ok (Some [(js "password", VString [0x70; 0xFFFD]%N)]) /\
   ~ roundTrips mirror_encrypt mirror_decrypt cm0 (js "u1") p_linkedin
       loneSurrogateBag w0).
Proof.
  split; [|split].
  - split; [|split; [|split]].
    + intros k v [H | [H | []]]; injection H as <- <-; eexists; reflexivity.
    + unfold wfObj. apply (bool_decide_unpack _). vm_compute. exact I.
    + vm_compute. reflexivity.
    + intros [_ H]. vm_compute in H. discriminate H.
  - split; [|split; [|split; [|split]]].
    + intros k v [H | [H | []]]; injection H as <- <-; eexists; reflexivity.
    + exact wfObj_blankPasswordBag.
    + reflexivity.
    + vm_compute. reflexivity.
    + intros [_ H]. vm_compute in H. discriminate H.
  - split; [|split; [|split]].
    + intros k v [H | []]; injection H as <- <-; eexists; reflexivity.
    + unfold wfObj. apply (bool_decide_unpack _). vm_compute. exact I.
    + vm_compute. reflexivity.
    + intros [_ H]. vm_compute in H. discriminate H.
Qed.

Lemma empty_string_field_comes_back_null_witness :
  (exists doc,
      result (storeCredentials mirror_encrypt cm0 (js "u1") p_linkedin
                               blankPasswordBag) w0 = Ok doc /\
      objGet (credentials doc) (js "password") = Some VNull) /\
  (exists out,
      result (getCredentials mirror_decrypt cm0 (js "u1") p_linkedin)
             (world_after
                (storeCredentials mirror_encrypt cm0 (js "u1") p_linkedin
                                  blankPasswordBag) w0)
      = Ok (Some out) /\
      objGet out (js "password") = Some VNull /\
      objGet out (js "password") <> Some (VString [])).
Proof.
  apply (empty_string_field_comes_back_null
           mirror_encrypt mirror_decrypt (Some hexKey) None cm0
           (js "u1") p_linkedin blankPasswordBag (js "password") w0).
  - exact mirror_decrypt_encrypt.
  - reflexivity.
  - exact wfObj_blankPasswordBag.
  - right. left. reflexivity.
  - discriminate.
Defined.

Definition protoBlankBag : Obj :=
  [(js "email", VString (js "ana@example.org")); (js "__proto__", VString [])].

(** C10 (as stated) fails: in a bag with a field named [__proto__] that
    holds the empty string, [encrypt] returns null for the value, but the
    assignment of null under that name creates no property: the stored
    document has no such field, and neither has what [getCredentials]
    returns. *)
Lemma empty_string_proto_field_counterexample :
  wfObj protoBlankBag /\
  In (js "__proto__", VString []) protoBlankBag /\
  encrypt mirror_encrypt cm0 [] w0 = (Ok VNull, w0) /\
  (exists doc,
      result (storeCredentials mirror_encrypt cm0 (js "u1") p_linkedin
                               protoBlankBag) w0 = Ok doc /\
      List.map fst (credentials doc) = [js "email"] /\
      objGet (credentials doc) (js "__proto__") = None /\
      objGet (credentials doc) (js "__proto__") <> Some VNull) /\
  (exists out,
      result (getCredentials mirror_decrypt cm0 (js "u1") p_linkedin)
             (world_after
                (storeCredentials mirror_encrypt cm0 (js "u1") p_linkedin
                                  protoBlankBag) w0)
      = Ok (Some out) /\
      out = [(js "email", VString (js "ana@example.org"))] /\
      objGet out (js "__proto__") <> Some VNull).
Proof.
  split; [|split; [|split; [|split]]].
  - unfold wfObj. apply (bool_decide_unpack _). vm_compute. exact I.
  - right. now left.
  - reflexivity.
  - eexists. split; [vm_compute; reflexivity|]. split; [reflexivity|].
    split; [reflexivity | discriminate].
  - eexists. split; [vm_compute; reflexivity|]. split; [reflexivity|].
    discriminate.
Qed.

End VaultFacts.

(** ** The entry point of the adapters: properties *)

Module ApplicantFacts.
Import Portal Applicant EffFacts.

(** The result built in the [catch] block of [applyToJob]. *)
Definition caught (session : Session) (job : Scraper.JobListing)
    (message : jsstring) : ApplicationResult :=
  {| success := false;
     jobId := Scraper.id job;
     company := Some (Scraper.name (Scraper.company job));
     title := Some (Scraper.title job);
     applicationUrl := Some (Scraper.applicationUrl job);
     error := Some message;
     timestamp := Some (now session);
     applicationId := None |}.

(** The result built by an adapter that ran to its end. *)
Definition reported (session : Session) (job : Scraper.JobListing)
    (marker : bool) : ApplicationResult :=
  {| success := marker;
     jobId := Scraper.id job;
     company := Some (Scraper.name (Scraper.company job));
     title := Some (Scraper.title job);
     applicationUrl := Some (Scraper.applicationUrl job);
     error := None;
     timestamp := Some (now session);
     applicationId := None |}.

(** The result returned when no browser could be started. *)
Definition notInitialized (job : Scraper.JobListing) : ApplicationResult :=
  {| success := false;
     jobId := Scraper.id job;
     company := None; title := None; applicationUrl := None;
     error := Some (js "Failed to initialize browser");
     timestamp := None; applicationId := None |}.

(** What the selected adapter makes of the job. *)
Definition adapterOutcome (session : Session) (job : Scraper.JobListing)
  : Exc bool :=
  drive session (detectApplicationSystem (Scraper.applicationUrl job)) job.

Lemma applyToJob_body_run (session : Session) (job : Scraper.JobListing)
    (a : Applicant) :
  applyToJob_body session job a =
  let r := match adapterOutcome session job with
           | Ok marker => reported session job marker
           | Throw e => caught session job e
           end in
  (Ok r, {| browser := browser a;
            applicationResults := applicationResults a ++ [r] |}).
Proof.
  unfold applyToJob_body, adapterOutcome, applyViaWorkday, applyViaGreenhouse,
    applyViaLever, applyViaIndeed, applyViaLinkedIn, applyViaGenericForm,
    applyVia, try_catch, bind, pushResult, modify, ret, throw.
  destruct (detectApplicationSystem (Scraper.applicationUrl job));
    destruct (drive session _ job); reflexivity.
Qed.

(** Every call of [applyToJob] returns, in one of two ways. *)
Lemma applyToJob_run (session : Session) (job : Scraper.JobListing)
    (a : Applicant) :
  (~ reachesAdapter session a /\
   exists a', applyToJob session job a = (Ok (notInitialized job), a') /\
              applicationResults a' = applicationResults a) \/
  (reachesAdapter session a /\
   exists r a', applyToJob session job a = (Ok r, a') /\
                applicationResults a' = applicationResults a ++ [r] /\
                r = match adapterOutcome session job with
                    | Ok marker => reported session job marker
                    | Throw e => caught session job e
                    end).
Proof.
  unfold applyToJob, reachesAdapter, bind, get. cbv beta iota.
  destruct (browser a) eqn:Hb; cbn [negb]; cbv beta iota.
  - right. split; [now left|]. rewrite applyToJob_body_run.
    eexists _, _. split; [reflexivity|]. split; reflexivity.
  - unfold initialize, bind, modify, ret.
    destruct (launch session) eqn:Hl; cbn [negb]; cbv beta iota.
    + left. split; [intros [?|?]; discriminate|].
      eexists. split; reflexivity.
    + left. split; [intros [?|?]; discriminate|].
      eexists. split; reflexivity.
    + right. split; [now right|]. rewrite applyToJob_body_run.
      eexists _, _. split; [reflexivity|]. split; reflexivity.
Qed.

(** C8. For every job, [applyToJob] lets no exception escape; an
    exception thrown by the selected adapter is caught and returned as a
    failed result whose [error] is the exception's message, and that
    result is recorded in [applicationResults]. *)
Theorem applyToJob_never_throws (session : Session)
    (job : Scraper.JobListing) (a : Applicant) :
  (exists r a', applyToJob session job a = (Ok r, a')) /\
  (forall message,
      reachesAdapter session a ->
      adapterOutcome session job = Throw message ->
      exists r a',
        applyToJob session job a = (Ok r, a') /\
        success r = false /\ error r = Some message /\
        jobId r = Scraper.id job /\
        applicationResults a' = applicationResults a ++ [r]).
Proof.
  destruct (applyToJob_run session job a)
    as [[Hno (a' & Hrun & Hres)] | [Hyes (r & a' & Hrun & Hres & Hr)]].
  - split; [eexists _, _; exact Hrun|]. intros message Hreach. contradiction.
  - split; [eexists _, _; exact Hrun|]. intros message _ Hthrow.
    exists r, a'. rewrite Hthrow in Hr. subst r. now repeat split.
Qed.

Definition timeoutSession : Session :=
  {| launch := ready;
     drive := fun _ _ => Throw (js "Navigation timeout of 30000 ms exceeded");
     closeBrowser := Ok tt;
     now := 1700000000000 |}.

Definition workdayJob : Scraper.JobListing :=
  {| Scraper.id := js "job-17"; Scraper.title := js "Data Engineer";
     Scraper.company :=
       {| Scraper.name := js "Acme"; Scraper.logo := None;
          Scraper.website := None |};
     Scraper.location := js "Remote";
     Scraper.applicationUrl := js "https://acme.myworkdayjobs.com/careers/17";
     Scraper.publishedAt := None; Scraper.isRemote := true |}.

Lemma applyToJob_never_throws_witness :
  exists r a',
    applyToJob timeoutSession workdayJob new_AutomatedJobApplicant = (Ok r, a') /\
    success r = false /\
    error r = Some (js "Navigation timeout of 30000 ms exceeded") /\
    jobId r = js "job-17" /\
    applicationResults a' = [r].
Proof.
  apply (proj2 (applyToJob_never_throws timeoutSession workdayJob
                  new_AutomatedJobApplicant)).
  - right. reflexivity.
  - reflexivity.
Defined.

End ApplicantFacts.

(** ** The batch orchestrator: properties *)

Module AutoApplyFacts.
Import Portal Applicant AutoApply EffFacts ApplicantFacts.

(** The batch object once [rs] has been appended to its results and its
    progress set to [p]. *)
Definition pushed (b : Batch) (rs : list ApplicationResult) (p : Z) : Batch :=
  {| id := id b; userId := userId b; jobIds := jobIds b;
     status := status b; progress := p;
     results := results b ++ rs;
     startTime := startTime b; endTime := endTime b |}.

(** The shape of the objects the loop pushes: job id and outcome, with an
    application id on success and, at most, an error on failure; none of
    company, title, application URL and timestamp. *)
Definition batchEntry (r : ApplicationResult) : Prop :=
  company r = None /\ title r = None /\ applicationUrl r = None /\
  timestamp r = None /\
  (success r = true -> is_Some (applicationId r) /\ error r = None) /\
  (success r = false -> applicationId r = None).

(** The events of the loop: no response is sent, and every save shows the
    batch with a prefix of the results appended in the end. *)
Definition loopEvent (b : Batch) (rs : list ApplicationResult) (e : Event)
  : Prop :=
  match e with
  | EvSave s =>
      exists rs', rs' `prefix_of` rs /\ results s = results b ++ rs' /\
                  id s = id b
  | EvResponse _ _ => False
  | _ => True
  end.

(** What a stretch of the loop does to the world: the batch behind [ref]
    gets [rs] appended and its progress set, events are added, the table
    changes at most under the id of the batch (where it then points to the
    batch), everything else stays. *)
Record effect (ref : nat) (b : Batch) (w w' : World)
    (rs : list ApplicationResult) (p : Z) (tr : list Event) : Prop := {
  eff_heap : heap w' = <[ref := pushed b rs p]> (heap w);
  eff_trace : trace w' = trace w ++ tr;
  eff_events : Forall (loopEvent b rs) tr;
  eff_table : forall k, k <> id b -> batchStatuses w' !! k = batchStatuses w !! k;
  eff_own : batchStatuses w' !! id b = batchStatuses w !! id b \/
            batchStatuses w' !! id b = Some ref;
  eff_nextRef : nextRef w' = nextRef w;
  eff_drawn : drawn w' = drawn w;
  eff_randoms : randoms w' = randoms w
}.

Lemma pushed_pushed (b : Batch) rs1 rs2 p1 p2 :
  pushed (pushed b rs1 p1) rs2 p2 = pushed b (rs1 ++ rs2) p2.
Proof. unfold pushed. cbn. now rewrite app_assoc. Qed.

Lemma loopEvent_weaken (b : Batch) rs1 p1 rs2 (e : Event) :
  loopEvent (pushed b rs1 p1) rs2 e -> loopEvent b (rs1 ++ rs2) e.
Proof.
  destruct e; cbn; try tauto.
  intros (rs' & Hpre & Hres & Hid). exists (rs1 ++ rs'). split; [|split].
  - now apply prefix_app.
  - now rewrite Hres, app_assoc.
  - exact Hid.
Qed.

Lemma loopEvent_extend (b : Batch) rs1 rs2 (e : Event) :
  loopEvent b rs1 e -> loopEvent b (rs1 ++ rs2) e.
Proof.
  destruct e; cbn; try tauto.
  intros (rs' & Hpre & Hres & Hid). exists rs'. split; [|split]; try assumption.
  now apply prefix_app_r.
Qed.

Lemma pushBatchResult_run (ref : nat) (b : Batch) (r : ApplicationResult)
    (w : World) :
  heap w !! ref = Some b ->
  pushBatchResult ref r w =
  (Ok tt,
   {| clock := clock w; randoms := randoms w; drawn := drawn w;
      heap := <[ref := pushed b [r] (progress b)]> (heap w);
      nextRef := nextRef w; batchStatuses := batchStatuses w;
      trace := trace w |}).
Proof.
  intros Hb. unfold pushBatchResult, updateBatch, modify. now rewrite Hb.
Qed.

(** The iteration for the job at index [i] leaves by [continue]: the job
    is not found, or the user has no credentials for its portal. *)
Definition leavesByContinue (env : Env) (uid : jsstring) (i : nat)
    (jobId : jsstring) : bool :=
  match Job_findById env i jobId with
  | Ok None => true
  | Ok (Some job) =>
      match hasCredentials env i uid
              (determinePortal (Scraper.applicationUrl job)) with
      | Ok false => true
      | _ => false
      end
  | Throw _ => false
  end.

(** The progress the batch shows once the jobs [remaining], the first of
    which has index [i], have been gone through, and the number of delays
    performed on the way. *)
Fixpoint lastProgress (env : Env) (uid : jsstring) (total i : nat)
    (remaining : list jsstring) (p : Z) : Z :=
  match remaining with
  | [] => p
  | jobId :: rest =>
      lastProgress env uid total (S i) rest
        (if leavesByContinue env uid i jobId then p
         else roundPercent (i + 1) total)
  end.

(** Events that start no job, and log lines. *)
Definition notJob (e : Event) : Prop :=
  match e with
  | EvJob _ _ => False
  | _ => True
  end.

Definition isLog (e : Event) : Prop :=
  match e with
  | EvLog _ => True
  | _ => False
  end.

(** The entry pushed by the [catch] block when [Job] is unbound. *)
Definition notDefined (jobId : jsstring) : ApplicationResult :=
  failed jobId (Some (js "Job is not defined")).

(** The rounding of a quotient to a double, at the quotient 1. *)
Lemma nearestDouble_same (a : Z) :
  (0 < a)%Z -> nearestDouble a a = (2 ^ 52, -52)%Z.
Proof.
  intros Ha. unfold nearestDouble.
  destruct (Z.eqb_spec a 0) as [|_]; [lia|].
  replace (Z.log2 a - Z.log2 a - 52)%Z with (-52)%Z by lia.
  assert (Hq : (a * 2 ^ 52 / a = 2 ^ 52)%Z)
    by (rewrite Z.mul_comm; apply Z.div_mul; lia).
  assert (Hr : ((a * 2 ^ 52) mod a = 0)%Z)
    by (rewrite Z.mul_comm; apply Z.mod_mul; lia).
  destruct (Z.leb_spec 0 (-52)) as [|_]; [lia|].
  cbn [fst snd]. change (- -52)%Z with 52%Z. rewrite Hq.
  destruct (Z.ltb_spec (2 ^ 52) (2 ^ 52)) as [|_]; [lia|].
  destruct (Z.leb_spec 0 (-52)) as [|_]; [lia|].
  change (- -52)%Z with 52%Z. rewrite Hq, Hr.
  destruct (Z.ltb_spec (2 * 0) a) as [_|]; [|lia].
  destruct (Z.eqb_spec (2 ^ 52) (2 ^ 53)) as [E|_]; [discriminate E|].
  reflexivity.
Qed.

(** The last job of a list brings the progress to 100. *)
Lemma roundPercent_all (n : nat) : (0 < n)%nat -> roundPercent n n = 100%Z.
Proof.
  intros Hn. unfold roundPercent. rewrite nearestDouble_same by lia.
  vm_compute. reflexivity.
Qed.

(** A quotient that does not exceed a small integer [B] is rounded to a
    double that does not exceed it either. *)
Lemma nearestDouble_le (num den B : Z) :
  (0 <= num -> 0 < den -> 0 < B -> Z.log2 B <= 49 -> num <= B * den ->
   nearestDouble num den = (0, 0) \/
   exists m e, nearestDouble num den = (m, e) /\ e < 0 /\
               0 <= m <= B * 2 ^ (- e))%Z.
Proof.
  intros Hnum Hden HB Hlog Hle. unfold nearestDouble.
  destruct (Z.eqb_spec num 0) as [|Hnz]; [now left|]. right.
  assert (He0 : (Z.log2 num - Z.log2 den - 52 <= -2)%Z).
  { assert (Z.log2 num <= Z.log2 (B * den))%Z by (apply Z.log2_le_mono; lia).
    assert (Z.log2 (B * den) <= Z.log2 B + Z.log2 den + 1)%Z
      by (apply Z.log2_mul_above; lia).
    lia. }
  set (e0 := (Z.log2 num - Z.log2 den - 52)%Z) in *.
  set (e := if (_ <? 2 ^ 52)%Z then (e0 - 1)%Z else e0).
  assert (He : (e <= -2)%Z) by (unfold e; destruct (_ <? _)%Z; lia).
  clearbody e. clear e0 He0.
  destruct (Z.leb_spec 0 e) as [|_]; [lia|].
  set (a := (num * 2 ^ (- e))%Z).
  assert (Hpow : (0 < 2 ^ (- e))%Z) by (apply Z.pow_pos_nonneg; lia).
  assert (Ha : (0 <= a <= (B * 2 ^ (- e)) * den)%Z) by (unfold a; nia).
  pose proof (Z.div_mod a den ltac:(lia)) as Hdm.
  pose proof (Z.mod_pos_bound a den Hden) as Hr.
  set (q := (a / den)%Z) in *. set (r := (a mod den)%Z) in *.
  assert (Hq0 : (0 <= q)%Z) by (apply Z.div_pos; lia).
  assert (Hq : (q <= B * 2 ^ (- e))%Z).
  { apply Z.div_le_upper_bound; [lia | nia]. }
  assert (Hq1 : (0 < r -> q + 1 <= B * 2 ^ (- e))%Z).
  { intros Hr0. destruct (Z.lt_ge_cases q (B * 2 ^ (- e))) as [|Hge]; [lia|].
    exfalso. assert (den * (B * 2 ^ (- e)) <= den * q)%Z by nia. lia. }
  set (m := if (2 * r <? den)%Z then q else
            if (den <? 2 * r)%Z then (q + 1)%Z
            else if Z.even q then q else (q + 1)%Z).
  assert (Hm : (0 <= m <= B * 2 ^ (- e))%Z).
  { unfold m. destruct (Z.ltb_spec (2 * r) den); [lia|].
    destruct (Z.ltb_spec den (2 * r)); [lia|].
    destruct (Z.even q); lia. }
  clearbody m.
  destruct (Z.eqb_spec m (2 ^ 53)) as [Hm53|_].
  - exists (2 ^ 52)%Z, (e + 1)%Z. split; [reflexivity|]. split; [lia|].
    split; [lia|].
    replace (- e)%Z with (1 + - (e + 1))%Z in Hm by lia.
    rewrite Z.pow_add_r in Hm by lia. change (2 ^ 1)%Z with 2%Z in Hm.
    change (2 ^ 53)%Z with (2 * 2 ^ 52)%Z in Hm53. lia.
  - exists m, e. split; [reflexivity|]. split; [lia | exact Hm].
Qed.

(** The percentage of [k] jobs out of [n] lies between 0 and 100. *)
Lemma roundPercent_bounds (k n : nat) :
  (k <= n)%nat -> (0 < n)%nat -> (0 <= roundPercent k n <= 100)%Z.
Proof.
  intros Hk Hn. unfold roundPercent.
  assert (Hzero : forall c, Math_round (nearestDouble 0 c) = 0%Z) by reflexivity.
  destruct (nearestDouble_le (Z.of_nat k) (Z.of_nat n) 1)
    as [-> | (m & e & -> & He & Hm)]; try lia.
  { cbn. lia. }
  { change (timesDouble (0, 0)%Z 100) with (nearestDouble 0 1).
    rewrite Hzero. lia. }
  unfold timesDouble. destruct (Z.leb_spec 0 e) as [|_]; [lia|].
  assert (Hpow : (0 < 2 ^ (- e))%Z) by (apply Z.pow_pos_nonneg; lia).
  destruct (nearestDouble_le (m * 100) (2 ^ (- e)) 100)
    as [-> | (m2 & e2 & -> & He2 & Hm2)]; try lia.
  { cbn. lia. }
  { change (Math_round (0, 0)%Z) with 0%Z. lia. }
  unfold Math_round. destruct (Z.leb_spec 0 e2) as [|_]; [lia|].
  assert (Hpow2 : (0 < 2 ^ (- e2))%Z) by (apply Z.pow_pos_nonneg; lia).
  replace (1 - e2)%Z with (1 + - e2)%Z by lia.
  rewrite Z.pow_add_r by lia. change (2 ^ 1)%Z with 2%Z.
  split.
  - apply Z.div_pos; lia.
  - apply Z.lt_succ_r. apply Z.div_lt_upper_bound; lia.
Qed.

Lemma lastProgress_bounds (env : Env) (uid : jsstring) (total : nat)
    (remaining : list jsstring) :
  forall i p,
    (i + length remaining = total)%nat -> (0 <= p <= 100)%Z ->
    (0 <= lastProgress env uid total i remaining p <= 100)%Z.
Proof.
  induction remaining as [|jobId rest IH]; intros i p Hlen Hp; [exact Hp|].
  cbn [lastProgress length] in *. apply IH; [lia|].
  destruct (leavesByContinue env uid i jobId); [exact Hp|].
  apply roundPercent_bounds; lia.
Qed.

Section WithEnv.

Variable env : Env.
Variables (uid : jsstring) (user : User) (ref : nat).

(** One iteration's [try ... catch]: it never throws, and it appends
    exactly one entry, for the job at hand. *)
Lemma tryApply_spec (i : nat) (jobId : jsstring) (w : World) (b : Batch) :
  heap w !! ref = Some b ->
  exists flow r w' tr,
    tryApply env uid user ref i jobId w = (Ok flow, w') /\
    effect ref b w w' [r] (progress b) tr /\
    Applicant.jobId r = jobId /\ batchEntry r /\ clock w' = clock w.
Proof.
  intros Hb.
  assert (Hcaught : forall m,
    (emit (EvLog m) >> pushBatchResult ref (failed jobId (Some m)) >>
     ret fallThrough)%eff w
    = (Ok fallThrough,
       {| clock := clock w; randoms := randoms w; drawn := drawn w;
          heap := <[ref := pushed b [failed jobId (Some m)] (progress b)]> (heap w);
          nextRef := nextRef w; batchStatuses := batchStatuses w;
          trace := trace w ++ [EvLog m] |})).
  { intros m. unfold bind at 1. unfold emit, modify. cbv beta iota.
    erewrite bind_ok by (apply pushBatchResult_run; exact Hb). reflexivity. }
  assert (Hpush : forall r (flow : Flow),
    (pushBatchResult ref r >> ret flow)%eff w
    = (Ok flow,
       {| clock := clock w; randoms := randoms w; drawn := drawn w;
          heap := <[ref := pushed b [r] (progress b)]> (heap w);
          nextRef := nextRef w; batchStatuses := batchStatuses w;
          trace := trace w |})).
  { intros r flow.
    erewrite bind_ok by (apply pushBatchResult_run; exact Hb). reflexivity. }
  assert (Hfail : forall m, exists (flow : Flow) r w' tr,
    (Ok fallThrough,
     {| clock := clock w; randoms := randoms w; drawn := drawn w;
        heap := <[ref := pushed b [failed jobId (Some m)] (progress b)]> (heap w);
        nextRef := nextRef w; batchStatuses := batchStatuses w;
        trace := trace w ++ [EvLog m] |}) = (Ok flow, w') /\
    effect ref b w w' [r] (progress b) tr /\
    Applicant.jobId r = jobId /\ batchEntry r /\ clock w' = clock w).
  { intros m. eexists fallThrough, (failed jobId (Some m)), _, [EvLog m].
    split; [reflexivity|].
    split; [|split; [reflexivity | split; [|reflexivity]]].
    - constructor; cbn; try reflexivity; auto. repeat constructor.
    - repeat split; intros; discriminate. }
  assert (Hdone : forall r (flow : Flow), batchEntry r -> Applicant.jobId r = jobId ->
    exists (flow' : Flow) r' w' tr,
    (Ok flow,
     {| clock := clock w; randoms := randoms w; drawn := drawn w;
        heap := <[ref := pushed b [r] (progress b)]> (heap w);
        nextRef := nextRef w; batchStatuses := batchStatuses w;
        trace := trace w |}) = (Ok flow', w') /\
    effect ref b w w' [r'] (progress b) tr /\
    Applicant.jobId r' = jobId /\ batchEntry r' /\ clock w' = clock w).
  { intros r flow Hr Hj. eexists flow, r, _, []. split; [reflexivity|].
    split; [|split; [exact Hj | split; [exact Hr | reflexivity]]].
    constructor; cbn; try reflexivity; auto. now rewrite app_nil_r. }
  assert (Hfailed : forall e, batchEntry (failed jobId e)).
  { intros e. repeat split; intros; discriminate. }
  unfold tryApply, try_catch. unfold bind at 1. unfold lift at 1.
  destruct (Job_findById env i jobId) as [[job|]|m]; cbv beta iota zeta.
  2:{ rewrite Hpush. now apply Hdone. }
  2:{ rewrite Hcaught. apply Hfail. }
  unfold bind at 1. unfold lift at 1.
  destruct (hasCredentials env i uid _) as [[|]|m]; cbv beta iota zeta;
    cbn [negb].
  2:{ rewrite Hpush. now apply Hdone. }
  2:{ rewrite Hcaught. apply Hfail. }
  unfold bind at 1. unfold lift at 1.
  destruct (getCredentials env i uid _) as [credentials|m];
    cbv beta iota zeta.
  2:{ rewrite Hcaught. apply Hfail. }
  unfold bind at 1. unfold lift at 1.
  destruct (buildUserProfile env user credentials) as [[]|m];
    cbv beta iota zeta.
  2:{ rewrite Hcaught. apply Hfail. }
  unfold bind at 1. unfold lift at 1.
  destruct (applyToJob (session env i) job new_AutomatedJobApplicant)
    as [[result|m] applicant]; cbn [fst snd]; cbv beta iota zeta.
  2:{ rewrite Hcaught. apply Hfail. }
  unfold bind at 1. unfold lift at 1.
  destruct (close (session env i) applicant) as [[[]|m] applicant'];
    cbn [fst snd]; cbv beta iota zeta.
  2:{ rewrite Hcaught. apply Hfail. }
  destruct (success result).
  - unfold bind at 1. unfold lift at 1.
    destruct (Application_save env i uid job) as [applicationId|m];
      cbv beta iota zeta.
    2:{ rewrite Hcaught. apply Hfail. }
    rewrite Hpush. apply Hdone; [|reflexivity].
    repeat split; try discriminate. now eexists.
  - rewrite Hpush. now apply Hdone.
Qed.

Lemma pushed_nil (b : Batch) : pushed b [] (progress b) = b.
Proof. destruct b. unfold pushed. cbn. now rewrite app_nil_r. Qed.

Lemma effect_lookup (b : Batch) (w w' : World) rs p tr :
  effect ref b w w' rs p tr -> heap w' !! ref = Some (pushed b rs p).
Proof. intros [Hh _ _ _ _ _ _ _]. rewrite Hh. apply lookup_insert_eq. Qed.

Lemma effect_trans (b b1 : Batch) (w w1 w2 : World) rs1 p1 tr1 rs2 p2 tr2 :
  effect ref b w w1 rs1 p1 tr1 ->
  b1 = pushed b rs1 p1 ->
  effect ref b1 w1 w2 rs2 p2 tr2 ->
  effect ref b w w2 (rs1 ++ rs2) p2 (tr1 ++ tr2).
Proof.
  intros [Hh1 Ht1 He1 Hk1 Ho1 Hn1 Hd1 Hr1] ->
         [Hh2 Ht2 He2 Hk2 Ho2 Hn2 Hd2 Hr2].
  cbn [id pushed] in Hk2, Ho2. constructor.
  - rewrite Hh2, Hh1, insert_insert_eq. now rewrite pushed_pushed.
  - now rewrite Ht2, Ht1, app_assoc.
  - apply Forall_app. split.
    + eapply Forall_impl; [exact He1|]. intros e. apply loopEvent_extend.
    + eapply Forall_impl; [exact He2|]. intros e. apply loopEvent_weaken.
  - intros k Hk. now rewrite Hk2, Hk1.
  - destruct Ho2 as [Ho2|Ho2]; [|now right].
    rewrite Ho2. exact Ho1.
  - congruence.
  - congruence.
  - congruence.
Qed.

(** The statements after the [try]: progress, save, delay. *)
Lemma afterTry_spec (p : Z) (w : World) (b : Batch) :
  heap w !! ref = Some b ->
  exists w',
    (setProgress ref p >> saveBatchStatus ref >> delay 5000)%eff w = (Ok tt, w') /\
    effect ref b w w' [] p [EvSave (pushed b [] p); EvDelay 5000].
Proof.
  intros Hb. unfold bind, setProgress, updateBatch, saveBatchStatus, delay, modify.
  rewrite Hb. cbn [heap]. rewrite lookup_insert_eq.
  eexists. split; [reflexivity|].
  assert (Hp : pushed b [] p =
               {| id := id b; userId := userId b; jobIds := jobIds b;
                  status := status b; progress := p; results := results b;
                  startTime := startTime b; endTime := endTime b |}).
  { unfold pushed. now rewrite app_nil_r. }
  constructor; cbn.
  - now rewrite Hp.
  - now rewrite <- app_assoc, Hp.
  - repeat constructor. exists []. cbn. now rewrite app_nil_r.
  - intros k Hk. now rewrite lookup_insert_ne.
  - right. apply lookup_insert_eq.
  - reflexivity.
  - reflexivity.
  - reflexivity.
Qed.

(** The loop never throws; it appends one entry per remaining job id, in
    order. *)
Lemma processJobs_spec (total : nat) (remaining : list jsstring) :
  forall i w b,
    heap w !! ref = Some b ->
    exists w' rs p tr,
      processJobs env uid user ref total i remaining w = (Ok tt, w') /\
      effect ref b w w' rs p tr /\
      List.map Applicant.jobId rs = remaining /\ Forall batchEntry rs.
Proof.
  induction remaining as [|jobId rest IH]; intros i w b Hb.
  - exists w, [], (progress b), []. split; [reflexivity|].
    split; [|split; constructor].
    constructor; try reflexivity; auto.
    + rewrite pushed_nil. symmetry. now apply insert_id.
    + now rewrite app_nil_r.
  - cbn [processJobs].
    set (w0 := {| clock := clock w; randoms := randoms w; drawn := drawn w;
                  heap := heap w; nextRef := nextRef w;
                  batchStatuses := batchStatuses w;
                  trace := trace w ++ [EvJob i jobId] |}).
    assert (H0 : effect ref b w w0 [] (progress b) [EvJob i jobId]).
    { constructor; cbn; try reflexivity; auto.
      - rewrite pushed_nil. symmetry. now apply insert_id.
      - repeat constructor. }
    rewrite (bind_ok _ _ w w0 tt) by reflexivity.
    destruct (tryApply_spec i jobId w0 b Hb)
      as (flow & r & w1 & tr1 & Hrun1 & H1 & Hj & Hr & _).
    rewrite (bind_ok _ _ _ _ _ Hrun1).
    pose proof (effect_lookup _ _ _ _ _ _ H1) as Hb1.
    assert (Hmid : exists w2 p2 tr2,
      match flow with
      | continue => ret tt
      | fallThrough =>
          (setProgress ref (roundPercent (i + 1) total) >>
           saveBatchStatus ref >> delay 5000)%eff
      end w1 = (Ok tt, w2) /\
      effect ref (pushed b [r] (progress b)) w1 w2 [] p2 tr2).
    { destruct flow.
      - exists w1, (progress (pushed b [r] (progress b))), [].
        split; [reflexivity|].
        constructor; try reflexivity; auto.
        + rewrite pushed_nil. symmetry. now apply insert_id.
        + now rewrite app_nil_r.
      - destruct (afterTry_spec (roundPercent (i + 1) total) w1 _ Hb1)
          as (w2 & Hrun2 & H2).
        eexists w2, _, _. split; [exact Hrun2 | exact H2]. }
    destruct Hmid as (w2 & p2 & tr2 & Hrun2 & H2).
    rewrite (bind_ok _ _ _ _ _ Hrun2).
    pose proof (effect_lookup _ _ _ _ _ _ H2) as Hb2.
    destruct (IH (S i) w2 _ Hb2) as (w3 & rs & p3 & tr3 & Hrun3 & H3 & Hrs & Hall).
    exists w3, (r :: rs), p3, ((([EvJob i jobId] ++ tr1) ++ tr2) ++ tr3).
    split; [exact Hrun3|]. split; [|split].
    + pose proof (effect_trans _ _ _ _ _ _ _ _ _ _ _ H0
                    (eq_sym (pushed_nil b)) H1) as H01.
      pose proof (effect_trans _ _ _ _ _ _ _ _ _ _ _ H01 eq_refl H2) as H02.
      exact (effect_trans _ _ _ _ _ _ _ _ _ _ _ H02
               (pushed_pushed b [r] [] (progress b) p2) H3).
    + cbn [List.map]. now rewrite Hj, Hrs.
    + now constructor.
Qed.

(** An iteration that leaves by [continue] (the job is not found, or the
    user has no credentials for its portal) records a failure and goes on
    with the next job at once: the progress is not updated, the batch is
    not saved, and no delay is performed. *)
Lemma processJobs_continue (total i : nat) (jobId : jsstring)
    (rest : list jsstring) (w : World) (b : Batch) :
  heap w !! ref = Some b ->
  Job_findById env i jobId = Ok None \/
  (exists job,
      Job_findById env i jobId = Ok (Some job) /\
      hasCredentials env i uid (determinePortal (Scraper.applicationUrl job))
      = Ok false) ->
  exists r,
    success r = false /\ Applicant.jobId r = jobId /\
    processJobs env uid user ref total i (jobId :: rest) w =
    processJobs env uid user ref total (S i) rest
      {| clock := clock w; randoms := randoms w; drawn := drawn w;
         heap := <[ref := pushed b [r] (progress b)]> (heap w);
         nextRef := nextRef w; batchStatuses := batchStatuses w;
         trace := trace w ++ [EvJob i jobId] |}.
Proof.
  intros Hb Hcase.
  set (w0 := {| clock := clock w; randoms := randoms w; drawn := drawn w;
                heap := heap w; nextRef := nextRef w;
                batchStatuses := batchStatuses w;
                trace := trace w ++ [EvJob i jobId] |}).
  assert (Hpush : forall r,
    (pushBatchResult ref r >> ret continue)%eff w0
    = (Ok continue,
       {| clock := clock w; randoms := randoms w; drawn := drawn w;
          heap := <[ref := pushed b [r] (progress b)]> (heap w);
          nextRef := nextRef w; batchStatuses := batchStatuses w;
          trace := trace w ++ [EvJob i jobId] |})).
  { intros r.
    erewrite bind_ok by (apply pushBatchResult_run; exact Hb). reflexivity. }
  assert (Hstep : forall r,
    tryApply env uid user ref i jobId w0
    = (pushBatchResult ref r >> ret continue)%eff w0 ->
    processJobs env uid user ref total i (jobId :: rest) w =
    processJobs env uid user ref total (S i) rest
      {| clock := clock w; randoms := randoms w; drawn := drawn w;
         heap := <[ref := pushed b [r] (progress b)]> (heap w);
         nextRef := nextRef w; batchStatuses := batchStatuses w;
         trace := trace w ++ [EvJob i jobId] |}).
  { intros r Hrun. rewrite Hpush in Hrun.
    cbn [processJobs]. rewrite (bind_ok _ _ w w0 tt) by reflexivity.
    rewrite (bind_ok _ _ _ _ _ Hrun). reflexivity. }
  destruct Hcase as [Hgone | (job & Hjob & Hcreds)].
  - exists (failed jobId (Some (js "Job not found"))).
    split; [reflexivity|]. split; [reflexivity|]. apply Hstep.
    unfold tryApply, try_catch.
    unfold bind at 1. unfold lift at 1. rewrite Hgone. cbv beta iota.
    now rewrite Hpush.
  - eexists (failed jobId _).
    split; [reflexivity|]. split; [reflexivity|]. apply Hstep.
    unfold tryApply, try_catch.
    unfold bind at 1. unfold lift at 1. rewrite Hjob. cbv beta iota zeta.
    unfold bind at 1. unfold lift at 1. rewrite Hcreds. cbv beta iota.
    cbn [negb]. now rewrite Hpush.
Qed.

(** How the [try] statement of an iteration is left depends on the job
    lookup and the credential check alone. *)
Lemma tryApply_flow (i : nat) (jobId : jsstring) (w : World) :
  fst (tryApply env uid user ref i jobId w)
  = Ok (if leavesByContinue env uid i jobId then continue else fallThrough).
Proof.
  unfold tryApply, leavesByContinue, try_catch, bind, lift, pushBatchResult,
    updateBatch, emit, modify, ret.
  destruct (Job_findById env i jobId) as [[job|]|m]; try reflexivity.
  destruct (hasCredentials env i uid _) as [[|]|m]; try reflexivity.
  cbn [negb].
  destruct (getCredentials env i uid _) as [credentials|m]; try reflexivity.
  destruct (buildUserProfile env user credentials) as [[]|m]; try reflexivity.
  destruct (applyToJob (session env i) job new_AutomatedJobApplicant)
    as [[result|m] applicant]; cbn [fst snd]; try reflexivity.
  destruct (close (session env i) applicant) as [[[]|m] applicant'];
    cbn [fst snd]; try reflexivity.
  destruct (success result); [|reflexivity].
  destruct (Application_save env i uid job) as [applicationId|m]; reflexivity.
Qed.

(** The events of one iteration's [try ... catch] are log lines. *)
Lemma tryApply_trace (i : nat) (jobId : jsstring) (w : World) :
  exists tr,
    trace (snd (tryApply env uid user ref i jobId w)) = trace w ++ tr /\
    Forall isLog tr.
Proof.
  assert (Hquiet : forall r (flow : Flow),
    exists tr,
      trace (snd ((pushBatchResult ref r >> ret flow)%eff w)) = trace w ++ tr /\
      Forall isLog tr).
  { intros r flow. exists []. split; [|constructor].
    unfold bind, pushBatchResult, updateBatch, modify, ret.
    destruct (heap w !! ref); cbn; now rewrite app_nil_r. }
  assert (Hcaught : forall m,
    exists tr,
      trace (snd ((emit (EvLog m) >>
                   pushBatchResult ref (failed jobId (Some m)) >>
                   ret fallThrough)%eff w)) = trace w ++ tr /\
      Forall isLog tr).
  { intros m. exists [EvLog m]. split; [|repeat constructor].
    unfold bind, emit, pushBatchResult, updateBatch, modify, ret. cbn.
    destruct (heap w !! ref); reflexivity. }
  unfold tryApply, try_catch. unfold bind at 1. unfold lift at 1.
  destruct (Job_findById env i jobId) as [[job|]|m]; cbv beta iota zeta;
    [|apply Hquiet | apply Hcaught].
  unfold bind at 1. unfold lift at 1.
  destruct (hasCredentials env i uid _) as [[|]|m]; cbv beta iota zeta;
    cbn [negb]; [|apply Hquiet | apply Hcaught].
  unfold bind at 1. unfold lift at 1.
  destruct (getCredentials env i uid _) as [credentials|m];
    cbv beta iota zeta; [|apply Hcaught].
  unfold bind at 1. unfold lift at 1.
  destruct (buildUserProfile env user credentials) as [[]|m];
    cbv beta iota zeta; [|apply Hcaught].
  unfold bind at 1. unfold lift at 1.
  destruct (applyToJob (session env i) job new_AutomatedJobApplicant)
    as [[result|m] applicant]; cbn [fst snd]; cbv beta iota zeta;
    [|apply Hcaught].
  unfold bind at 1. unfold lift at 1.
  destruct (close (session env i) applicant) as [[[]|m] applicant'];
    cbn [fst snd]; cbv beta iota zeta; [|apply Hcaught].
  destruct (success result); [|apply Hquiet].
  unfold bind at 1. unfold lift at 1.
  destruct (Application_save env i uid job) as [applicationId|m];
    cbv beta iota zeta; [apply Hquiet | apply Hcaught].
Qed.

(** The events of the iterations for the jobs [remaining], the first of
    which has index [i]: each iteration starts with its [EvJob]; what
    follows up to the next one starts no job, and holds the delay of five
    seconds exactly when the iteration does not leave by [continue]. *)
Fixpoint paced (i : nat) (remaining : list jsstring) (tr : list Event) : Prop :=
  match remaining with
  | [] => tr = []
  | jobId :: rest =>
      exists body tr',
        tr = EvJob i jobId :: body ++ tr' /\
        Forall notJob body /\
        (In (EvDelay 5000) body <-> leavesByContinue env uid i jobId = false) /\
        paced (S i) rest tr'
  end.

(** The loop, followed for the progress it leaves and the events it
    adds. *)
Lemma processJobs_progress (total : nat) (remaining : list jsstring) :
  forall i w b,
    heap w !! ref = Some b ->
    exists w' rs p tr,
      processJobs env uid user ref total i remaining w = (Ok tt, w') /\
      heap w' !! ref = Some (pushed b rs p) /\
      p = lastProgress env uid total i remaining (progress b) /\
      trace w' = trace w ++ tr /\ paced i remaining tr.
Proof.
  induction remaining as [|jobId rest IH]; intros i w b Hb.
  - exists w, [], (progress b), []. split; [reflexivity|].
    rewrite pushed_nil, app_nil_r. cbn [lastProgress paced]. now repeat split.
  - cbn [processJobs lastProgress paced].
    set (w0 := {| clock := clock w; randoms := randoms w; drawn := drawn w;
                  heap := heap w; nextRef := nextRef w;
                  batchStatuses := batchStatuses w;
                  trace := trace w ++ [EvJob i jobId] |}).
    rewrite (bind_ok _ _ w w0 tt) by reflexivity.
    destruct (tryApply_spec i jobId w0 b Hb)
      as (flow & r & w1 & tr1 & Hrun1 & H1 & _).
    pose proof (tryApply_flow i jobId w0) as Hflow.
    destruct (tryApply_trace i jobId w0) as (logs & Hlogs & Hlog).
    rewrite Hrun1 in Hflow, Hlogs. cbn [fst snd] in Hflow, Hlogs.
    injection Hflow as Hflow.
    rewrite (bind_ok _ _ _ _ _ Hrun1).
    pose proof (effect_lookup _ _ _ _ _ _ H1) as Hb1.
    assert (Hquiet : Forall notJob logs /\ ~ In (EvDelay 5000) logs).
    { split.
      - eapply Forall_impl; [exact Hlog|]. now intros [].
      - intros Hin. rewrite List.Forall_forall in Hlog. exact (Hlog _ Hin). }
    destruct Hquiet as [Hnojob Hnodelay].
    destruct (leavesByContinue env uid i jobId); subst flow.
    + rewrite (bind_ok _ _ w1 w1 tt) by reflexivity.
      destruct (IH (S i) w1 _ Hb1)
        as (w3 & rs & p & tr & Hrun3 & Hb3 & Hp & Htr & Hpaced).
      exists w3, (r :: rs), p, (EvJob i jobId :: logs ++ tr).
      split; [exact Hrun3|].
      split; [now rewrite Hb3, pushed_pushed|]. split; [exact Hp|].
      split.
      { rewrite Htr, Hlogs. cbn [trace w0]. now rewrite <- !app_assoc. }
      exists logs, tr. split; [reflexivity|]. split; [exact Hnojob|].
      split; [|exact Hpaced]. split; [contradiction | discriminate].
    + destruct (afterTry_spec (roundPercent (i + 1) total) w1 _ Hb1)
        as (w2 & Hrun2 & H2).
      rewrite (bind_ok _ _ _ _ _ Hrun2).
      pose proof (effect_lookup _ _ _ _ _ _ H2) as Hb2.
      destruct (IH (S i) w2 _ Hb2)
        as (w3 & rs & p & tr & Hrun3 & Hb3 & Hp & Htr & Hpaced).
      exists w3, (r :: rs), p,
        (EvJob i jobId
         :: (logs ++ [EvSave (pushed (pushed b [r] (progress b)) []
                                (roundPercent (i + 1) total));
                      EvDelay 5000]) ++ tr).
      split; [exact Hrun3|].
      split; [rewrite Hb3, !pushed_pushed; reflexivity|].
      split; [exact Hp|].
      split.
      { rewrite Htr, (eff_trace _ _ _ _ _ _ _ H2), Hlogs. cbn [trace w0].
        rewrite <- !app_assoc. reflexivity. }
      eexists _, tr. split; [reflexivity|]. split.
      { apply Forall_app. split; [exact Hnojob | repeat constructor]. }
      split; [|exact Hpaced]. split; [reflexivity|].
      intros _. apply in_or_app. right. right. now left.
Qed.

(** With [Job] unbound, every iteration ends in the [catch] block. *)
Lemma leavesByContinue_unbound (i : nat) (jobId : jsstring) :
  Job_unbound env -> leavesByContinue env uid i jobId = false.
Proof. intros H. unfold leavesByContinue. now rewrite H. Qed.

Lemma lastProgress_unbound (total : nat) (remaining : list jsstring) :
  Job_unbound env ->
  forall i p,
    remaining <> [] ->
    lastProgress env uid total i remaining p
    = roundPercent (i + length remaining) total.
Proof.
  intros Hjob. induction remaining as [|jobId rest IH]; intros i p Hne;
    [contradiction|].
  cbn [lastProgress length]. rewrite leavesByContinue_unbound by exact Hjob.
  destruct rest as [|jobId' rest].
  - cbn [lastProgress length]. reflexivity.
  - rewrite IH by discriminate. f_equal. cbn [length]. lia.
Qed.

Lemma tryApply_unbound (i : nat) (jobId : jsstring) (w : World) (b : Batch) :
  Job_unbound env -> heap w !! ref = Some b ->
  tryApply env uid user ref i jobId w
  = (Ok fallThrough,
     {| clock := clock w; randoms := randoms w; drawn := drawn w;
        heap := <[ref := pushed b [notDefined jobId] (progress b)]> (heap w);
        nextRef := nextRef w; batchStatuses := batchStatuses w;
        trace := trace w ++ [EvLog (js "Job is not defined")] |}).
Proof.
  intros Hjob Hb. unfold tryApply, try_catch.
  unfold bind at 1. unfold lift at 1. rewrite Hjob. cbv beta iota.
  unfold bind at 1. unfold emit, modify. cbv beta iota.
  erewrite bind_ok by (apply pushBatchResult_run; exact Hb). reflexivity.
Qed.

(** With [Job] unbound, the loop records the same failure for every job. *)
Lemma processJobs_unbound (total : nat) (remaining : list jsstring) :
  Job_unbound env ->
  forall i w b,
    heap w !! ref = Some b ->
    exists w' p,
      processJobs env uid user ref total i remaining w = (Ok tt, w') /\
      heap w' !! ref = Some (pushed b (List.map notDefined remaining) p).
Proof.
  intros Hjob. induction remaining as [|jobId rest IH]; intros i w b Hb.
  - exists w, (progress b). split; [reflexivity|]. cbn [List.map].
    now rewrite pushed_nil.
  - cbn [processJobs List.map].
    set (w0 := {| clock := clock w; randoms := randoms w; drawn := drawn w;
                  heap := heap w; nextRef := nextRef w;
                  batchStatuses := batchStatuses w;
                  trace := trace w ++ [EvJob i jobId] |}).
    rewrite (bind_ok _ _ w w0 tt) by reflexivity.
    rewrite (bind_ok _ _ _ _ _ (tryApply_unbound i jobId w0 b Hjob Hb)).
    match goal with
    | |- context [bind _ _ ?w1] =>
        assert (Hb1 : heap w1 !! ref
                      = Some (pushed b [notDefined jobId] (progress b)))
          by apply lookup_insert_eq
    end.
    destruct (afterTry_spec (roundPercent (i + 1) total) _ _ Hb1)
      as (w2 & Hrun2 & H2).
    rewrite (bind_ok _ _ _ _ _ Hrun2).
    pose proof (effect_lookup _ _ _ _ _ _ H2) as Hb2.
    destruct (IH (S i) w2 _ Hb2) as (w3 & p & Hrun3 & Hb3).
    exists w3, p. split; [exact Hrun3|].
    rewrite Hb3, !pushed_pushed. reflexivity.
Qed.

(** Where the delay after job [k] is looked for, events that start no job
    are passed over. *)
Lemma eventsBetween_notJob (k : nat) (body rest : list Event) (inside : bool) :
  Forall notJob body ->
  eventsBetween k (body ++ rest) inside
  = (if inside then body else []) ++ eventsBetween k rest inside.
Proof.
  induction 1 as [|e body He _ IH]; [now destruct inside|].
  cbn [app eventsBetween]. destruct e; try contradiction;
    rewrite IH; now destruct inside.
Qed.

Lemma paced_tail (k : nat) (rest : list jsstring) (tr final : list Event) :
  paced (S k) rest tr -> Forall notJob final ->
  eventsBetween k (tr ++ final) true
  = match rest with [] => final | _ => [] end.
Proof.
  intros Hp Hfinal. destruct rest as [|jobId rest]; cbn [paced] in Hp.
  - subst tr. cbn [app].
    rewrite <- (app_nil_r final) at 1.
    rewrite eventsBetween_notJob by exact Hfinal. cbn. now rewrite app_nil_r.
  - destruct Hp as (body & tr' & -> & _). cbn [app eventsBetween].
    replace (S k =? k)%nat with false by (symmetry; apply Nat.eqb_neq; lia).
    now rewrite Nat.eqb_refl.
Qed.

(** Every job of the list is started. *)
Lemma paced_In (remaining : list jsstring) :
  forall i tr k jobId,
    paced i remaining tr -> nth_error remaining k = Some jobId ->
    In (EvJob (i + k) jobId) tr.
Proof.
  induction remaining as [|j rest IH]; intros i tr k jobId Hp Hk;
    [destruct k; discriminate Hk|].
  cbn [paced] in Hp. destruct Hp as (body & tr' & -> & _ & _ & Hp).
  destruct k as [|k]; cbn [nth_error] in Hk.
  - injection Hk as ->. rewrite Nat.add_0_r. now left.
  - right. apply in_or_app. right.
    replace (i + S k)%nat with (S i + k)%nat by lia. now apply IH.
Qed.

(** In the events of the loop, the delay is found after job [i + k]
    exactly when its iteration does not leave by [continue]. *)
Lemma paced_delayedAfter (remaining : list jsstring) :
  forall i tr final k jobId,
    paced i remaining tr -> Forall notJob final ->
    ~ In (EvDelay 5000) final ->
    nth_error remaining k = Some jobId ->
    (In (EvDelay 5000) (eventsBetween (i + k) (tr ++ final) false)
     <-> leavesByContinue env uid (i + k) jobId = false).
Proof.
  induction remaining as [|j rest IH]; intros i tr final k jobId Hp Hf Hnd Hk.
  - destruct k; discriminate Hk.
  - cbn [paced] in Hp. destruct Hp as (body & tr' & -> & Hbody & Hdelay & Hp).
    cbn [app eventsBetween]. destruct k as [|k]; cbn [nth_error] in Hk.
    + injection Hk as ->. rewrite Nat.add_0_r, Nat.eqb_refl.
      rewrite <- app_assoc, eventsBetween_notJob by exact Hbody.
      rewrite (paced_tail i rest tr' final Hp Hf).
      rewrite <- Hdelay, in_app_iff.
      split; [|now left]. intros [H | H]; [exact H|].
      destruct rest; [contradiction | destruct H].
    + replace (i =? i + S k)%nat with false
        by (symmetry; apply Nat.eqb_neq; lia).
      replace (i =? S (i + S k))%nat with false
        by (symmetry; apply Nat.eqb_neq; lia).
      rewrite <- app_assoc, eventsBetween_notJob by exact Hbody.
      cbn [app]. replace (i + S k)%nat with (S i + k)%nat by lia.
      now apply IH.
Qed.

End WithEnv.

Lemma saveBatchStatus_run (ref : nat) (b : Batch) (w : World) :
  heap w !! ref = Some b ->
  saveBatchStatus ref w =
  (Ok tt,
   {| clock := clock w; randoms := randoms w; drawn := drawn w;
      heap := heap w; nextRef := nextRef w;
      batchStatuses := <[id b := ref]> (batchStatuses w);
      trace := trace w ++ [EvSave b] |}).
Proof. intros Hb. unfold saveBatchStatus, modify. now rewrite Hb. Qed.

Lemma setCompleted_run (ref : nat) (b : Batch) (t : Z) (w : World) :
  heap w !! ref = Some b ->
  setCompleted ref t w =
  (Ok tt,
   {| clock := clock w; randoms := randoms w; drawn := drawn w;
      heap := <[ref :=
                 {| id := id b; userId := userId b; jobIds := jobIds b;
                    status := completed; progress := progress b;
                    results := results b;
                    startTime := startTime b; endTime := Some t |}]> (heap w);
      nextRef := nextRef w; batchStatuses := batchStatuses w;
      trace := trace w |}).
Proof. intros Hb. unfold setCompleted, updateBatch, modify. now rewrite Hb. Qed.

Section WithRuntime.

Variable toString36 : Z -> jsstring.
Variable toUpperCase : jsstring -> jsstring.
Variable env : Env.

(** The id drawn by a call of [generateBatchId] in the world [w]. *)
Definition idDrawn (w : World) : jsstring :=
  toString36 (clock w) ++ toUpperCase (substr (randoms w (drawn w)) 2 5).

(** A whole run of [processBatchApplications]: it returns; the batch it
    creates is stored under an id of its own drawing, is completed, and
    holds one entry per job id, in order; every state of the batch that
    was saved on the way shows a prefix of the final results. *)
Lemma processBatchApplications_spec (uid : jsstring) (jobs : list jsstring)
    (user : User) (w : World) :
  exists w' b tr,
    processBatchApplications toString36 toUpperCase env uid jobs user w
    = (Ok tt, w') /\
    heap w' !! nextRef w = Some b /\
    id b = idDrawn w /\
    status b = completed /\
    List.map Applicant.jobId (results b) = jobs /\
    Forall batchEntry (results b) /\
    batchStatuses w' !! idDrawn w = Some (nextRef w) /\
    (forall k, k <> idDrawn w -> batchStatuses w' !! k = batchStatuses w !! k) /\
    trace w' = trace w ++ tr /\
    (forall s, In (EvSave s) tr -> results s `prefix_of` results b) /\
    drawn w' = S (drawn w) /\ randoms w' = randoms w.
Proof.
  set (ref := nextRef w).
  set (b0 := {| id := idDrawn w; userId := uid; jobIds := jobs;
                status := processing; progress := 0; results := [];
                startTime := clock w; endTime := None |}).
  set (wa := {| clock := clock w; randoms := randoms w; drawn := S (drawn w);
                heap := <[ref := b0]> (heap w); nextRef := S (nextRef w);
                batchStatuses := batchStatuses w; trace := trace w |}).
  assert (Hba : heap wa !! ref = Some b0) by apply lookup_insert_eq.
  pose proof (saveBatchStatus_run ref b0 wa Hba) as Hsave0.
  set (ws := {| clock := clock wa; randoms := randoms wa; drawn := drawn wa;
                heap := heap wa; nextRef := nextRef wa;
                batchStatuses := <[id b0 := ref]> (batchStatuses wa);
                trace := trace wa ++ [EvSave b0] |}) in Hsave0.
  assert (Hbs : heap ws !! ref = Some b0) by exact Hba.
  destruct (processJobs_spec env uid user ref (length jobs) jobs 0 ws b0 Hbs)
    as (w3 & rs & p & tr & Hrun & [Hh Ht He Hk Ho Hn Hd Hr] & Hrs & Hall).
  assert (Hb3 : heap w3 !! ref = Some (pushed b0 rs p)).
  { rewrite Hh. apply lookup_insert_eq. }
  pose proof (setCompleted_run ref _ (clock w3) w3 Hb3) as Hdone.
  cbn [pushed id userId jobIds status progress results startTime endTime b0 app]
    in Hdone.
  set (bf := {| id := idDrawn w; userId := uid; jobIds := jobs;
                status := completed; progress := p; results := rs;
                startTime := clock w; endTime := Some (clock w3) |}) in Hdone.
  set (w4 := {| clock := clock w3; randoms := randoms w3; drawn := drawn w3;
                heap := <[ref := bf]> (heap w3); nextRef := nextRef w3;
                batchStatuses := batchStatuses w3; trace := trace w3 |})
    in Hdone.
  assert (Hb4 : heap w4 !! ref = Some bf) by apply lookup_insert_eq.
  pose proof (saveBatchStatus_run ref bf w4 Hb4) as Hsave4.
  eexists _, bf, ([EvSave b0] ++ tr ++ [EvSave bf]).
  split.
  { unfold processBatchApplications. apply try_catch_ok.
    rewrite (bind_ok _ _ w
               {| clock := clock w; randoms := randoms w; drawn := S (drawn w);
                  heap := heap w; nextRef := nextRef w;
                  batchStatuses := batchStatuses w; trace := trace w |}
               (idDrawn w)) by reflexivity.
    erewrite (bind_ok newDate) by reflexivity.
    rewrite (bind_ok _ _ _ wa ref) by reflexivity.
    rewrite (bind_ok _ _ _ _ _ Hsave0).
    rewrite (bind_ok _ _ _ _ _ Hrun).
    erewrite (bind_ok newDate) by reflexivity.
    rewrite (bind_ok _ _ _ _ _ Hdone).
    exact Hsave4. }
  cbn [heap batchStatuses trace drawn randoms w4].
  split; [apply lookup_insert_eq|].
  split; [reflexivity|]. split; [reflexivity|].
  split; [exact Hrs|]. split; [exact Hall|].
  split; [apply lookup_insert_eq|].
  split.
  { intros k Hk'.
    assert (Hne : idDrawn w <> k) by congruence.
    rewrite lookup_insert_ne by exact Hne.
    rewrite Hk by (intros E; apply Hne; symmetry; exact E).
    cbn [batchStatuses ws wa id b0]. now rewrite lookup_insert_ne by exact Hne. }
  split.
  { rewrite Ht. cbn [trace ws wa]. now rewrite <- !app_assoc. }
  split; [|split; [rewrite Hd; reflexivity | rewrite Hr; reflexivity]].
  intros s Hin. cbn [results bf].
  apply in_app_or in Hin as [Hin | Hin].
  - destruct Hin as [[= <-] | []]. apply prefix_nil.
  - apply in_app_or in Hin as [Hin | Hin].
    + rewrite List.Forall_forall in He. specialize (He _ Hin).
      destruct He as (rs' & Hpre & Hres & _). now rewrite Hres.
    + destruct Hin as [[= <-] | []]. reflexivity.
Qed.

(** The world after one call of [generateBatchId]. *)
Definition afterDraw (w : World) : World :=
  {| clock := clock w; randoms := randoms w; drawn := S (drawn w);
     heap := heap w; nextRef := nextRef w;
     batchStatuses := batchStatuses w; trace := trace w |}.

(** A batch request that passes the route's checks. *)
Lemma postBatch_run (uid : jsstring) (jobs : list jsstring) (user : User)
    (w : World) :
  jobs <> [] ->
  User_findById env uid = Ok (Some user) ->
  profileComplete user = true ->
  exists w' b,
    postBatch toString36 toUpperCase env uid (Some jobs) w
    = (Ok (batchStarted (length jobs) (idDrawn w)), w') /\
    batchStatuses w' !! idDrawn (afterDraw w) = Some (nextRef w) /\
    heap w' !! nextRef w = Some b /\
    status b = completed /\
    List.map Applicant.jobId (results b) = jobs /\
    (forall k, k <> idDrawn (afterDraw w) ->
               batchStatuses w' !! k = batchStatuses w !! k).
Proof.
  intros Hjobs Huser Hcomplete.
  set (w2 := {| clock := clock w; randoms := randoms w; drawn := S (drawn w);
                heap := heap w; nextRef := nextRef w;
                batchStatuses := batchStatuses w;
                trace := trace w ++ [EvResponse 200 (Some (idDrawn w))] |}).
  destruct (processBatchApplications_spec uid jobs user w2)
    as (w' & b & tr & Hrun & Hb & _ & Hst & Hres & _ & Hown & Hk & _).
  exists w', b. split; [|repeat split; assumption].
  unfold postBatch. apply try_catch_ok.
  destruct jobs as [|j jobs]; [congruence|].
  unfold bind at 1. unfold lift at 1. rewrite Huser. cbv beta iota.
  rewrite Hcomplete. cbn [negb].
  rewrite (bind_ok _ _ w (afterDraw w) (idDrawn w)) by reflexivity.
  rewrite (bind_ok _ _ (afterDraw w) w2 tt) by reflexivity.
  rewrite (bind_ok _ _ _ _ _ Hrun). reflexivity.
Qed.

(** C3 (what the code does). The batch id sent back by
    [POST /api/auto-apply/batch] does not identify the batch the request
    creates: the route draws one id for the response and
    [processBatchApplications] draws another for the batch.  Whenever the
    two differ and the returned one is not in the table already,
    [getBatchStatus] with the returned id yields nothing, at the end of
    processing as well, while the batch sits under the other id. *)
Theorem postBatch_id_not_tracked (uid : jsstring) (jobs : list jsstring)
    (user : User) (w : World) :
  jobs <> [] ->
  User_findById env uid = Ok (Some user) ->
  profileComplete user = true ->
  idDrawn w <> idDrawn (afterDraw w) ->
  batchStatuses w !! idDrawn w = None ->
  let request := postBatch toString36 toUpperCase env uid (Some jobs) in
  result request w = Ok (batchStarted (length jobs) (idDrawn w)) /\
  result (getBatchStatus (idDrawn w)) (world_after request w) = Ok None /\
  exists b,
    result (getBatchStatus (idDrawn (afterDraw w))) (world_after request w)
    = Ok (Some b) /\
    status b = completed.
Proof.
  intros Hjobs Huser Hcomplete Hdiff Hfree request.
  destruct (postBatch_run uid jobs user w Hjobs Huser Hcomplete)
    as (w' & b & Hrun & Hown & Hb & Hst & _ & Hk).
  unfold result, world_after, request. rewrite Hrun. cbn [fst snd].
  split; [reflexivity|]. unfold getBatchStatus. cbn [fst]. split.
  - now rewrite (Hk _ Hdiff), Hfree.
  - exists b. rewrite Hown. cbn. now rewrite Hb.
Qed.

(** The batch object as [processBatchApplications] creates it, and the
    world in which its loop starts: the id is drawn, the object is
    allocated and saved once. *)
Definition newBatch (uid : jsstring) (jobs : list jsstring) (w : World) : Batch :=
  {| id := idDrawn w; userId := uid; jobIds := jobs;
     status := processing; progress := 0; results := [];
     startTime := clock w; endTime := None |}.

Definition loopStart (uid : jsstring) (jobs : list jsstring) (w : World) : World :=
  {| clock := clock w; randoms := randoms w; drawn := S (drawn w);
     heap := <[nextRef w := newBatch uid jobs w]> (heap w);
     nextRef := S (nextRef w);
     batchStatuses := <[idDrawn w := nextRef w]> (batchStatuses w);
     trace := trace w ++ [EvSave (newBatch uid jobs w)] |}.

(** The batch object when the loop is over and it has been marked
    completed. *)
Definition doneBatch (uid : jsstring) (jobs : list jsstring) (w w3 : World)
    (rs : list ApplicationResult) (p : Z) : Batch :=
  {| id := idDrawn w; userId := uid; jobIds := jobs;
     status := completed; progress := p; results := rs;
     startTime := clock w; endTime := Some (clock w3) |}.

(** [processBatchApplications] around its loop. *)
Lemma processBatchApplications_loop (uid : jsstring) (jobs : list jsstring)
    (user : User) (w w3 : World) (rs : list ApplicationResult) (p : Z) :
  processJobs env uid user (nextRef w) (length jobs) 0 jobs (loopStart uid jobs w)
  = (Ok tt, w3) ->
  heap w3 !! nextRef w = Some (pushed (newBatch uid jobs w) rs p) ->
  processBatchApplications toString36 toUpperCase env uid jobs user w
  = (Ok tt,
     {| clock := clock w3; randoms := randoms w3; drawn := drawn w3;
        heap := <[nextRef w := doneBatch uid jobs w w3 rs p]> (heap w3);
        nextRef := nextRef w3;
        batchStatuses := <[idDrawn w := nextRef w]> (batchStatuses w3);
        trace := trace w3 ++ [EvSave (doneBatch uid jobs w w3 rs p)] |}).
Proof.
  intros Hrun Hb3.
  set (ref := nextRef w) in *.
  set (b0 := newBatch uid jobs w) in *.
  set (wa := {| clock := clock w; randoms := randoms w; drawn := S (drawn w);
                heap := <[ref := b0]> (heap w); nextRef := S (nextRef w);
                batchStatuses := batchStatuses w; trace := trace w |}).
  assert (Hba : heap wa !! ref = Some b0) by apply lookup_insert_eq.
  pose proof (saveBatchStatus_run ref b0 wa Hba) as Hsave0.
  pose proof (setCompleted_run ref _ (clock w3) w3 Hb3) as Hdone.
  cbn [pushed id userId jobIds status progress results startTime endTime
       b0 newBatch app] in Hdone.
  fold (doneBatch uid jobs w w3 rs p) in Hdone.
  match type of Hdone with
  | _ = (_, ?w4) =>
      assert (Hb4 : heap w4 !! ref = Some (doneBatch uid jobs w w3 rs p))
        by apply lookup_insert_eq;
      pose proof (saveBatchStatus_run ref _ w4 Hb4) as Hsave4
  end.
  unfold processBatchApplications. apply try_catch_ok.
  rewrite (bind_ok _ _ w
             {| clock := clock w; randoms := randoms w; drawn := S (drawn w);
                heap := heap w; nextRef := nextRef w;
                batchStatuses := batchStatuses w; trace := trace w |}
             (idDrawn w)) by reflexivity.
  erewrite (bind_ok newDate) by reflexivity.
  rewrite (bind_ok _ _ _ wa ref) by reflexivity.
  rewrite (bind_ok _ _ _ _ _ Hsave0).
  rewrite (bind_ok _ _ _ _ _ Hrun).
  erewrite (bind_ok newDate) by reflexivity.
  rewrite (bind_ok _ _ _ _ _ Hdone).
  exact Hsave4.
Qed.

(** C2. For every list of job ids processed as a batch and every
    position [k] in it: with [Job] unbound in the route file, as in the
    repository, the job at [k] fails like every other; the final batch
    holds exactly one result per job id, in the order of the list, the
    result at [k] has [success] false, the status is 'completed' and the
    progress is 100. *)
Theorem batch_ends_completed_at_100 (uid : jsstring) (jobs : list jsstring)
    (user : User) (w : World) (k : nat) :
  Job_unbound env -> (k < length jobs)%nat ->
  exists w' b,
    processBatchApplications toString36 toUpperCase env uid jobs user w
    = (Ok tt, w') /\
    batchOf (idDrawn w) w' = Some b /\
    length (results b) = length jobs /\
    List.map jobId (results b) = jobs /\
    (exists r, nth_error (results b) k = Some r /\ success r = false /\
               error r = Some (js "Job is not defined")) /\
    status b = completed /\ progress b = 100%Z.
Proof.
  intros Hjob Hk.
  assert (Hb0 : heap (loopStart uid jobs w) !! nextRef w
                = Some (newBatch uid jobs w)) by apply lookup_insert_eq.
  destruct (processJobs_progress env uid user (nextRef w) (length jobs) jobs
              0 _ _ Hb0) as (w3 & rs & p & tr & Hrun & Hb3 & Hp & _).
  destruct (processJobs_unbound env uid user (nextRef w) (length jobs) jobs
              Hjob 0 _ _ Hb0) as (w3' & p' & Hrun' & Hb3').
  rewrite Hrun in Hrun'. injection Hrun' as <-.
  rewrite Hb3 in Hb3'. injection Hb3' as _ Hrs. subst rs.
  rewrite lastProgress_unbound in Hp
    by (try exact Hjob; intros ->; cbn in Hk; lia).
  rewrite Nat.add_0_l, roundPercent_all in Hp by lia. subst p.
  eexists _, _. split.
  { exact (processBatchApplications_loop uid jobs user w w3 _ _ Hrun Hb3). }
  split.
  { unfold batchOf. cbn [batchStatuses heap]. rewrite lookup_insert_eq.
    cbn. apply lookup_insert_eq. }
  cbn [results status progress doneBatch].
  split; [apply length_map|].
  split.
  { rewrite List.map_map. cbn [notDefined failed jobId]. apply map_id. }
  split; [|now split].
  destruct (nth_error jobs k) as [j|] eqn:Hj.
  - exists (notDefined j). split; [|now split].
    now rewrite nth_error_map, Hj.
  - apply nth_error_None in Hj. lia.
Qed.

(** C4. For every list of job ids processed as a batch: with [Job]
    unbound in the route file, as in the repository, every job fails in
    the [catch] block of its iteration, and after every job of the list
    the delay of 5000 ms is performed before the next job is started (for
    the last job, before the batch is completed). *)
Theorem delay_follows_every_job (uid : jsstring) (jobs : list jsstring)
    (user : User) (w : World) :
  Job_unbound env ->
  exists w' tr,
    processBatchApplications toString36 toUpperCase env uid jobs user w
    = (Ok tt, w') /\
    trace w' = trace w ++ tr /\
    (forall i jobId, nth_error jobs i = Some jobId ->
       In (EvJob i jobId) tr /\ delayedAfter i tr) /\
    (exists b, batchOf (idDrawn w) w' = Some b /\
               Forall (fun r => success r = false) (results b)).
Proof.
  intros Hjob.
  assert (Hb0 : heap (loopStart uid jobs w) !! nextRef w
                = Some (newBatch uid jobs w)) by apply lookup_insert_eq.
  destruct (processJobs_progress env uid user (nextRef w) (length jobs) jobs
              0 _ _ Hb0) as (w3 & rs & p & tr & Hrun & Hb3 & _ & Htr & Hpaced).
  destruct (processJobs_unbound env uid user (nextRef w) (length jobs) jobs
              Hjob 0 _ _ Hb0) as (w3' & p' & Hrun' & Hb3').
  rewrite Hrun in Hrun'. injection Hrun' as <-.
  rewrite Hb3 in Hb3'. injection Hb3' as _ Hrs. subst rs.
  set (bf := doneBatch uid jobs w w3 (List.map notDefined jobs) p).
  eexists _, (EvSave (newBatch uid jobs w) :: tr ++ [EvSave bf]). split.
  { exact (processBatchApplications_loop uid jobs user w w3 _ _ Hrun Hb3). }
  split.
  { cbn [trace]. rewrite Htr. cbn [trace loopStart].
    now rewrite <- !app_assoc. }
  split.
  - intros i jobId Hi. split.
    + right. apply in_or_app. left.
      exact (paced_In env uid jobs 0 tr i jobId Hpaced Hi).
    + unfold delayedAfter. cbn [eventsBetween].
      apply (paced_delayedAfter env uid jobs 0 tr [EvSave bf] i jobId Hpaced).
      * repeat constructor.
      * intros [H | []]. discriminate H.
      * exact Hi.
      * now apply leavesByContinue_unbound.
  - exists bf. split.
    + unfold batchOf. cbn [batchStatuses heap]. rewrite lookup_insert_eq.
      cbn. apply lookup_insert_eq.
    + cbn [results bf doneBatch]. apply Forall_forall. intros r Hr.
      apply list_elem_of_In, in_map_iff in Hr as (j & <- & _). reflexivity.
Qed.

End WithRuntime.

(** *** Concrete runs *)

Example toString36_now : toString36 1700000000000 = js "loyw3v28".
Proof. reflexivity. Qed.

Example toString36_small :
  toString36 0 = js "0" /\ toString36 35 = js "z" /\ toString36 36 = js "10".
Proof. repeat split. Qed.

Definition engineerJob (jobId : jsstring) : Scraper.JobListing :=
  {| Scraper.id := jobId; Scraper.title := js "Data Engineer";
     Scraper.company :=
       {| Scraper.name := js "Acme"; Scraper.logo := None;
          Scraper.website := None |};
     Scraper.location := js "Remote";
     Scraper.applicationUrl := js "https://acme.myworkdayjobs.com/careers/7";
     Scraper.publishedAt := None; Scraper.isRemote := true |}.

Definition confirmingSession : Session :=
  {| launch := ready; drive := fun _ _ => Ok true;
     closeBrowser := Ok tt; now := 1700000000000 |}.

(** An environment of the repository as it stands: [Job] is unbound, so
    looking up a job throws whatever the id.  The other collaborators,
    which the batch loop then never reaches, are: a user with a complete
    profile and credentials for every portal, and an adapter run that, for
    the job at index [i], times out when [timesOut i] holds and finds the
    confirmation marker otherwise. *)
Definition envWith (timesOut : nat -> bool) : Env :=
  {| User_findById := fun _ => Ok (Some {| profileComplete := true |});
     Job_findById := fun _ _ => Throw (js "Job is not defined");
     hasCredentials := fun _ _ _ => Ok true;
     getCredentials := fun _ _ _ =>
       Ok (Some [(js "email", Vault.VString (js "ana@example.org"))]);
     buildUserProfile := fun _ _ => Ok tt;
     session := fun i => if timesOut i then timeoutSession else confirmingSession;
     Application_save := fun _ _ _ => Ok (js "665f1c0e9b1e8a0012345678") |}.

Definition world0 : World :=
  {| clock := 1700000000000;
     randoms := fun n => if (n =? 0)%nat then js "0.4fzyo82mvyr"
                         else js "0.k9x2m1qab7";
     drawn := 0; heap := ∅; nextRef := 0; batchStatuses := ∅; trace := [] |}.

Definition someUser : User := {| profileComplete := true |}.

(** The final state of the batch created by a run of
    [processBatchApplications] from [world0]. *)
Definition finalBatch (env : Env) (jobs : list jsstring) : option Batch :=
  batchOf (idDrawn toString36 asciiUpper world0)
    (world_after
       (processBatchApplications toString36 asciiUpper env (js "u1") jobs
          someUser) world0).

Definition sampleRequest : M World Response :=
  postBatch toString36 asciiUpper (envWith (fun _ => false)) (js "u1")
    (Some [js "job-7"; js "job-gone"]).

Lemma postBatch_id_not_tracked_witness :
  result sampleRequest world0
  = Ok (batchStarted 2 (idDrawn toString36 asciiUpper world0)) /\
  result (getBatchStatus (idDrawn toString36 asciiUpper world0))
         (world_after sampleRequest world0) = Ok None /\
  exists b,
    result (getBatchStatus (idDrawn toString36 asciiUpper (afterDraw world0)))
           (world_after sampleRequest world0) = Ok (Some b) /\
    status b = completed.
Proof.
  apply (postBatch_id_not_tracked toString36 asciiUpper
           (envWith (fun _ => false)) (js "u1")
           [js "job-7"; js "job-gone"] someUser world0).
  - discriminate.
  - reflexivity.
  - reflexivity.
  - vm_compute. discriminate.
  - reflexivity.
Defined.

Lemma batch_ends_completed_at_100_witness :
  exists w' b,
    processBatchApplications toString36 asciiUpper (envWith (fun _ => false))
      (js "u1") [js "job-7"; js "job-gone"] someUser world0
    = (Ok tt, w') /\
    batchOf (idDrawn toString36 asciiUpper world0) w' = Some b /\
    length (results b) = 2%nat /\
    List.map jobId (results b) = [js "job-7"; js "job-gone"] /\
    (exists r, nth_error (results b) 1 = Some r /\ success r = false /\
               error r = Some (js "Job is not defined")) /\
    status b = completed /\ progress b = 100%Z.
Proof.
  apply (batch_ends_completed_at_100 toString36 asciiUpper
           (envWith (fun _ => false)) (js "u1")
           [js "job-7"; js "job-gone"] someUser world0 1).
  - intros i jobId. reflexivity.
  - cbn [length]. lia.
Defined.

Lemma delay_follows_every_job_witness :
  exists w' tr,
    processBatchApplications toString36 asciiUpper (envWith (fun _ => false))
      (js "u1") [js "job-7"; js "job-gone"] someUser world0
    = (Ok tt, w') /\
    trace w' = trace world0 ++ tr /\
    (forall i jobId,
       nth_error [js "job-7"; js "job-gone"] i = Some jobId ->
       In (EvJob i jobId) tr /\ delayedAfter i tr) /\
    (exists b, batchOf (idDrawn toString36 asciiUpper world0) w' = Some b /\
               Forall (fun r => success r = false) (results b)).
Proof.
  apply (delay_follows_every_job toString36 asciiUpper
           (envWith (fun _ => false)) (js "u1")
           [js "job-7"; js "job-gone"] someUser world0).
  intros i jobId. reflexivity.
Defined.

Definition deadSession : Session :=
  {| launch := launchThrows; drive := fun _ _ => Ok true;
     closeBrowser := Ok tt; now := 1700000000000 |}.

(** C9 (as stated) fails: the entries of a batch's results carry no
    company, title, application URL or timestamp, and neither does the
    result [applyToJob] returns when no browser can be started. *)
Lemma results_not_complete_counterexample :
  (exists b,
      finalBatch (envWith (fun _ => false)) [js "job-7"; js "job-gone"] = Some b /\
      Forall (fun r => ~ complete r) (results b)) /\
  (exists r a',
      applyToJob deadSession (engineerJob (js "job-7")) new_AutomatedJobApplicant
      = (Ok r, a') /\ ~ complete r).
Proof.
  assert (Hno : forall r, company r = None -> ~ complete r).
  { intros r Hr [[c Hc] _]. congruence. }
  split.
  - eexists. split; [vm_compute; reflexivity|].
    repeat constructor; apply Hno; reflexivity.
  - eexists _, _. split; [reflexivity|]. apply Hno. reflexivity.
Qed.

(** C9 (as amended). Every value returned by [applyToJob] carries the job
    id and the outcome; when the adapter is reached it also carries
    company, title, application URL and timestamp, carries an error
    exactly when the adapter threw, and is appended to the applicant's
    results; when no browser can be started it carries only the outcome,
    the job id and an error and is not recorded.  Every element appended
    to a batch's results carries the job id and the outcome, with an
    application id on success, and none of company, title, application URL
    and timestamp; there is one per job id, in input order.  Nothing is
    changed once appended: the applicant's results and every saved state
    of the batch's results are prefixes of the later ones. *)
Theorem results_shapes_and_append_only
    (toString36 : Z -> jsstring) (toUpperCase : jsstring -> jsstring)
    (env : Env) (uid : jsstring) (jobs : list jsstring) (user : User)
    (w : World) (session : Session) (job : Scraper.JobListing)
    (a : Applicant) :
  (exists r a',
      applyToJob session job a = (Ok r, a') /\
      jobId r = Scraper.id job /\
      applicationResults a `prefix_of` applicationResults a' /\
      ((~ reachesAdapter session a /\ r = notInitialized job /\
        applicationResults a' = applicationResults a) \/
       (reachesAdapter session a /\
        is_Some (company r) /\ is_Some (title r) /\
        is_Some (applicationUrl r) /\ is_Some (timestamp r) /\
        (is_Some (error r) <-> exists m, adapterOutcome session job = Throw m) /\
        applicationResults a' = applicationResults a ++ [r]))) /\
  (exists w' b tr,
      processBatchApplications toString36 toUpperCase env uid jobs user w
      = (Ok tt, w') /\
      heap w' !! nextRef w = Some b /\
      List.map jobId (results b) = jobs /\
      Forall batchEntry (results b) /\
      trace w' = trace w ++ tr /\
      forall s, In (EvSave s) tr -> results s `prefix_of` results b).
Proof.
  split.
  - destruct (applyToJob_run session job a)
      as [[Hno (a' & Hrun & Hres)] | [Hyes (r & a' & Hrun & Hres & Hr)]].
    + exists (notInitialized job), a'. split; [exact Hrun|].
      split; [reflexivity|]. split; [now rewrite Hres|].
      left. now repeat split.
    + exists r, a'. split; [exact Hrun|].
      assert (Hshape :
        jobId r = Scraper.id job /\
        is_Some (company r) /\ is_Some (title r) /\
        is_Some (applicationUrl r) /\ is_Some (timestamp r) /\
        (is_Some (error r) <-> exists m, adapterOutcome session job = Throw m)).
      { subst r. destruct (adapterOutcome session job) as [marker|m]; cbn.
        - repeat split; try (now eexists).
          + intros [x Hx]. discriminate.
          + intros [m Hm]. discriminate.
        - repeat split; try (now eexists). }
      destruct Hshape as (Hj & Hshape).
      split; [exact Hj|]. split; [rewrite Hres; now apply prefix_app_r|].
      right. destruct Hshape as (H1 & H2 & H3 & H4 & H5).
      exact (conj Hyes (conj H1 (conj H2 (conj H3 (conj H4 (conj H5 Hres)))))).
  - destruct (processBatchApplications_spec toString36 toUpperCase env
                uid jobs user w)
      as (w' & b & tr & Hrun & Hb & _ & _ & Hres & Hall & _ & _ & Htr & Hpre & _).
    exists w', b, tr.
    exact (conj Hrun (conj Hb (conj Hres (conj Hall (conj Htr Hpre))))).
Qed.

End AutoApplyFacts.

(** ** The credential manager as a store: properties *)

Module VaultOpsFacts.
Import Portal Buf Vault VaultOps JSFacts BufFacts EffFacts VaultFacts.

Local Open Scope eff_scope.

(** What [save] does to a document of the collection. *)
Definition replaceBy (doc : CredentialDoc) (d : CredentialDoc) : CredentialDoc :=
  if decide (_id d = _id doc) then doc else d.

Lemma replaceBy_id (doc d : CredentialDoc) : _id (replaceBy doc d) = _id d.
Proof. unfold replaceBy. now destruct (decide (_id d = _id doc)). Qed.

(** Documents with distinct ids are told apart by their ids. *)
Lemma same_id_same_doc (x y : CredentialDoc) (coll : list CredentialDoc) :
  NoDup (List.map _id coll) -> In x coll -> In y coll -> _id x = _id y -> x = y.
Proof.
  intros Hnd Hx Hy Heq.
  induction coll as [|c coll IH]; [destruct Hx|].
  cbn [List.map] in Hnd. apply NoDup_cons in Hnd as [Hc Hnd].
  assert (Hin : forall z, In z coll -> _id z = _id c -> False).
  { intros z Hz Hzc. apply Hc. rewrite <- Hzc. apply list_elem_of_In.
    now apply in_map. }
  destruct Hx as [-> | Hx], Hy as [-> | Hy]; try reflexivity.
  - exfalso. apply (Hin y); [exact Hy | now symmetry].
  - exfalso. now apply (Hin x).
  - now apply IH.
Qed.

(** A filter that cannot tell the saved document from the one it
    replaces sees the same documents, saved. *)
Lemma filter_replaceBy (Q : CredentialDoc -> bool) (doc found : CredentialDoc)
    (coll : list CredentialDoc) :
  NoDup (List.map _id coll) -> In found coll -> _id doc = _id found ->
  Q doc = Q found ->
  List.filter Q (List.map (replaceBy doc) coll)
  = List.map (replaceBy doc) (List.filter Q coll).
Proof.
  intros Hnd Hf Hid HQ.
  assert (Hall : forall d, In d coll -> Q (replaceBy doc d) = Q d).
  { intros d Hd. unfold replaceBy.
    destruct (decide (_id d = _id doc)) as [Heq|]; [|reflexivity].
    rewrite Hid in Heq.
    now rewrite (same_id_same_doc d found coll Hnd Hd Hf Heq). }
  clear Hnd Hf. induction coll as [|c coll IH]; [reflexivity|].
  cbn [List.map List.filter]. rewrite (Hall c) by now left.
  rewrite IH by (intros d Hd; apply Hall; now right).
  now destruct (Q c).
Qed.

(** A filter that rejects the document found is not affected at all. *)
Lemma filter_replaceBy_other (Q : CredentialDoc -> bool)
    (doc found : CredentialDoc) (coll : list CredentialDoc) :
  NoDup (List.map _id coll) -> In found coll -> _id doc = _id found ->
  Q doc = false -> Q found = false ->
  List.filter Q (List.map (replaceBy doc) coll) = List.filter Q coll.
Proof.
  intros Hnd Hf Hid HQd HQf.
  rewrite (filter_replaceBy Q doc found) by congruence.
  rewrite <- (map_id (List.filter Q coll)) at 2.
  apply map_ext_in. intros d Hd. apply filter_In in Hd as [Hd HQ].
  unfold replaceBy.
  destruct (decide (_id d = _id doc)) as [Heq|]; [|reflexivity].
  rewrite Hid in Heq.
  rewrite (same_id_same_doc d found coll Hnd Hd Hf Heq) in HQ. congruence.
Qed.

Section WithCrypto.

Variable aes256cbc_encrypt : Buffer -> Buffer -> Buffer -> Buffer.
Variable cm : CredentialManager.
Hypothesis cm_key : length (fromHex (encryptionKey cm)) = 32%nat.

(** What a successful [storeCredentials] leaves behind: the document of
    the pair is replaced where it stands, or a new document is added at the
    end. *)
Lemma storeCredentials_collection (userId : jsstring) (p : PortalName)
    (bag : Obj) (w : World) :
  wfObj bag ->
  exists doc w',
    storeCredentials aes256cbc_encrypt cm userId p bag w = (Ok doc, w') /\
    user doc = userId /\ portal doc = p /\
    Forall2 (fun e e' => fst e' = fst e /\
                         storedAs aes256cbc_encrypt cm (snd e) (snd e'))
            (copiedFields bag) (credentials doc) /\
    clock w' = clock w /\
    match List.find (matchesPair userId p) (Credential w) with
    | Some found =>
        _id doc = _id found /\ nextId w' = nextId w /\
        Credential w' = List.map (replaceBy doc) (Credential w) /\
        createdAt doc = createdAt found /\ updatedAt doc = clock w
    | None =>
        _id doc = nextId w /\ nextId w' = S (nextId w) /\
        Credential w' = Credential w ++ [doc] /\
        createdAt doc = clock w /\ updatedAt doc = clock w
    end.
Proof using cm_key.
  intros Hwf.
  destruct (encryptFields_spec aes256cbc_encrypt cm cm_key bag emptyObject w
              Hwf (or_introl eq_refl))
    as (acc & stored & w1 & Henc & Hprops & Hall & Hcoll & Hnext & Hclock).
  cbn [app props emptyObject] in Hprops. rewrite <- Hprops in Hall.
  unfold storeCredentials.
  rewrite <- Hcoll, <- Hnext, <- Hclock.
  change (matchesPair userId p)
    with (fun d => bool_decide (user d = userId /\ portal d = p)).
  destruct (List.find _ (Credential w1)) as [found|] eqn:Hfind.
  - eexists _, _. split.
    { apply try_catch_ok. rewrite (bind_ok _ _ _ _ _ Henc).
      unfold bind at 1. unfold findOne. rewrite Hfind.
      unfold bind, newDate, save, modify, ret. reflexivity. }
    cbn [user portal credentials _id clock nextId Credential createdAt updatedAt].
    apply find_some in Hfind as [_ Hfound].
    apply bool_decide_eq_true_1 in Hfound as [Hu Hp].
    repeat split; try assumption.
  - eexists _, _. split.
    { apply try_catch_ok. rewrite (bind_ok _ _ _ _ _ Henc).
      unfold bind at 1. unfold findOne. rewrite Hfind.
      unfold create. reflexivity. }
    cbn [user portal credentials _id clock nextId Credential createdAt updatedAt].
    repeat split; assumption.
Qed.

Lemma find_none_filter {A} (P : A -> bool) (l : list A) :
  List.find P l = None -> List.filter P l = [].
Proof.
  induction l as [|x l IH]; [reflexivity|]. cbn.
  destruct (P x); [discriminate | exact IH].
Qed.

Lemma find_some_filter {A} (P : A -> bool) (l : list A) (x : A) :
  List.find P l = Some x -> exists rest, List.filter P l = x :: rest.
Proof.
  induction l as [|y l IH]; [discriminate|]. cbn.
  destruct (P y); [intros [= ->]; now eexists | exact IH].
Qed.

Lemma filter_head_find {A} (P : A -> bool) (l : list A) :
  List.find P l = hd_error (List.filter P l).
Proof.
  induction l as [|y l IH]; [reflexivity|]. cbn. now destruct (P y).
Qed.

(** The effect of a successful [storeCredentials] on what the other
    operations read: the documents of the pair, of every other pair, and
    the portals of every user. *)
Lemma storeCredentials_effect (userId : jsstring) (p : PortalName)
    (bag : Obj) (w : World) :
  wfObj bag -> distinctIds w ->
  exists doc w',
    storeCredentials aes256cbc_encrypt cm userId p bag w = (Ok doc, w') /\
    user doc = userId /\ portal doc = p /\
    Forall2 (fun e e' => fst e' = fst e /\
                         storedAs aes256cbc_encrypt cm (snd e) (snd e'))
            (copiedFields bag) (credentials doc) /\
    distinctIds w' /\
    (exists rest, List.filter (matchesPair userId p) (Credential w')
                  = doc :: rest /\
                  length rest = pred (pairCount userId p w)) /\
    (forall u' p', (u', p') <> (userId, p) ->
       List.filter (matchesPair u' p') (Credential w')
       = List.filter (matchesPair u' p') (Credential w)) /\
    (forall u',
       List.map portal
         (List.filter (fun d => bool_decide (user d = u')) (Credential w'))
       = List.map portal
           (List.filter (fun d => bool_decide (user d = u')) (Credential w))
         ++ (if decide (u' = userId /\ pairCount userId p w = 0%nat)
             then [p] else [])).
Proof using cm_key.
  intros Hwf [Hnd Hlt].
  destruct (storeCredentials_collection userId p bag w Hwf)
    as (doc & w' & Hrun & Hu & Hp & Hall & _ & Hcase).
  exists doc, w'. split; [exact Hrun|]. split; [exact Hu|]. split; [exact Hp|].
  split; [exact Hall|].
  assert (Hdoc : matchesPair userId p doc = true).
  { apply bool_decide_eq_true_2. now split. }
  assert (Hother : forall u' p', (u', p') <> (userId, p) ->
                                 matchesPair u' p' doc = false).
  { intros u' p' Hne. apply bool_decide_eq_false_2. intros [H1 H2].
    apply Hne. congruence. }
  unfold pairCount, distinctIds.
  destruct (List.find (matchesPair userId p) (Credential w)) as [found|] eqn:Hfind.
  - destruct Hcase as (Hid & Hnext & Hcoll & _).
    pose proof (find_some _ _ Hfind) as [Hin Hfound].
    pose proof Hfound as Hpair.
    apply bool_decide_eq_true_1 in Hpair as [Hfu Hfp].
    rewrite Hcoll. split; [|split; [|split]].
    + split.
      * rewrite List.map_map. erewrite map_ext; [exact Hnd|].
        intros d. apply replaceBy_id.
      * rewrite Hnext. apply Forall_forall. intros d Hd.
        apply list_elem_of_In, in_map_iff in Hd as (d0 & <- & Hd0).
        rewrite replaceBy_id. rewrite List.Forall_forall in Hlt. now apply Hlt.
    + rewrite (filter_replaceBy _ doc found) by congruence.
      destruct (find_some_filter _ _ _ Hfind) as (rest & Hrest).
      rewrite Hrest. cbn [List.map length pred].
      unfold replaceBy at 1. rewrite decide_True by congruence.
      eexists. split; [reflexivity|]. now rewrite length_map.
    + intros u' p' Hne.
      apply (filter_replaceBy_other _ doc found); try assumption.
      * now apply Hother.
      * apply bool_decide_eq_false_2. intros [H1 H2]. apply Hne. congruence.
    + intros u'.
      rewrite (filter_replaceBy _ doc found); try assumption.
      2:{ apply bool_decide_ext. now rewrite Hu, Hfu. }
      rewrite List.map_map.
      destruct (find_some_filter _ _ _ Hfind) as (rest & Hrest).
      rewrite decide_False by (rewrite Hrest; cbn; intros [_ H]; discriminate).
      rewrite app_nil_r. apply map_ext_in. intros d Hd.
      apply filter_In in Hd as [Hd _]. unfold replaceBy.
      destruct (decide (_id d = _id doc)) as [Heq|]; [|reflexivity].
      rewrite Hid in Heq.
      rewrite (same_id_same_doc d found _ Hnd Hd Hin Heq). congruence.
  - destruct Hcase as (Hid & Hnext & Hcoll & _).
    rewrite Hcoll, (find_none_filter _ _ Hfind). split; [|split; [|split]].
    + split.
      * rewrite map_app. cbn [List.map]. apply NoDup_app. split; [exact Hnd|].
        split; [|apply NoDup_singleton].
        intros x Hx Hx'. apply list_elem_of_In in Hx' as [<- | []].
        apply list_elem_of_In, in_map_iff in Hx as (d & Hd & Hin).
        rewrite List.Forall_forall in Hlt. specialize (Hlt d Hin). lia.
      * rewrite Hnext. apply Forall_app. split.
        -- eapply Forall_impl; [exact Hlt|]. cbn. intros; lia.
        -- apply Forall_cons. split; [lia | apply Forall_nil_2].
    + rewrite List.filter_app, (find_none_filter _ _ Hfind). cbn [List.filter app].
      rewrite Hdoc. now exists [].
    + intros u' p' Hne. rewrite List.filter_app. cbn [List.filter].
      rewrite (Hother u' p' Hne). now rewrite app_nil_r.
    + intros u'. rewrite List.filter_app, map_app. f_equal. cbn [List.filter length].
      destruct (decide (u' = userId /\ 0%nat = 0%nat)) as [[-> _]|Hne].
      * rewrite bool_decide_eq_true_2 by exact Hu. cbn. now rewrite Hp.
      * rewrite bool_decide_eq_false_2; [reflexivity|].
        intros H. apply Hne. split; congruence.
Qed.

End WithCrypto.

(** Removing the first document of a pair. *)
Lemma removeFirst_none (P : CredentialDoc -> bool) (coll : list CredentialDoc) :
  List.filter P coll = [] -> removeFirst P coll = (coll, false).
Proof.
  induction coll as [|d coll IH]; [reflexivity|]. cbn [List.filter removeFirst].
  destruct (P d); [discriminate|]. intros H. now rewrite (IH H).
Qed.

Lemma removeFirst_some (P : CredentialDoc -> bool) (coll : list CredentialDoc)
    (d : CredentialDoc) (rest : list CredentialDoc) :
  List.filter P coll = d :: rest ->
  snd (removeFirst P coll) = true /\
  List.filter P (fst (removeFirst P coll)) = rest.
Proof.
  induction coll as [|c coll IH]; [discriminate|]. cbn [List.filter removeFirst].
  destruct (P c) eqn:HP.
  - intros [= <- <-]. now split.
  - intros H. destruct (IH H) as [H1 H2].
    destruct (removeFirst P coll) as [rest' found]. cbn [fst snd] in *.
    split; [exact H1|]. cbn [List.filter]. now rewrite HP.
Qed.

Lemma removeFirst_other (P Q : CredentialDoc -> bool)
    (coll : list CredentialDoc) :
  (forall d, P d = true -> Q d = false) ->
  List.filter Q (fst (removeFirst P coll)) = List.filter Q coll.
Proof.
  intros HPQ. induction coll as [|c coll IH]; [reflexivity|].
  cbn [List.filter removeFirst]. destruct (P c) eqn:HP.
  - cbn [fst]. now rewrite (HPQ c HP).
  - destruct (removeFirst P coll) as [rest' found]. cbn [fst] in *.
    cbn [List.filter]. now rewrite IH.
Qed.

Lemma matchesPair_apart (userId u' : jsstring) (p p' : PortalName)
    (d : CredentialDoc) :
  (u', p') <> (userId, p) ->
  matchesPair userId p d = true -> matchesPair u' p' d = false.
Proof.
  intros Hne H. apply bool_decide_eq_true_1 in H as [H1 H2].
  apply bool_decide_eq_false_2. intros [H3 H4]. apply Hne. congruence.
Qed.

Section Reading.

Variable aes256cbc_decrypt : Buffer -> Buffer -> Buffer -> option Buffer.
Variable cm : CredentialManager.

(** Decryption reads nothing of the world and leaves it alone. *)
Lemma decrypt_pure (s : jsstring) :
  exists r, forall w, decrypt aes256cbc_decrypt cm s w = (r, w).
Proof.
  unfold decrypt. destruct s as [|c s]; [eexists; intros; reflexivity|].
  unfold try_catch, bind, createDecipheriv, createCipheriv, ret, throw.
  destruct (splitColon (c :: s)) as [|p0 [|p1 [|p2 ps]]];
    try (eexists; intros; reflexivity).
  destruct (length (fromHex (encryptionKey cm)) =? 32)%nat;
    [|eexists; intros; reflexivity].
  destruct (length (fromHex p0) =? 16)%nat; [|eexists; intros; reflexivity].
  destruct (aes256cbc_decrypt _ _ _); eexists; intros; reflexivity.
Qed.

Lemma decryptFields_pure (entries : Obj) :
  forall acc, exists r, forall w,
    decryptFields aes256cbc_decrypt cm entries acc w = (r, w).
Proof.
  induction entries as [|[k v] rest IH]; intros acc.
  - eexists; intros; reflexivity.
  - cbn [decryptFields]. destruct v as [s|z|b|]; try apply IH.
    destruct (includes s (js ":")); [|apply IH].
    destruct (decrypt_pure s) as [[d|e] Hd].
    + destruct (IH (objSet acc k d)) as [r Hr]. exists r. intros w.
      unfold bind. rewrite Hd. apply Hr.
    + exists (Throw e). intros w. unfold bind. now rewrite Hd.
Qed.

(** [getCredentials] depends on the collection through the first document
    of the pair only, and writes nothing. *)
Lemma getCredentials_reads (userId : jsstring) (p : PortalName) (w1 w2 : World) :
  List.filter (matchesPair userId p) (Credential w1)
  = List.filter (matchesPair userId p) (Credential w2) ->
  result (getCredentials aes256cbc_decrypt cm userId p) w1
  = result (getCredentials aes256cbc_decrypt cm userId p) w2.
Proof.
  intros H. unfold result, getCredentials, try_catch, bind, findOne.
  change (fun d => bool_decide (user d = userId /\ portal d = p))
    with (matchesPair userId p).
  rewrite !filter_head_find, H.
  destruct (hd_error _) as [c|]; [|reflexivity].
  destruct (decryptFields_pure (credentials c) emptyObject) as [[d|e] Hr];
    rewrite !Hr; reflexivity.
Qed.

Lemma getCredentials_none (userId : jsstring) (p : PortalName) (w : World) :
  List.filter (matchesPair userId p) (Credential w) = [] ->
  getCredentials aes256cbc_decrypt cm userId p w = (Ok None, w).
Proof.
  intros H. unfold getCredentials, try_catch, bind, findOne.
  change (fun d => bool_decide (user d = userId /\ portal d = p))
    with (matchesPair userId p).
  now rewrite filter_head_find, H.
Qed.

Lemma hasCredentials_run (userId : jsstring) (p : PortalName) (w : World) :
  hasCredentials cm userId p w = (Ok (0 <? pairCount userId p w)%nat, w).
Proof. reflexivity. Qed.

Lemma listUserPortals_run (userId : jsstring) (w : World) :
  listUserPortals cm userId w
  = (Ok (List.map portal
           (List.filter (fun d => bool_decide (user d = userId)) (Credential w))),
     w).
Proof. reflexivity. Qed.

Lemma deleteCredentials_run (userId : jsstring) (p : PortalName) (w : World) :
  deleteCredentials cm userId p w
  = (Ok (snd (removeFirst (matchesPair userId p) (Credential w))),
     {| entropy := entropy w; cursor := cursor w; clock := clock w;
        Credential := fst (removeFirst (matchesPair userId p) (Credential w));
        nextId := nextId w |}).
Proof.
  unfold deleteCredentials, try_catch, bind, deleteOne, ret.
  destruct (removeFirst _ _) as [rest [|]]; reflexivity.
Qed.

End Reading.

(** Sample data: a second user and a vault that already holds two
    documents. *)
Definition tokenBag : Obj :=
  [(js "token", VString (js "s3cr3t:with:colons")); (js "attempts", VNumber 3)].

Definition w2docs : World :=
  {| entropy := fun i => byteOf (N.of_nat (11 * i + 5));
     cursor := 4; clock := 1700000360000;
     Credential :=
       [ {| _id := 0; user := js "u1"; portal := p_indeed;
            credentials := [(js "pin", VNumber 1234)];
            createdAt := 1700000000000; updatedAt := 1700000000000 |};
         {| _id := 1; user := js "u2"; portal := p_linkedin;
            credentials := [(js "remember", VBool true)];
            createdAt := 1700000100000; updatedAt := 1700000100000 |} ];
     nextId := 2 |}.

Lemma wfObj_tokenBag : wfObj tokenBag.
Proof. unfold wfObj. apply (bool_decide_unpack _). vm_compute. exact I. Qed.

Lemma distinctIds_w0 : distinctIds w0.
Proof. split; [apply NoDup_nil_2 | apply Forall_nil_2]. Qed.

Lemma uniqueIndex_w0 : uniqueIndex w0.
Proof. intros u p. cbn. lia. Qed.

Lemma distinctIds_w2docs : distinctIds w2docs.
Proof.
  split.
  - apply (bool_decide_unpack _). vm_compute. exact I.
  - repeat (apply Forall_cons; split; [cbn; lia|]). apply Forall_nil_2.
Qed.

Lemma uniqueIndex_w2docs : uniqueIndex w2docs.
Proof.
  intros u p. unfold pairCount, w2docs. cbn [Credential List.filter].
  unfold matchesPair. cbn [user portal].
  repeat case_bool_decide; cbn [length]; try lia.
  exfalso. destruct_and!. congruence.
Qed.

Section Lifecycle.

Variable aes256cbc_encrypt : Buffer -> Buffer -> Buffer -> Buffer.
Variable aes256cbc_decrypt : Buffer -> Buffer -> Buffer -> option Buffer.
Hypothesis aes256cbc_decrypt_encrypt :
  forall key iv message,
    length key = 32%nat -> length iv = 16%nat ->
    aes256cbc_decrypt key iv (aes256cbc_encrypt key iv message) = Some message.
Variable cm : CredentialManager.
Hypothesis cm_key : length (fromHex (encryptionKey cm)) = 32%nat.

(** X1. [storeCredentials] maintains the database invariants by itself:
    on a collection with distinct document ids and at most one document
    per (user, portal), it returns, and afterwards the ids are still
    distinct, there is still at most one document per pair, and exactly one
    for the pair stored. *)
Theorem storeCredentials_keeps_one_document_per_pair
    (userId : jsstring) (p : PortalName) (bag : Obj) (w : World) :
  wfObj bag -> distinctIds w -> uniqueIndex w ->
  exists doc w',
    storeCredentials aes256cbc_encrypt cm userId p bag w = (Ok doc, w') /\
    distinctIds w' /\ uniqueIndex w' /\ pairCount userId p w' = 1%nat.
Proof using cm_key.
  intros Hwf Hd Hu.
  destruct (storeCredentials_effect aes256cbc_encrypt cm cm_key userId p bag w
              Hwf Hd)
    as (doc & w' & Hrun & _ & _ & _ & Hd' & (rest & Hf & Hlen) & Hother & _).
  exists doc, w'. split; [exact Hrun|]. split; [exact Hd'|].
  assert (Hone : pairCount userId p w' = 1%nat).
  { unfold pairCount. rewrite Hf. cbn [length]. specialize (Hu userId p). lia. }
  split; [|exact Hone].
  intros u' p'. destruct (decide ((u', p') = (userId, p))) as [Heq|Hne].
  - injection Heq as -> ->. lia.
  - unfold pairCount. rewrite (Hother u' p' Hne). apply Hu.
Qed.

(** X2. Storing twice for the same user and portal updates in place: the
    second call keeps the document id and the creation date, takes the
    update date from the clock it reads, adds no document, and
    [getCredentials] then returns the copied fields of the second bag (read
    back), not those of the first. *)
Theorem storeCredentials_twice_updates_in_place
    (userId : jsstring) (p : PortalName) (bag1 bag2 : Obj) (w : World) :
  wfObj bag1 -> wfObj bag2 ->
  exists doc1 w1 doc2 w2,
    storeCredentials aes256cbc_encrypt cm userId p bag1 w = (Ok doc1, w1) /\
    storeCredentials aes256cbc_encrypt cm userId p bag2 w1 = (Ok doc2, w2) /\
    _id doc2 = _id doc1 /\ createdAt doc2 = createdAt doc1 /\
    updatedAt doc2 = clock w1 /\
    length (Credential w2) = length (Credential w1) /\
    nextId w2 = nextId w1 /\
    result (getCredentials aes256cbc_decrypt cm userId p) w2
    = Ok (Some (List.map roundTripEntry (copiedFields bag2))).
Proof using cm_key aes256cbc_decrypt_encrypt.
  intros Hwf1 Hwf2.
  destruct (storeCredentials_collection aes256cbc_encrypt cm cm_key
              userId p bag1 w Hwf1)
    as (doc1 & w1 & Hrun1 & Hu1 & Hp1 & _ & Hclock1 & Hcase1).
  destruct (storeCredentials_collection aes256cbc_encrypt cm cm_key
              userId p bag2 w1 Hwf2)
    as (doc2 & w2 & Hrun2 & _ & _ & _ & _ & Hcase2).
  assert (Hdoc1 : matchesPair userId p doc1 = true).
  { apply bool_decide_eq_true_2. now split. }
  assert (Hfind1 : List.find (matchesPair userId p) (Credential w1) = Some doc1).
  { destruct (List.find (matchesPair userId p) (Credential w)) as [c|] eqn:Hfind.
    - destruct Hcase1 as (Hid & _ & Hcoll & _). rewrite Hcoll.
      now apply (find_after_save _ _ c).
    - destruct Hcase1 as (_ & _ & Hcoll & _). rewrite Hcoll.
      now apply find_after_create. }
  rewrite Hfind1 in Hcase2. destruct Hcase2 as (Hid & Hnext & Hcoll & Hc & Hupd).
  exists doc1, w1, doc2, w2.
  split; [exact Hrun1|]. split; [exact Hrun2|]. split; [exact Hid|].
  split; [exact Hc|]. split; [exact Hupd|].
  split; [now rewrite Hcoll, length_map|]. split; [exact Hnext|].
  destruct (getCredentials_after_storeCredentials
              aes256cbc_encrypt aes256cbc_decrypt aes256cbc_decrypt_encrypt
              cm cm_key userId p bag2 w1 Hwf2) as [_ Hget].
  unfold world_after in Hget. now rewrite Hrun2 in Hget.
Qed.

(** X3. Storing for one (user, portal) pair leaves every other pair as
    it was: what [getCredentials] and [hasCredentials] answer for another
    user, or for the same user on another portal, is unchanged. *)
Theorem storeCredentials_leaves_other_pairs
    (userId : jsstring) (p : PortalName) (bag : Obj) (w : World)
    (u' : jsstring) (p' : PortalName) :
  wfObj bag -> distinctIds w -> (u', p') <> (userId, p) ->
  result (getCredentials aes256cbc_decrypt cm u' p')
         (world_after (storeCredentials aes256cbc_encrypt cm userId p bag) w)
  = result (getCredentials aes256cbc_decrypt cm u' p') w /\
  result (hasCredentials cm u' p')
         (world_after (storeCredentials aes256cbc_encrypt cm userId p bag) w)
  = result (hasCredentials cm u' p') w.
Proof using cm_key.
  intros Hwf Hd Hne.
  destruct (storeCredentials_effect aes256cbc_encrypt cm cm_key userId p bag w
              Hwf Hd)
    as (doc & w' & Hrun & _ & _ & _ & _ & _ & Hother & _).
  unfold world_after. rewrite Hrun. cbn [snd]. split.
  - apply getCredentials_reads. now apply Hother.
  - unfold result. rewrite !hasCredentials_run. cbn [fst].
    unfold pairCount. now rewrite Hother.
Qed.

(** X4. The life of one credential: after [storeCredentials],
    [hasCredentials] answers true; [deleteCredentials] then answers true,
    after which [hasCredentials] answers false, [getCredentials] returns
    null, and a second [deleteCredentials] answers false and changes
    nothing. *)
Theorem deleteCredentials_after_storeCredentials
    (userId : jsstring) (p : PortalName) (bag : Obj) (w : World) :
  wfObj bag -> distinctIds w -> uniqueIndex w ->
  exists doc w1 w2,
    storeCredentials aes256cbc_encrypt cm userId p bag w = (Ok doc, w1) /\
    result (hasCredentials cm userId p) w1 = Ok true /\
    deleteCredentials cm userId p w1 = (Ok true, w2) /\
    result (hasCredentials cm userId p) w2 = Ok false /\
    result (getCredentials aes256cbc_decrypt cm userId p) w2 = Ok None /\
    deleteCredentials cm userId p w2 = (Ok false, w2).
Proof using cm_key.
  intros Hwf Hd Hu.
  destruct (storeCredentials_effect aes256cbc_encrypt cm cm_key userId p bag w
              Hwf Hd)
    as (doc & w1 & Hrun & _ & _ & _ & _ & (rest & Hf & Hlen) & _ & _).
  assert (rest = []) as ->.
  { apply length_zero_iff_nil. specialize (Hu userId p). lia. }
  destruct (removeFirst_some _ _ _ _ Hf) as [Hfound Hrest].
  eexists doc, w1, _. split; [exact Hrun|]. split; [|split; [|split; [|split]]].
  - unfold result. rewrite hasCredentials_run. unfold pairCount. now rewrite Hf.
  - rewrite deleteCredentials_run, Hfound. reflexivity.
  - unfold result. rewrite hasCredentials_run. unfold pairCount.
    cbn [Credential]. now rewrite Hrest.
  - unfold result. now rewrite getCredentials_none.
  - rewrite deleteCredentials_run. cbn [Credential entropy cursor clock nextId].
    now rewrite (removeFirst_none _ _ Hrest).
Qed.

(** X5. Deleting where nothing is stored answers false and leaves the
    world as it is, and the route [DELETE /:portal] then answers 404 with
    the portal in its message. *)
Theorem deleteCredentials_absent
    (userId : jsstring) (p : PortalName) (w : World) :
  pairCount userId p w = 0%nat ->
  deleteCredentials cm userId p w = (Ok false, w) /\
  deleteCredentialsRoute cm userId (portalString p) w
  = (Ok (credentialError 404 (js "No credentials found for " ++ portalString p)),
     w).
Proof.
  intros H. apply length_zero_iff_nil in H.
  assert (Hdel : deleteCredentials cm userId p w = (Ok false, w)).
  { rewrite deleteCredentials_run, (removeFirst_none _ _ H). now destruct w. }
  split; [exact Hdel|].
  unfold deleteCredentialsRoute. apply try_catch_ok.
  replace (portalOfString (portalString p)) with (Some p)
    by (now destruct p).
  now rewrite (bind_ok _ _ _ _ _ Hdel).
Qed.

(** X6. [deleteCredentials] touches its own pair only: whatever is
    stored, the answers of [getCredentials] and [hasCredentials] for any
    other (user, portal) are the same before and after. *)
Theorem deleteCredentials_leaves_other_pairs
    (userId : jsstring) (p : PortalName) (w : World)
    (u' : jsstring) (p' : PortalName) :
  (u', p') <> (userId, p) ->
  result (getCredentials aes256cbc_decrypt cm u' p')
         (world_after (deleteCredentials cm userId p) w)
  = result (getCredentials aes256cbc_decrypt cm u' p') w /\
  result (hasCredentials cm u' p')
         (world_after (deleteCredentials cm userId p) w)
  = result (hasCredentials cm u' p') w.
Proof.
  intros Hne. unfold world_after. rewrite deleteCredentials_run. cbn [snd].
  assert (H : List.filter (matchesPair u' p')
                (fst (removeFirst (matchesPair userId p) (Credential w)))
              = List.filter (matchesPair u' p') (Credential w)).
  { apply removeFirst_other. intros d. now apply matchesPair_apart. }
  split.
  - now apply getCredentials_reads.
  - unfold result. rewrite !hasCredentials_run. cbn [fst].
    unfold pairCount. cbn [Credential]. now rewrite H.
Qed.

(** X7. What [storeCredentials] does to [listUserPortals]: the portal is
    added at the end of the storing user's list when that user had no
    document for it, and every other list, and the user's own list on an
    update, stays as it was. *)
Theorem listUserPortals_after_storeCredentials
    (userId : jsstring) (p : PortalName) (bag : Obj) (w : World)
    (u' : jsstring) :
  wfObj bag -> distinctIds w ->
  exists doc w' before,
    storeCredentials aes256cbc_encrypt cm userId p bag w = (Ok doc, w') /\
    result (listUserPortals cm u') w = Ok before /\
    result (listUserPortals cm u') w'
    = Ok (before ++ (if decide (u' = userId /\ pairCount userId p w = 0%nat)
                     then [p] else [])).
Proof using cm_key.
  intros Hwf Hd.
  destruct (storeCredentials_effect aes256cbc_encrypt cm cm_key userId p bag w
              Hwf Hd)
    as (doc & w' & Hrun & _ & _ & _ & _ & _ & _ & Hlist).
  eexists doc, w', _. split; [exact Hrun|]. unfold result.
  rewrite !listUserPortals_run. cbn [fst]. split; [reflexivity|].
  now rewrite Hlist.
Qed.

End Lifecycle.

(** X8. [listUserPortals] and [hasCredentials] agree: a portal is in
    the user's list exactly when [hasCredentials] answers true for it; and
    under the unique index no portal is listed twice. *)
Theorem listUserPortals_agrees_with_hasCredentials
    (cm : CredentialManager) (userId : jsstring) (w : World) :
  exists portals,
    result (listUserPortals cm userId) w = Ok portals /\
    (forall p, In p portals <->
               result (hasCredentials cm userId p) w = Ok true) /\
    (uniqueIndex w -> NoDup portals).
Proof.
  eexists. unfold result. rewrite listUserPortals_run. cbn [fst].
  split; [reflexivity|].
  assert (Hin : forall coll p,
    In p (List.map portal
            (List.filter (fun d => bool_decide (user d = userId)) coll))
    <-> (0 < length (List.filter (matchesPair userId p) coll))%nat).
  { intros coll p. induction coll as [|c coll IH]; [cbn; lia|].
    cbn [List.filter]. unfold matchesPair at 1.
    destruct (decide (user c = userId)) as [Hu|Hu].
    - rewrite (bool_decide_eq_true_2 _ Hu). cbn [List.map In].
      destruct (decide (portal c = p)) as [Hp|Hp].
      + rewrite bool_decide_eq_true_2 by now split. cbn [length].
        split; [lia | now left].
      + rewrite bool_decide_eq_false_2 by (intros [_ H]; contradiction).
        rewrite <- IH. split; [intros [H|H]; [contradiction | exact H] | now right].
    - rewrite (bool_decide_eq_false_2 _ Hu).
      rewrite bool_decide_eq_false_2 by (intros [H _]; contradiction).
      exact IH. }
  split.
  - intros p. rewrite hasCredentials_run. cbn [fst]. rewrite Hin.
    unfold pairCount. split.
    + intros H. f_equal. now apply Nat.ltb_lt.
    + intros [= H]. now apply Nat.ltb_lt.
  - unfold uniqueIndex, pairCount. generalize (Credential w). intros coll Hu.
    induction coll as [|c coll IH]; [apply NoDup_nil_2|].
    assert (Hrest : forall u p,
      (length (List.filter (matchesPair u p) coll) <= 1)%nat).
    { intros u p. specialize (Hu u p). cbn [List.filter] in Hu.
      destruct (matchesPair u p c); cbn [length] in Hu; lia. }
    cbn [List.filter]. destruct (decide (user c = userId)) as [Hc|Hc].
    + rewrite (bool_decide_eq_true_2 _ Hc). cbn [List.map].
      apply NoDup_cons. split; [|now apply IH].
      intros Hdup. apply list_elem_of_In, Hin in Hdup.
      specialize (Hu userId (portal c)). cbn [List.filter] in Hu.
      unfold matchesPair at 1 in Hu.
      rewrite bool_decide_eq_true_2 in Hu by now split.
      cbn [length] in Hu. lia.
    + rewrite (bool_decide_eq_false_2 _ Hc). now apply IH.
Qed.

Lemma portalOfString_portalString (p : PortalName) :
  portalOfString (portalString p) = Some p.
Proof. now destruct p. Qed.

Lemma portalOfString_Some (s : jsstring) (p : PortalName) :
  portalOfString s = Some p -> portalString p = s.
Proof.
  intros H. apply find_some in H as [_ H]. now apply bool_decide_eq_true_1 in H.
Qed.

Section Routes.

Variable aes256cbc_encrypt : Buffer -> Buffer -> Buffer -> Buffer.
Variable aes256cbc_decrypt : Buffer -> Buffer -> Buffer -> option Buffer.
Hypothesis aes256cbc_decrypt_encrypt :
  forall key iv message,
    length key = 32%nat -> length iv = 16%nat ->
    aes256cbc_decrypt key iv (aes256cbc_encrypt key iv message) = Some message.
Variable cm : CredentialManager.
Hypothesis cm_key : length (fromHex (encryptionKey cm)) = 32%nat.

(** After a successful [storeCredentials] the first document of the pair
    is the returned one, whatever the collection looked like. *)
Lemma storeCredentials_found (userId : jsstring) (p : PortalName)
    (bag : Obj) (w : World) :
  wfObj bag ->
  exists doc w',
    storeCredentials aes256cbc_encrypt cm userId p bag w = (Ok doc, w') /\
    user doc = userId /\ portal doc = p /\
    List.find (matchesPair userId p) (Credential w') = Some doc.
Proof using cm_key.
  intros Hwf.
  destruct (storeCredentials_collection aes256cbc_encrypt cm cm_key
              userId p bag w Hwf)
    as (doc & w' & Hrun & Hu & Hp & _ & _ & Hcase).
  exists doc, w'. split; [exact Hrun|]. split; [exact Hu|]. split; [exact Hp|].
  assert (Hdoc : matchesPair userId p doc = true).
  { apply bool_decide_eq_true_2. now split. }
  destruct (List.find (matchesPair userId p) (Credential w)) as [c|] eqn:Hfind.
  - destruct Hcase as (Hid & _ & Hcoll & _). rewrite Hcoll.
    now apply (find_after_save _ _ c).
  - destruct Hcase as (_ & _ & Hcoll & _). rewrite Hcoll.
    now apply find_after_create.
Qed.

(** X9. [POST /:portal] with one of the seven portal names and a
    non-empty body answers that the credentials were stored, and right
    after it [GET /:portal] answers [hasCredentials: true] and [GET /]
    lists the portal, for the same user. *)
Theorem postCredentials_then_getHasCredentials
    (userId : jsstring) (p : PortalName) (body : Obj) (w : World) :
  wfObj body -> body <> [] ->
  exists w',
    postCredentials aes256cbc_encrypt cm userId (portalString p) (Some body) w
    = (Ok (credentialsStored
             (js "Credentials for " ++ portalString p
              ++ js " stored successfully")), w') /\
    getHasCredentials cm userId (portalString p) w'
    = (Ok (hasCredentialsAnswer true), w') /\
    exists portals,
      getPortals cm userId w' = (Ok (portalList portals), w') /\ In p portals.
Proof using cm_key.
  intros Hwf Hne.
  destruct (storeCredentials_found userId p body w Hwf)
    as (doc & w' & Hrun & Hu & Hp & Hfind).
  exists w'. split; [|split].
  - unfold postCredentials. apply try_catch_ok.
    rewrite portalOfString_portalString.
    destruct body as [|e body]; [contradiction|].
    now rewrite (bind_ok _ _ _ _ _ Hrun).
  - unfold getHasCredentials. apply try_catch_ok.
    rewrite portalOfString_portalString.
    rewrite (bind_ok _ _ _ _ _ (hasCredentials_run cm userId p w')).
    unfold pairCount. destruct (find_some_filter _ _ _ Hfind) as (rest & ->).
    reflexivity.
  - eexists. split.
    + unfold getPortals. apply try_catch_ok.
      now rewrite (bind_ok _ _ _ _ _ (listUserPortals_run cm userId w')).
    + apply find_some in Hfind as [Hin _]. rewrite <- Hp.
      apply in_map, filter_In. split; [exact Hin|].
      now apply bool_decide_eq_true_2.
Qed.

(** X10. [POST /:portal] always answers, and it answers "stored" exactly
    when the portal is one of the seven names and the body is a non-empty
    object; every other request gets a 400 and changes nothing in the
    vault. *)
Theorem postCredentials_stores_iff
    (userId : jsstring) (s : jsstring) (body : option Obj) (w : World) :
  (forall b, body = Some b -> wfObj b) ->
  exists resp w',
    postCredentials aes256cbc_encrypt cm userId s body w = (Ok resp, w') /\
    ((exists m, resp = credentialsStored m) <->
     ((exists p, portalString p = s) /\ exists b, body = Some b /\ b <> [])) /\
    ((forall m, resp <> credentialsStored m) ->
     w' = w /\ exists m, resp = credentialError 400 m).
Proof using cm_key.
  intros Hwf. unfold postCredentials.
  destruct (portalOfString s) as [p|] eqn:Hp.
  - apply portalOfString_Some in Hp as <-.
    destruct body as [[|e b]|].
    + eexists _, w. split; [reflexivity|]. split.
      * split; [intros [m [=]] | intros [_ (b & [= <-] & Hb)]; contradiction].
      * intros _. split; [reflexivity | now eexists].
    + destruct (storeCredentials_found userId p (e :: b) w (Hwf _ eq_refl))
        as (doc & w' & Hrun & _).
      eexists _, w'. split.
      { apply try_catch_ok. now rewrite (bind_ok _ _ _ _ _ Hrun). }
      split.
      * split; [|intros _; now eexists].
        intros _. split; [now exists p | now exists (e :: b)].
      * intros H. now destruct (H _ eq_refl).
    + eexists _, w. split; [reflexivity|]. split.
      * split; [intros [m [=]] | intros [_ (b & [=] & _)]].
      * intros _. split; [reflexivity | now eexists].
  - eexists _, w. split; [reflexivity|]. split.
    + split; [intros [m [=]] |].
      intros [[p <-] _]. now rewrite portalOfString_portalString in Hp.
    + intros _. split; [reflexivity | now eexists].
Qed.

(** X11. One value through [encrypt] and [decrypt]: for a non-empty
    well-formed string, [encrypt] returns the hex of the next 16 bytes of
    the random source, a colon and the hex of the ciphertext, advances the
    source by 16 bytes, leaves the collection alone, and [decrypt] of that
    string is the original. *)
Theorem decrypt_encrypt_roundtrip (data : jsstring) (w : World) :
  data <> [] -> isWellFormed data = true ->
  exists c w',
    encrypt aes256cbc_encrypt cm data w = (Ok (VString c), w') /\
    splitColon c
    = [toHex (List.map (entropy w) (seq (cursor w) 16));
       toHex (aes256cbc_encrypt (fromHex (encryptionKey cm))
                (List.map (entropy w) (seq (cursor w) 16)) (utf8Encode data))] /\
    cursor w' = (cursor w + 16)%nat /\ entropy w' = entropy w /\
    Credential w' = Credential w /\
    decrypt aes256cbc_decrypt cm c w' = (Ok (VString data), w').
Proof using cm_key aes256cbc_decrypt_encrypt.
  intros Hne Hwf. destruct data as [|ch data]; [contradiction|].
  set (iv := List.map (entropy w) (seq (cursor w) 16)).
  assert (Hiv : length iv = 16%nat).
  { unfold iv. now rewrite length_map, length_seq. }
  eexists _, _. split; [|split; [|split; [|split; [|split]]]].
  - unfold encrypt. apply try_catch_ok.
    unfold bind, randomBytes, createCipheriv. fold iv.
    rewrite cm_key, Hiv. cbn [Nat.eqb]. reflexivity.
  - change (js ":" ++ ?x) with (58%N :: x).
    now rewrite splitColon_app by apply toHex_no_colon.
  - reflexivity.
  - reflexivity.
  - reflexivity.
  - rewrite (decrypt_encrypted aes256cbc_encrypt aes256cbc_decrypt
               aes256cbc_decrypt_encrypt cm cm_key iv _ _ Hiv).
    now rewrite utf8Decode_utf8Encode.
Qed.

(** X12. What the stored document holds: the user, the portal and the
    names of the copied fields (all but one named [__proto__], which is
    not stored) in clear and in the order of the bag; each non-string
    value as it is, each empty string as null, and each other string as
    the hex of a 16-byte initialization vector, a colon and the hex of the
    ciphertext of its UTF-8 bytes. *)
Theorem storeCredentials_document_contents
    (userId : jsstring) (p : PortalName) (bag : Obj) (w : World) :
  wfObj bag ->
  exists doc w',
    storeCredentials aes256cbc_encrypt cm userId p bag w = (Ok doc, w') /\
    user doc = userId /\ portal doc = p /\
    List.map fst (credentials doc) = List.map fst (copiedFields bag) /\
    ~ In (js "__proto__") (List.map fst (credentials doc)) /\
    forall i k v, nth_error (copiedFields bag) i = Some (k, v) ->
      exists v', nth_error (credentials doc) i = Some (k, v') /\
        match v with
        | VString [] => v' = VNull
        | VString data =>
            exists iv, length iv = 16%nat /\
              v' = VString (toHex iv ++ js ":" ++
                            toHex (aes256cbc_encrypt
                                     (fromHex (encryptionKey cm)) iv
                                     (utf8Encode data)))
        | _ => v' = v
        end.
Proof using cm_key.
  intros Hwf.
  destruct (storeCredentials_collection aes256cbc_encrypt cm cm_key
              userId p bag w Hwf)
    as (doc & w' & Hrun & Hu & Hp & Hall & _).
  exists doc, w'. split; [exact Hrun|]. split; [exact Hu|]. split; [exact Hp|].
  assert (Hgoal :
    List.map fst (credentials doc) = List.map fst (copiedFields bag) /\
    forall i k v, nth_error (copiedFields bag) i = Some (k, v) ->
      exists v', nth_error (credentials doc) i = Some (k, v') /\
                 storedAs aes256cbc_encrypt cm v v');
    [|destruct Hgoal as [H1 H2]; split; [exact H1|]; split;
      [rewrite H1; apply copiedFields_no_proto | exact H2]].
  clear Hrun Hwf.
  induction Hall as [|[k v] [k' v'] bag' stored [Hk Hv] Hall IH].
  - split; [reflexivity|]. intros [|i] k v H; discriminate H.
  - cbn [fst snd] in Hk, Hv. subst k'.
    destruct IH as [IH1 IH2].
    split; [cbn [List.map fst]; now rewrite IH1|].
    intros [|i] k0 v0 H; cbn [nth_error] in *.
    + injection H as <- <-. exists v'. split; [reflexivity|].
      exact Hv.
    + now apply IH2.
Qed.

End Routes.

(** X13. A stored string that contains a colon but is not an
    initialization vector of 16 bytes in hex, a colon and a ciphertext
    makes [getCredentials] throw for the whole bag, with the portal in the
    message; the vault is left as it is. *)
Theorem getCredentials_rejects_malformed_field
    (dec : Buffer -> Buffer -> Buffer -> option Buffer)
    (cm : CredentialManager) (userId : jsstring) (p : PortalName)
    (w : World) (doc : CredentialDoc) (k s : jsstring) :
  List.find (matchesPair userId p) (Credential w) = Some doc ->
  In (k, VString s) (credentials doc) ->
  includes s (js ":") = true ->
  (length (splitColon s) <> 2%nat \/
   length (fromHex (hd [] (splitColon s))) <> 16%nat) ->
  getCredentials dec cm userId p w
  = (Throw (js "Failed to retrieve credentials for " ++ portalString p), w).
Proof.
  intros Hfind Hin Hcolon Hbad.
  assert (Hdecrypt : forall w1,
    decrypt dec cm s w1 = (Throw (js "Failed to decrypt data"), w1)).
  { intros w1. unfold decrypt. destruct s as [|c s]; [discriminate Hcolon|].
    unfold try_catch, bind, createDecipheriv, createCipheriv, ret, throw.
    destruct (splitColon (c :: s)) as [|p0 [|p1 [|p2 ps]]]; try reflexivity.
    destruct Hbad as [Hbad|Hbad]; [now contradiction Hbad|].
    cbn [hd] in Hbad. apply Nat.eqb_neq in Hbad. rewrite Hbad.
    now destruct (_ =? 32)%nat. }
  assert (Hloop : forall entries, In (k, VString s) entries ->
    forall acc w1, exists e,
      decryptFields dec cm entries acc w1 = (Throw e, w1)).
  { induction entries as [|[k0 v0] rest IH]; intros Hi acc w1; [destruct Hi|].
    cbn [decryptFields]. destruct Hi as [[= -> ->] | Hi].
    - rewrite Hcolon. eexists. unfold bind. now rewrite Hdecrypt.
    - destruct v0 as [s0|z|b|]; try now apply IH.
      destruct (includes s0 (js ":")); [|now apply IH].
      destruct (decrypt_pure dec cm s0) as [[d|e] Hd].
      + unfold bind. rewrite Hd. now apply IH.
      + exists e. unfold bind. now rewrite Hd. }
  destruct (Hloop _ Hin emptyObject w) as [e He].
  unfold getCredentials, try_catch, bind, findOne.
  change (fun d => bool_decide (user d = userId /\ portal d = p))
    with (matchesPair userId p).
  now rewrite Hfind, He.
Qed.

(** X14. What keys the constructor takes: the hex of any 32 bytes, given
    directly or, when no key or an empty one is given, through the
    environment; with neither it refuses for a missing key; and a given key
    that decodes to another number of bytes is refused even when the
    environment holds a good one. *)
Theorem new_CredentialManager_keys
    (good bad : Buffer) (ek envk : option jsstring) :
  length good = 32%nat -> bad <> [] -> length bad <> 32%nat ->
  truthy ek = false ->
  new_CredentialManager (Some (toHex good)) envk
  = Ok {| encryptionKey := toHex good |} /\
  new_CredentialManager ek (Some (toHex good))
  = Ok {| encryptionKey := toHex good |} /\
  new_CredentialManager ek None
  = Throw (js "Encryption key is required for credential management") /\
  new_CredentialManager ek (Some [])
  = Throw (js "Encryption key is required for credential management") /\
  new_CredentialManager (Some (toHex bad)) (Some (toHex good))
  = Throw (js "Encryption key must be 64 hex characters (32 bytes)").
Proof.
  intros Hgood Hbad Hlen Hek.
  assert (Hhex : forall b, b <> [] -> exists c k, toHex b = c :: k).
  { intros [|x b] Hb; [contradiction|]. now eexists _, _. }
  assert (Hrun : forall b other, b <> [] ->
    new_CredentialManager (Some (toHex b)) other
    = if (length b =? 32)%nat then Ok {| encryptionKey := toHex b |}
      else Throw (js "Encryption key must be 64 hex characters (32 bytes)")).
  { intros b other Hb. destruct (Hhex b Hb) as (c & k & E).
    unfold new_CredentialManager. rewrite E. cbn [truthy].
    rewrite <- E. now rewrite fromHex_toHex. }
  assert (Hg : good <> []) by (intros ->; discriminate Hgood).
  split; [|split; [|split; [|split]]].
  - rewrite (Hrun good envk Hg), Hgood. reflexivity.
  - destruct (Hhex good Hg) as (c & k & E).
    unfold new_CredentialManager. rewrite Hek, E. rewrite <- E.
    now rewrite fromHex_toHex, Hgood.
  - unfold new_CredentialManager. now rewrite Hek.
  - unfold new_CredentialManager. now rewrite Hek.
  - rewrite (Hrun bad _ Hbad). apply Nat.eqb_neq in Hlen. now rewrite Hlen.
Qed.

(** Concrete runs. *)
Lemma cm0_key : length (fromHex (encryptionKey cm0)) = 32%nat.
Proof. reflexivity. Qed.

Lemma storeCredentials_keeps_one_document_per_pair_witness :
  exists doc w',
    storeCredentials mirror_encrypt cm0 (js "u1") p_indeed tokenBag w2docs
    = (Ok doc, w') /\
    distinctIds w' /\ uniqueIndex w' /\ pairCount (js "u1") p_indeed w' = 1%nat.
Proof.
  apply (storeCredentials_keeps_one_document_per_pair mirror_encrypt cm0 cm0_key).
  - exact wfObj_tokenBag.
  - exact distinctIds_w2docs.
  - exact uniqueIndex_w2docs.
Defined.

Lemma storeCredentials_twice_updates_in_place_witness :
  exists doc1 w1 doc2 w2,
    storeCredentials mirror_encrypt cm0 (js "u1") p_linkedin loginBag w2docs
    = (Ok doc1, w1) /\
    storeCredentials mirror_encrypt cm0 (js "u1") p_linkedin tokenBag w1
    = (Ok doc2, w2) /\
    _id doc2 = _id doc1 /\ createdAt doc2 = createdAt doc1 /\
    updatedAt doc2 = clock w1 /\
    length (Credential w2) = length (Credential w1) /\
    nextId w2 = nextId w1 /\
    result (getCredentials mirror_decrypt cm0 (js "u1") p_linkedin) w2
    = Ok (Some (List.map roundTripEntry (copiedFields tokenBag))).
Proof.
  apply (storeCredentials_twice_updates_in_place
           mirror_encrypt mirror_decrypt mirror_decrypt_encrypt cm0 cm0_key).
  - exact wfObj_loginBag.
  - exact wfObj_tokenBag.
Defined.

Lemma storeCredentials_leaves_other_pairs_witness :
  result (getCredentials mirror_decrypt cm0 (js "u2") p_linkedin)
         (world_after
            (storeCredentials mirror_encrypt cm0 (js "u1") p_linkedin loginBag)
            w2docs)
  = result (getCredentials mirror_decrypt cm0 (js "u2") p_linkedin) w2docs /\
  result (hasCredentials cm0 (js "u2") p_linkedin)
         (world_after
            (storeCredentials mirror_encrypt cm0 (js "u1") p_linkedin loginBag)
            w2docs)
  = result (hasCredentials cm0 (js "u2") p_linkedin) w2docs.
Proof.
  apply (storeCredentials_leaves_other_pairs
           mirror_encrypt mirror_decrypt cm0 cm0_key).
  - exact wfObj_loginBag.
  - exact distinctIds_w2docs.
  - intros H. discriminate H.
Defined.

Lemma deleteCredentials_after_storeCredentials_witness :
  exists doc w1 w2,
    storeCredentials mirror_encrypt cm0 (js "u1") p_linkedin loginBag w2docs
    = (Ok doc, w1) /\
    result (hasCredentials cm0 (js "u1") p_linkedin) w1 = Ok true /\
    deleteCredentials cm0 (js "u1") p_linkedin w1 = (Ok true, w2) /\
    result (hasCredentials cm0 (js "u1") p_linkedin) w2 = Ok false /\
    result (getCredentials mirror_decrypt cm0 (js "u1") p_linkedin) w2
    = Ok None /\
    deleteCredentials cm0 (js "u1") p_linkedin w2 = (Ok false, w2).
Proof.
  apply (deleteCredentials_after_storeCredentials
           mirror_encrypt mirror_decrypt cm0 cm0_key).
  - exact wfObj_loginBag.
  - exact distinctIds_w2docs.
  - exact uniqueIndex_w2docs.
Defined.

Lemma deleteCredentials_absent_witness :
  deleteCredentials cm0 (js "u1") p_lever w2docs = (Ok false, w2docs) /\
  deleteCredentialsRoute cm0 (js "u1") (portalString p_lever) w2docs
  = (Ok (credentialError 404
           (js "No credentials found for " ++ portalString p_lever)),
     w2docs).
Proof.
  apply (deleteCredentials_absent cm0). reflexivity.
Defined.

Lemma deleteCredentials_leaves_other_pairs_witness :
  result (getCredentials mirror_decrypt cm0 (js "u2") p_linkedin)
         (world_after (deleteCredentials cm0 (js "u1") p_indeed) w2docs)
  = result (getCredentials mirror_decrypt cm0 (js "u2") p_linkedin) w2docs /\
  result (hasCredentials cm0 (js "u2") p_linkedin)
         (world_after (deleteCredentials cm0 (js "u1") p_indeed) w2docs)
  = result (hasCredentials cm0 (js "u2") p_linkedin) w2docs.
Proof.
  apply (deleteCredentials_leaves_other_pairs mirror_decrypt cm0).
  intros H. discriminate H.
Defined.

Lemma listUserPortals_after_storeCredentials_witness :
  exists doc w' before,
    storeCredentials mirror_encrypt cm0 (js "u1") p_linkedin loginBag w2docs
    = (Ok doc, w') /\
    result (listUserPortals cm0 (js "u1")) w2docs = Ok before /\
    result (listUserPortals cm0 (js "u1")) w'
    = Ok (before ++
          (if decide (js "u1" = js "u1" /\
                      pairCount (js "u1") p_linkedin w2docs = 0%nat)
           then [p_linkedin] else [])).
Proof.
  apply (listUserPortals_after_storeCredentials mirror_encrypt cm0 cm0_key).
  - exact wfObj_loginBag.
  - exact distinctIds_w2docs.
Defined.

Lemma postCredentials_then_getHasCredentials_witness :
  exists w',
    postCredentials mirror_encrypt cm0 (js "u1") (portalString p_workday)
                    (Some loginBag) w2docs
    = (Ok (credentialsStored
             (js "Credentials for " ++ portalString p_workday
              ++ js " stored successfully")), w') /\
    getHasCredentials cm0 (js "u1") (portalString p_workday) w'
    = (Ok (hasCredentialsAnswer true), w') /\
    exists portals,
      getPortals cm0 (js "u1") w' = (Ok (portalList portals), w') /\
      In p_workday portals.
Proof.
  apply (postCredentials_then_getHasCredentials mirror_encrypt cm0 cm0_key).
  - exact wfObj_loginBag.
  - discriminate.
Defined.

Lemma postCredentials_stores_iff_witness :
  exists resp w',
    postCredentials mirror_encrypt cm0 (js "u1") (js "monster")
                    (Some loginBag) w2docs = (Ok resp, w') /\
    ((exists m, resp = credentialsStored m) <->
     ((exists p, portalString p = js "monster") /\
      exists b, Some loginBag = Some b /\ b <> [])) /\
    ((forall m, resp <> credentialsStored m) ->
     w' = w2docs /\ exists m, resp = credentialError 400 m).
Proof.
  apply (postCredentials_stores_iff mirror_encrypt cm0 cm0_key).
  intros b [= <-]. exact wfObj_loginBag.
Defined.

Definition accentedPassword : jsstring := [0x70; 0x3A; 0xE9; 0x20AC; 0xD83D; 0xDE00]%N.

Lemma decrypt_encrypt_roundtrip_witness :
  exists c w',
    encrypt mirror_encrypt cm0 accentedPassword w2docs = (Ok (VString c), w') /\
    splitColon c
    = [toHex (List.map (entropy w2docs) (seq (cursor w2docs) 16));
       toHex (mirror_encrypt (fromHex (encryptionKey cm0))
                (List.map (entropy w2docs) (seq (cursor w2docs) 16))
                (utf8Encode accentedPassword))] /\
    cursor w' = (cursor w2docs + 16)%nat /\ entropy w' = entropy w2docs /\
    Credential w' = Credential w2docs /\
    decrypt mirror_decrypt cm0 c w' = (Ok (VString accentedPassword), w').
Proof.
  apply (decrypt_encrypt_roundtrip
           mirror_encrypt mirror_decrypt mirror_decrypt_encrypt cm0 cm0_key).
  - discriminate.
  - reflexivity.
Defined.

Lemma storeCredentials_document_contents_witness :
  exists doc w',
    storeCredentials mirror_encrypt cm0 (js "u1") p_indeed tokenBag w2docs
    = (Ok doc, w') /\
    user doc = js "u1" /\ portal doc = p_indeed /\
    List.map fst (credentials doc) = List.map fst (copiedFields tokenBag) /\
    ~ In (js "__proto__") (List.map fst (credentials doc)) /\
    forall i k v, nth_error (copiedFields tokenBag) i = Some (k, v) ->
      exists v', nth_error (credentials doc) i = Some (k, v') /\
        match v with
        | VString [] => v' = VNull
        | VString data =>
            exists iv, length iv = 16%nat /\
              v' = VString (toHex iv ++ js ":" ++
                            toHex (mirror_encrypt
                                     (fromHex (encryptionKey cm0)) iv
                                     (utf8Encode data)))
        | _ => v' = v
        end.
Proof.
  apply (storeCredentials_document_contents mirror_encrypt cm0 cm0_key).
  exact wfObj_tokenBag.
Defined.

(** A vault whose document holds a web address that was never encrypted. *)
Definition legacyDoc : CredentialDoc :=
  {| _id := 0; user := js "u1"; portal := p_other;
     credentials := [(js "login", VString (js "ana"));
                     (js "site", VString (js "https://jobs.example.org"))];
     createdAt := 1700000000000; updatedAt := 1700000000000 |}.

Definition wLegacy : World :=
  {| entropy := fun _ => Byte.x00; cursor := 0; clock := 1700000360000;
     Credential := [legacyDoc]; nextId := 1 |}.

Lemma getCredentials_rejects_malformed_field_witness :
  getCredentials mirror_decrypt cm0 (js "u1") p_other wLegacy
  = (Throw (js "Failed to retrieve credentials for " ++ portalString p_other),
     wLegacy).
Proof.
  apply (getCredentials_rejects_malformed_field mirror_decrypt cm0
           (js "u1") p_other wLegacy legacyDoc
           (js "site") (js "https://jobs.example.org")).
  - reflexivity.
  - right. left. reflexivity.
  - reflexivity.
  - right. vm_compute. lia.
Defined.

Definition keyBytes : Buffer := fromHex hexKey.

Lemma new_CredentialManager_keys_witness :
  new_CredentialManager (Some (toHex keyBytes)) (Some (js "ff"))
  = Ok {| encryptionKey := toHex keyBytes |} /\
  new_CredentialManager (Some []) (Some (toHex keyBytes))
  = Ok {| encryptionKey := toHex keyBytes |} /\
  new_CredentialManager (Some []) None
  = Throw (js "Encryption key is required for credential management") /\
  new_CredentialManager (Some []) (Some [])
  = Throw (js "Encryption key is required for credential management") /\
  new_CredentialManager (Some (toHex [Byte.xab; Byte.xcd]))
                        (Some (toHex keyBytes))
  = Throw (js "Encryption key must be 64 hex characters (32 bytes)").
Proof.
  apply (new_CredentialManager_keys keyBytes [Byte.xab; Byte.xcd]
           (Some []) (Some (js "ff"))).
  - reflexivity.
  - discriminate.
  - cbn. lia.
  - reflexivity.
Defined.

End VaultOpsFacts.

(** ** Classification, de-duplication and recency: further properties *)

Module ListingFacts.
Import Portal Scraper JSFacts PortalFacts ScraperFacts.

(** The adapter that serves a portal of the credential vault. *)
Definition systemOfPortal (p : PortalName) : ApplicationSystem :=
  match p with
  | p_workday => workday
  | p_greenhouse => greenhouse
  | p_lever => lever
  | p_indeed => indeed
  | p_linkedin => linkedin
  | p_glassdoor | p_other => generic
  end.

(** X15. The two classifiers of an application URL agree: the adapter
    [detectApplicationSystem] selects is the one for the portal
    [determinePortal] asks credentials for, glassdoor and every other site
    being served by the generic adapter; and a glassdoor address is one that
    names glassdoor.com and none of the six other fragments. *)
Theorem determinePortal_agrees_with_detectApplicationSystem (url : jsstring) :
  detectApplicationSystem url = systemOfPortal (determinePortal url) /\
  (determinePortal url = p_glassdoor <->
   contains url (js "glassdoor.com") /\
   forall frag, In frag knownFragments -> ~ contains url frag).
Proof.
  split.
  - unfold detectApplicationSystem, determinePortal.
    repeat match goal with
           | |- context [if ?c then _ else _] => destruct c; try reflexivity
           end.
  - unfold determinePortal, knownFragments. split.
    + intros H.
      destruct (includes url (js "myworkdayjobs.com")) eqn:H1; [discriminate|].
      destruct (includes url (js "workday.com")) eqn:H2; [discriminate|].
      destruct (includes url (js "greenhouse.io")) eqn:H3; [discriminate|].
      destruct (includes url (js "lever.co")) eqn:H4; [discriminate|].
      destruct (includes url (js "indeed.com")) eqn:H5; [discriminate|].
      destruct (includes url (js "linkedin.com")) eqn:H6; [discriminate|].
      destruct (includes url (js "glassdoor.com")) eqn:H7; [|discriminate].
      split; [now apply includes_spec|].
      intros frag Hin. apply includes_false_spec. simpl in Hin.
      repeat (destruct Hin as [<- | Hin]; [assumption|]). destruct Hin.
    + intros [Hg Hnone]. apply includes_spec in Hg.
      assert (Hf : forall frag, In frag knownFragments ->
                                includes url frag = false).
      { intros frag Hin. apply includes_false_spec. now apply Hnone. }
      unfold knownFragments in Hf. simpl in Hf.
      rewrite !Hf by tauto. cbn [orb]. now rewrite Hg.
Qed.

Section Dedup.

Variable toLowerCase : jsstring -> jsstring.

Local Abbreviation key := (dedupKey toLowerCase).
Local Abbreviation loop := (removeDuplicateJobs_loop toLowerCase).

(** No kept listing has a key that was seen before the loop started. *)
Lemma loop_keys_fresh (jobs : list JobListing) :
  forall seen x, In x (loop jobs seen []) -> key x ∉ seen.
Proof.
  induction jobs as [|job rest IH]; intros seen x Hin; [destruct Hin|].
  rewrite removeDuplicateJobs_loop_cons in Hin.
  destruct (decide (key job ∈ seen)) as [Hs|Hs]; [now apply IH|].
  destruct Hin as [<- | Hin]; [exact Hs|].
  apply IH in Hin. intros H. apply Hin, elem_of_union. now right.
Qed.

Lemma loop_keys_NoDup (jobs : list JobListing) :
  forall seen, NoDup (List.map key (loop jobs seen [])).
Proof.
  induction jobs as [|job rest IH]; intros seen; [apply NoDup_nil_2|].
  rewrite removeDuplicateJobs_loop_cons.
  destruct (decide (key job ∈ seen)) as [Hs|Hs]; [apply IH|].
  cbn [List.map]. apply NoDup_cons. split; [|apply IH].
  intros Hin. apply list_elem_of_In, in_map_iff in Hin as (x & Hx & Hin).
  apply loop_keys_fresh in Hin. apply Hin. rewrite Hx.
  apply elem_of_union. left. now apply elem_of_singleton.
Qed.

(** A list without repeated keys, none of them seen, goes through the
    loop unchanged. *)
Lemma loop_fixpoint (jobs : list JobListing) :
  forall seen,
    NoDup (List.map key jobs) ->
    (forall x, In x jobs -> key x ∉ seen) ->
    loop jobs seen [] = jobs.
Proof.
  induction jobs as [|job rest IH]; intros seen Hnd Hseen; [reflexivity|].
  rewrite removeDuplicateJobs_loop_cons.
  cbn [List.map] in Hnd. apply NoDup_cons in Hnd as [Hjob Hnd].
  rewrite decide_False by (apply Hseen; now left).
  f_equal. apply IH; [exact Hnd|].
  intros x Hx Hin. apply elem_of_union in Hin as [Hin|Hin].
  - apply elem_of_singleton in Hin. apply Hjob. rewrite <- Hin.
    apply list_elem_of_In. now apply in_map.
  - revert Hin. apply Hseen. now right.
Qed.

(** Starting the loop with more keys seen is filtering its output. *)
Lemma loop_more_seen (jobs : list JobListing) :
  forall (more seen : gset jsstring),
    loop jobs (more ∪ seen) []
    = List.filter (fun x => bool_decide (key x ∉ more)) (loop jobs seen []).
Proof.
  induction jobs as [|job rest IH]; intros more seen; [reflexivity|].
  rewrite !removeDuplicateJobs_loop_cons.
  destruct (decide (key job ∈ seen)) as [Hs|Hs].
  - rewrite decide_True by (apply elem_of_union; now right). apply IH.
  - cbn [List.filter]. destruct (decide (key job ∈ more)) as [Hm|Hm].
    + rewrite decide_True by (apply elem_of_union; now left).
      rewrite bool_decide_eq_false_2 by (intros H; now apply H).
      rewrite <- IH.
      replace (more ∪ ({[key job]} ∪ seen)) with (more ∪ seen);
        [reflexivity|].
      apply set_eq. intros k. rewrite !elem_of_union, elem_of_singleton.
      split; [tauto|]. intros [H|[->|H]]; tauto.
    + rewrite decide_False
        by (intros H; apply elem_of_union in H as [H|H]; contradiction).
      rewrite (bool_decide_eq_true_2 _ Hm). f_equal.
      rewrite <- IH. f_equal.
      apply set_eq. intros k. rewrite !elem_of_union, elem_of_singleton. tauto.
Qed.

Lemma loop_app (a b : list JobListing) :
  forall seen,
    loop (a ++ b) seen []
    = loop a seen [] ++ loop b (list_to_set (List.map key a) ∪ seen) [].
Proof.
  induction a as [|job rest IH]; intros seen.
  - cbn [app List.map list_to_set]. now rewrite union_empty_l_L.
  - cbn [app]. rewrite !removeDuplicateJobs_loop_cons.
    cbn [List.map list_to_set].
    destruct (decide (key job ∈ seen)) as [Hs|Hs].
    + rewrite IH. do 2 f_equal.
      apply set_eq. intros k. rewrite !elem_of_union, elem_of_singleton.
      split; [tauto|]. intros [[->|H]|H]; tauto.
    + cbn [app]. f_equal. rewrite IH. do 2 f_equal.
      apply set_eq. intros k. rewrite !elem_of_union, elem_of_singleton. tauto.
Qed.

(** Every input listing has a kept listing with its key. *)
Lemma removeDuplicateJobs_represents (jobs : list JobListing) (job : JobListing) :
  In job jobs ->
  exists kept, In kept (removeDuplicateJobs toLowerCase jobs) /\
               key kept = key job.
Proof.
  intros Hin.
  pose proof (removeDuplicateJobs_loop_filter toLowerCase jobs ∅ (key job))
    as Hf.
  rewrite decide_False in Hf by apply not_elem_of_empty.
  destruct (List.find _ jobs) as [first|] eqn:Hfind.
  - exists first. apply find_some in Hfind as [_ Hk].
    apply bool_decide_eq_true_1 in Hk. split; [|exact Hk].
    assert (Hin' : In first
      (List.filter (fun x => bool_decide (key x = key job))
         (removeDuplicateJobs toLowerCase jobs))).
    { unfold removeDuplicateJobs. rewrite Hf. now left. }
    now apply filter_In in Hin'.
  - exfalso. pose proof (find_none _ _ Hfind job Hin) as Hno.
    cbv beta in Hno. now rewrite bool_decide_eq_true_2 in Hno.
Qed.

(** X16. The output of [removeDuplicateJobs] has no key twice, every
    input listing has a kept listing with its key, and a second pass
    changes nothing. *)
Theorem removeDuplicateJobs_unique_and_idempotent (jobs : list JobListing) :
  NoDup (List.map key (removeDuplicateJobs toLowerCase jobs)) /\
  (forall job, In job jobs ->
     exists kept, In kept (removeDuplicateJobs toLowerCase jobs) /\
                  key kept = key job) /\
  removeDuplicateJobs toLowerCase (removeDuplicateJobs toLowerCase jobs)
  = removeDuplicateJobs toLowerCase jobs.
Proof.
  split; [apply loop_keys_NoDup|]. split.
  - intros job. apply removeDuplicateJobs_represents.
  - unfold removeDuplicateJobs at 1. apply loop_fixpoint.
    + apply loop_keys_NoDup.
    + intros x _. apply not_elem_of_empty.
Qed.

(** X17. De-duplicating a merge of two sources: the listings kept from
    the first source are those it would keep alone, in the same places, and
    from the second source come its own kept listings whose key the first
    source does not have. *)
Theorem removeDuplicateJobs_merge (first second : list JobListing) :
  removeDuplicateJobs toLowerCase (first ++ second)
  = removeDuplicateJobs toLowerCase first
    ++ List.filter
         (fun x => bool_decide (key x ∉ List.map key first))
         (removeDuplicateJobs toLowerCase second).
Proof.
  unfold removeDuplicateJobs. rewrite loop_app. f_equal.
  rewrite loop_more_seen. apply filter_ext. intros x.
  apply bool_decide_ext. now rewrite elem_of_list_to_set.
Qed.

End Dedup.

Section Recency.

Variable LocalTZA : Z -> bool -> Z.
Variable Date_parse : jsstring -> option Z.

Local Abbreviation cutoff := (cutoff LocalTZA).
Local Abbreviation drift := (drift LocalTZA).
Local Abbreviation hoursBack := (hoursBack LocalTZA).

Lemma TimeClip_Some (time c : Z) :
  TimeClip time = Some c <-> c = time /\ (Z.abs time <= maxTime)%Z.
Proof.
  unfold TimeClip. destruct (Z.leb_spec (Z.abs time) maxTime).
  - split; [intros [= <-]; now split | intros [-> _]; reflexivity].
  - split; [discriminate | intros [_ H']; lia].
Qed.

(** X18. [filterJobsByRecency] keeps, in their order, exactly the
    listings whose [publishedAt] is missing or parses to an instant not
    before the cutoff, which is a valid date.  The cutoff is now, minus
    the whole number of hours by which [setHours] moves the local time
    back, moved by the difference between the offset of local time from
    UTC now and the offset read for the local time that many hours
    earlier.  For a whole number of hours the local time is moved back by
    that number, and the cutoff is exactly now minus the hours where the
    two offsets agree.  A listing published exactly at the cutoff is kept,
    and one whose [publishedAt] does not parse as a date is dropped. *)
Theorem filterJobsByRecency_keeps_exactly
    (now : Z) (jobs : list JobListing) (hours : Number) (job : JobListing) :
  sublist (filterJobsByRecency LocalTZA Date_parse now jobs hours) jobs /\
  (In job (filterJobsByRecency LocalTZA Date_parse now jobs hours) <->
   In job jobs /\
   (missingPublishedAt job \/
    exists t, publishedAtTime Date_parse job t /\
              (cutoff now (hoursBack now hours) <= t)%Z /\
              (Z.abs (cutoff now (hoursBack now hours)) <= maxTime)%Z)) /\
  (forall s, publishedAt job = Some s -> s <> [] -> Date_parse s = None ->
     ~ In job (filterJobsByRecency LocalTZA Date_parse now jobs hours)) /\
  (forall h, (Z.abs h <= 2 ^ 52)%Z ->
     hoursBack now (wholeNumber h) = h /\
     (LocalTZA now true
      = LocalTZA (now + LocalTZA now true - h * msPerHour)%Z false ->
      cutoff now h = (now - h * msPerHour)%Z)).
Proof.
  unfold filterJobsByRecency. rewrite setHours_getHours_minus.
  generalize (hoursBack now hours). intros back.
  split; [|split; [|split]].
  - generalize (isRecent Date_parse (TimeClip (cutoff now back))). intros P.
    induction jobs as [|j rest IH]; [constructor|].
    cbn [List.filter]. destruct (P j); now constructor.
  - rewrite filter_In, isRecent_spec. split.
    + intros [Hin [H | (t & c & Ht & Hc & Hle)]]; (split; [exact Hin|]);
        [now left|].
      apply TimeClip_Some in Hc as [-> Hc]. right. now exists t.
    + intros [Hin [H | (t & Ht & Hle & Hc)]]; (split; [exact Hin|]);
        [now left|].
      right. exists t, (cutoff now back). split; [exact Ht|].
      split; [now apply TimeClip_Some | exact Hle].
  - intros s Hs Hne Hparse Hin. apply filter_In in Hin as [_ Hr].
    apply isRecent_spec in Hr
      as [[H|H] | (t & c & (s' & Hs' & _ & Ht) & _)]; congruence.
  - intros h Hh. split; [now apply hoursBack_whole|].
    intros Hsame. unfold ScraperFacts.cutoff, ScraperFacts.drift. lia.
Qed.

(** X19. Where the local time is moved back at least as far for [hours']
    as for [hours] (as it is for whole numbers [hours <= hours']), the
    changes of the clocks move the two cutoffs alike, and the earlier
    cutoff is a valid date, a wider window keeps at least as much:
    filtering with [hours] what was kept with [hours'] gives what [hours]
    keeps of the whole list. *)
Theorem filterJobsByRecency_narrowing
    (now : Z) (jobs : list JobListing) (hours hours' : Number) :
  (hoursBack now hours <= hoursBack now hours')%Z ->
  drift now (hoursBack now hours) = drift now (hoursBack now hours') ->
  (Z.abs (cutoff now (hoursBack now hours')) <= maxTime)%Z ->
  filterJobsByRecency LocalTZA Date_parse now
    (filterJobsByRecency LocalTZA Date_parse now jobs hours') hours
  = filterJobsByRecency LocalTZA Date_parse now jobs hours.
Proof.
  unfold filterJobsByRecency. rewrite !setHours_getHours_minus.
  generalize (hoursBack now hours) (hoursBack now hours').
  intros back back' Hle Hdrift Hvalid.
  induction jobs as [|j rest IH]; [reflexivity|]. cbn [List.filter].
  destruct (isRecent Date_parse (TimeClip (cutoff now back')) j) eqn:Hwide.
  - cbn [List.filter]. rewrite IH. reflexivity.
  - rewrite IH.
    destruct (isRecent Date_parse (TimeClip (cutoff now back)) j) eqn:Hnarrow;
      [|reflexivity].
    exfalso. apply isRecent_spec in Hnarrow.
    assert (isRecent Date_parse (TimeClip (cutoff now back')) j = true);
      [|congruence].
    apply isRecent_spec.
    destruct Hnarrow as [H | (t & c & Ht & Hc & Hct)]; [now left|].
    apply TimeClip_Some in Hc as [-> _].
    right. exists t, (cutoff now back'). split; [exact Ht|].
    split; [now apply TimeClip_Some|].
    unfold ScraperFacts.cutoff in *. rewrite <- Hdrift.
    unfold msPerHour in *. lia.
Qed.

End Recency.

(** A zone without changes of the clocks: five and a half hours ahead of
    UTC. *)
Definition kolkata (t : Z) (isUTC : bool) : Z := 19800000.

(** Half an hour counts as a whole one at twenty past two in the
    afternoon, and as none at twenty past midnight: the fraction of the
    hour handed to [setHours] is dropped towards zero. *)
Example hoursBack_half_an_hour :
  hoursBack kolkata 31800000 {| significand := 1; exponent := -1 |} = 1%Z /\
  hoursBack kolkata 67800000 {| significand := 1; exponent := -1 |} = 0%Z.
Proof. split; reflexivity. Qed.

Lemma filterJobsByRecency_narrowing_witness :
  filterJobsByRecency kolkata parseMillis 10000000
    (filterJobsByRecency kolkata parseMillis 10000000 someListings
       (wholeNumber 3)) (wholeNumber 1)
  = filterJobsByRecency kolkata parseMillis 10000000 someListings
      (wholeNumber 1).
Proof.
  apply (filterJobsByRecency_narrowing kolkata parseMillis 10000000
           someListings (wholeNumber 1) (wholeNumber 3)).
  - vm_compute. discriminate.
  - reflexivity.
  - vm_compute. discriminate.
Defined.

End ListingFacts.

(** ** Searching all platforms: properties *)

Module SearchFacts.
Import Scraper Search EffFacts ScraperFacts ListingFacts.

Local Open Scope eff_scope.

(** [a] may stand before [b] in a list sorted newest first. *)
Definition notOlder (Date_parse : jsstring -> option Z) (a b : JobListing)
  : Prop :=
  exists ta tb, timeValue Date_parse a = Some ta /\
                timeValue Date_parse b = Some tb /\ (tb <= ta)%Z.

Section Sorting.

Variable Date_parse : jsstring -> option Z.

Local Abbreviation cmp := (newestFirst Date_parse).

Lemma insertBy_Permutation (x : JobListing) (l : list JobListing) :
  Permutation (insertBy cmp x l) (x :: l).
Proof.
  induction l as [|y l IH]; [reflexivity|]. cbn [insertBy].
  destruct (cmp x y) as [d|]; [|reflexivity].
  destruct (d <=? 0)%Z; [reflexivity|].
  rewrite IH. apply perm_swap.
Qed.

Lemma insertionSort_Permutation (l : list JobListing) :
  Permutation (insertionSort cmp l) l.
Proof.
  induction l as [|x l IH]; [reflexivity|]. cbn [insertionSort fold_right].
  fold (insertionSort cmp l). rewrite insertBy_Permutation. now rewrite IH.
Qed.

Lemma insertBy_sorted (x : JobListing) (l : list JobListing) :
  is_Some (timeValue Date_parse x) ->
  Forall (fun j => is_Some (timeValue Date_parse j)) l ->
  StronglySorted (notOlder Date_parse) l ->
  StronglySorted (notOlder Date_parse) (insertBy cmp x l).
Proof.
  intros [tx Hx] Hall Hs. induction Hs as [|y l Hs IH Hy].
  - repeat constructor.
  - apply Forall_cons in Hall as [[ty Hty] Hall]. cbn [insertBy].
    unfold newestFirst. rewrite Hty, Hx.
    destruct (ty - tx <=? 0)%Z eqn:Hle.
    + apply Z.leb_le in Hle. constructor; [now constructor|].
      constructor.
      * exists tx, ty. repeat split; try assumption. lia.
      * eapply Forall_impl; [exact Hy|]. cbn.
        intros b (ty' & tb & Hty' & Hb & Hle').
        exists tx, tb. repeat split; try assumption.
        assert (ty' = ty) by congruence. lia.
    + apply Z.leb_gt in Hle. constructor; [now apply IH|].
      apply List.Forall_forall. intros b Hb.
      apply (Permutation_in _ (insertBy_Permutation x l)) in Hb.
      destruct Hb as [<- | Hb].
      * exists ty, tx. repeat split; try assumption. lia.
      * rewrite List.Forall_forall in Hy. now apply Hy.
Qed.

Lemma insertionSort_sorted (l : list JobListing) :
  Forall (fun j => is_Some (timeValue Date_parse j)) l ->
  StronglySorted (notOlder Date_parse) (insertionSort cmp l).
Proof.
  induction l as [|x l IH]; intros Hall; [constructor|].
  apply Forall_cons in Hall as [Hx Hall].
  cbn [insertionSort fold_right]. fold (insertionSort cmp l).
  apply insertBy_sorted; [exact Hx| |now apply IH].
  apply List.Forall_forall. intros j Hj.
  apply (Permutation_in _ (insertionSort_Permutation l)) in Hj.
  rewrite List.Forall_forall in Hall. now apply Hall.
Qed.

End Sorting.

Section WithRuntime.

Variable toLowerCase : jsstring -> jsstring.
Variable Date_parse : jsstring -> option Z.
Variable Array_sort :
  (JobListing -> JobListing -> option Z) -> list JobListing -> list JobListing.

(** What the language promises of [Array.prototype.sort]: the elements
    are rearranged, and with this comparator, when it is never NaN, the
    result is in the comparator's order. *)
Hypothesis Array_sort_Permutation :
  forall cmp l, Permutation (Array_sort cmp l) l.
Hypothesis Array_sort_sorted :
  forall l,
    Forall (fun j => is_Some (timeValue Date_parse j)) l ->
    StronglySorted (notOlder Date_parse)
                   (Array_sort (newestFirst Date_parse) l).

Variable sites : Sites.

Local Abbreviation key := (dedupKey toLowerCase).

(** The listings the three searches contribute, a failed search
    counting as none. *)
Definition gathered : list JobListing :=
  orEmpty (searchLinkedIn sites) ++ orEmpty (searchIndeed sites)
  ++ orEmpty (searchGlassdoor sites).

(** X20. [searchAllPlatforms], when closing the browser works: it ends
    with no browser open.  If there was no browser and none could be
    started it throws "Failed to initialize browser".  Otherwise it
    returns, a search that failed contributing nothing, a rearrangement of
    the de-duplicated listings of LinkedIn, Indeed and Glassdoor in that
    order of preference: no key twice, every listing found represented by
    its key, and newest first when every date is valid. *)
Theorem searchAllPlatforms_merges_and_sorts (s : ScraperState) :
  browserClose sites = Ok tt ->
  exists r,
    searchAllPlatforms toLowerCase Date_parse Array_sort sites s
    = (r, {| browser := false |}) /\
    match r with
    | Throw e =>
        e = js "Failed to initialize browser" /\
        browser s = false /\ launch sites <> Applicant.ready
    | Ok jobs =>
        (browser s = true \/ launch sites = Applicant.ready) /\
        Permutation jobs (removeDuplicateJobs toLowerCase gathered) /\
        NoDup (List.map key jobs) /\
        (forall job, In job gathered ->
           exists kept, In kept jobs /\ key kept = key job) /\
        (Forall (fun j => is_Some (timeValue Date_parse j)) gathered ->
         StronglySorted (notOlder Date_parse) jobs)
    end.
Proof using Array_sort_Permutation Array_sort_sorted.
  intros Hclose.
  set (unique := removeDuplicateJobs toLowerCase gathered).
  assert (Hgood :
    (fun jobs =>
       Permutation jobs unique /\
       NoDup (List.map key jobs) /\
       (forall job, In job gathered ->
          exists kept, In kept jobs /\ key kept = key job) /\
       (Forall (fun j => is_Some (timeValue Date_parse j)) gathered ->
        StronglySorted (notOlder Date_parse) jobs))
      (Array_sort (newestFirst Date_parse) unique)).
  { pose proof (loop_keys_NoDup toLowerCase gathered ∅) as Hnd.
    fold (removeDuplicateJobs toLowerCase gathered) in Hnd.
    pose proof (removeDuplicateJobs_represents toLowerCase gathered) as Hrep.
    pose proof (Array_sort_Permutation (newestFirst Date_parse) unique) as Hp.
    split; [exact Hp|]. split; [|split].
    - rewrite Hp. exact Hnd.
    - intros job Hin. destruct (Hrep job Hin) as (kept & Hk & Hkey).
      exists kept. split; [|exact Hkey].
      apply (Permutation_in _ (Permutation_sym Hp)). exact Hk.
    - intros Hall. apply Array_sort_sorted.
      apply List.Forall_forall. intros j Hj.
      rewrite List.Forall_forall in Hall. apply Hall.
      pose proof (removeDuplicateJobs_loop_sublist toLowerCase gathered ∅)
        as Hsub.
      apply list_elem_of_In. eapply elem_of_sublist; [|exact Hsub].
      now apply list_elem_of_In. }
  unfold searchAllPlatforms, try_finally, try_catch, close.
  unfold bind at 2. unfold get at 2. cbv beta iota.
  destruct s as [[|]]; cbn [browser negb].
  - unfold bind, ret, get, modify. cbn [browser]. rewrite Hclose.
    eexists. split; [reflexivity|]. cbv beta.
    split; [now left | exact Hgood].
  - unfold initialize.
    destruct (launch sites) eqn:Hl; unfold bind, ret, throw, get, modify;
      cbn [negb browser]; rewrite ?Hclose.
    + eexists. split; [reflexivity|]. cbv beta. now repeat split.
    + eexists. split; [reflexivity|]. cbv beta. now repeat split.
    + eexists. split; [reflexivity|]. cbv beta.
      split; [now right | exact Hgood].
Qed.

End WithRuntime.

(** X21. The day window [searchIndeed] asks Indeed for covers the
    requested hours whenever they are at most a week; for a longer request
    the window stays at seven days; and no window is asked for when the
    hours are absent or zero. *)
Theorem indeedFromage_covers_request (hours : option Z) :
  match indeedFromage hours with
  | None => hours = None \/ hours = Some 0%Z
  | Some days =>
      exists h, hours = Some h /\ h <> 0%Z /\
        (days = 1 \/ days = 3 \/ days = 7)%Z /\
        ((h <= 168)%Z -> (h <= 24 * days)%Z) /\
        ((168 < h)%Z -> days = 7%Z)
  end.
Proof.
  destruct hours as [h|]; [|now left]. cbn [indeedFromage].
  destruct (h =? 0)%Z eqn:H0.
  - apply Z.eqb_eq in H0. subst. now right.
  - apply Z.eqb_neq in H0.
    destruct (h <=? 24)%Z eqn:H1; [|destruct (h <=? 72)%Z eqn:H2];
      exists h; (split; [reflexivity|]); (split; [exact H0|]);
      rewrite ?Z.leb_le, ?Z.leb_gt in *; lia.
Qed.

(** Concrete runs: Indeed is down, LinkedIn and Glassdoor both list the
    same opening. *)
Definition posting (t c when : string) : JobListing :=
  {| id := js "9"; title := js t;
     company := {| name := js c; logo := None; website := None |};
     location := js "Remote"; applicationUrl := js "https://example.org/j";
     publishedAt := Some (js when); isRemote := true |}.

Definition sitesIndeedDown : Sites :=
  {| launch := Applicant.ready;
     searchLinkedIn := Ok [posting "Data Engineer" "Acme" "1000";
                           posting "Analyst" "Initech" "3000"];
     searchIndeed := Throw (js "Navigation timeout of 30000 ms exceeded");
     searchGlassdoor := Ok [posting "data engineer" "ACME" "5000";
                            posting "Architect" "Globex" "2000"];
     browserClose := Ok tt |}.

Lemma searchAllPlatforms_merges_and_sorts_witness :
  exists r,
    searchAllPlatforms asciiLower parseMillis insertionSort sitesIndeedDown
                       {| browser := false |}
    = (r, {| browser := false |}) /\
    match r with
    | Throw e =>
        e = js "Failed to initialize browser" /\
        browser {| browser := false |} = false /\
        launch sitesIndeedDown <> Applicant.ready
    | Ok jobs =>
        (browser {| browser := false |} = true \/
         launch sitesIndeedDown = Applicant.ready) /\
        Permutation jobs
          (removeDuplicateJobs asciiLower (gathered sitesIndeedDown)) /\
        NoDup (List.map (dedupKey asciiLower) jobs) /\
        (forall job, In job (gathered sitesIndeedDown) ->
           exists kept, In kept jobs /\
                        dedupKey asciiLower kept = dedupKey asciiLower job) /\
        (Forall (fun j => is_Some (timeValue parseMillis j))
                (gathered sitesIndeedDown) ->
         StronglySorted (notOlder parseMillis) jobs)
    end.
Proof.
  apply (searchAllPlatforms_merges_and_sorts asciiLower parseMillis
           insertionSort).
  - intros cmp l. induction l as [|x l IH]; [reflexivity|].
    cbn [insertionSort fold_right]. fold (insertionSort cmp l).
    rewrite <- IH at 2. generalize (insertionSort cmp l). intros l'.
    induction l' as [|y l' IH']; [reflexivity|]. cbn [insertBy].
    destruct (cmp x y) as [d|]; [|reflexivity].
    destruct (d <=? 0)%Z; [reflexivity|]. rewrite IH'. apply perm_swap.
  - apply insertionSort_sorted.
  - reflexivity.
Defined.

End SearchFacts.

(** ** The batch orchestrator: progress, duration and responses *)

Module BatchFacts.
Import Portal Applicant AutoApply EffFacts ApplicantFacts AutoApplyFacts.

Local Open Scope eff_scope.

Lemma lastProgress_app (env : Env) (uid : jsstring) (total : nat)
    (init rest : list jsstring) :
  forall i p,
    lastProgress env uid total i (init ++ rest) p
    = lastProgress env uid total (i + length init) rest
        (lastProgress env uid total i init p).
Proof.
  induction init as [|jobId init IH]; intros i p; cbn [app lastProgress length].
  - now rewrite Nat.add_0_r.
  - rewrite IH. f_equal. lia.
Qed.

(** The percentage is computed on doubles: 23 jobs of 40 show 57, as the
    quotient 0.575 is stored just below itself, and not the 58 of the
    exact quotient. *)
Example roundPercent_23_of_40 :
  roundPercent 23 40 = 57%Z /\ roundPercent 1 2 = 50%Z /\
  roundPercent 1 3 = 33%Z /\ roundPercent 3 3 = 100%Z.
Proof. repeat split. Qed.

(** The events that are responses. *)
Definition isResponse (e : Event) : bool :=
  match e with
  | EvResponse _ _ => true
  | _ => false
  end.

(** An event that is not a response. *)
Definition notResponse (e : Event) : Prop :=
  match e with
  | EvResponse _ _ => False
  | _ => True
  end.

Lemma loopEvent_notResponse (b : Batch) (rs : list ApplicationResult)
    (e : Event) :
  loopEvent b rs e -> notResponse e.
Proof. now destruct e. Qed.

Section WithRuntime.

Variable toString36 : Z -> jsstring.
Variable toUpperCase : jsstring -> jsstring.
Variable env : Env.

Local Abbreviation idDrawn := (idDrawn toString36 toUpperCase).

(** A whole run of [processBatchApplications], with the final batch
    object spelled out. *)
Lemma processBatchApplications_full (uid : jsstring) (jobs : list jsstring)
    (user : User) (w : World) :
  exists w' rs tr,
    processBatchApplications toString36 toUpperCase env uid jobs user w
    = (Ok tt, w') /\
    heap w' =
    <[nextRef w :=
        {| id := idDrawn w; userId := uid; jobIds := jobs;
           status := completed;
           progress := lastProgress env uid (length jobs) 0 jobs 0;
           results := rs; startTime := clock w;
           endTime := Some (clock w') |}]> (heap w) /\
    (exists first loop last,
        tr = first :: loop ++ [last] /\ paced env uid 0 jobs loop /\
        notJob first /\ notJob last /\ last <> EvDelay 5000) /\
    batchStatuses w' !! idDrawn w = Some (nextRef w) /\
    (forall k, k <> idDrawn w -> batchStatuses w' !! k = batchStatuses w !! k) /\
    trace w' = trace w ++ tr /\ Forall notResponse tr /\
    nextRef w' = S (nextRef w).
Proof.
  set (ref := nextRef w).
  set (b0 := newBatch toString36 toUpperCase uid jobs w).
  set (ws := loopStart toString36 toUpperCase uid jobs w).
  assert (Hbs : heap ws !! ref = Some b0) by apply lookup_insert_eq.
  destruct (processJobs_spec env uid user ref (length jobs) jobs 0 ws b0 Hbs)
    as (w3 & rs & p & tr & Hrun & [Hh Ht He Hk Ho Hn Hd Hr] & Hrs & Hall).
  destruct (processJobs_progress env uid user ref (length jobs) jobs 0 ws b0 Hbs)
    as (w3' & rs' & p' & tr' & Hrun' & Hb3' & Hp' & Htr' & Hpaced).
  rewrite Hrun in Hrun'. injection Hrun' as <-.
  assert (Hb3 : heap w3 !! ref = Some (pushed b0 rs p)).
  { rewrite Hh. apply lookup_insert_eq. }
  rewrite Hb3 in Hb3'. injection Hb3' as Hpp' Hrs'. subst rs' p'.
  rewrite Ht in Htr'. apply app_inv_head in Htr'. subst tr'.
  cbn [progress b0 newBatch] in Hp'.
  set (bf := doneBatch toString36 toUpperCase uid jobs w w3 rs p).
  eexists _, rs, (EvSave b0 :: tr ++ [EvSave bf]).
  split.
  { exact (processBatchApplications_loop toString36 toUpperCase env
             uid jobs user w w3 rs p Hrun Hb3). }
  cbn [heap batchStatuses trace clock nextRef].
  split.
  { rewrite Hh. cbn [heap ws loopStart]. rewrite !insert_insert_eq.
    unfold doneBatch. now rewrite Hp'. }
  split.
  { exists (EvSave b0), tr, (EvSave bf). split; [reflexivity|].
    split; [exact Hpaced|]. split; [exact I|]. split; [exact I | discriminate]. }
  split; [apply lookup_insert_eq|].
  split.
  { intros k Hk'.
    assert (Hne : idDrawn w <> k) by congruence.
    rewrite lookup_insert_ne by exact Hne.
    rewrite Hk by (intros E; apply Hne; symmetry; exact E).
    cbn [batchStatuses ws loopStart]. now rewrite lookup_insert_ne by exact Hne. }
  split.
  { rewrite Ht. cbn [trace ws loopStart]. now rewrite <- !app_assoc. }
  split; [|exact Hn].
  apply Forall_cons. split; [exact I|].
  apply Forall_app. split; [|repeat constructor].
  eapply Forall_impl; [exact He|]. intros e. apply loopEvent_notResponse.
Qed.

(** X22. A run of [processBatchApplications] always ends with the batch
    completed under its own id.  The progress shown is between 0 and 100:
    it is the percentage, computed on doubles, at the last job whose
    iteration did not leave early (job not found, no credentials), so it
    is 100 whenever the last job of the list is one.  Every job is
    started, and the delay of five seconds lies between its start and the
    start of the next job exactly when its iteration did not leave
    early. *)
Theorem batch_progress_and_pacing (uid : jsstring) (jobs : list jsstring)
    (user : User) (w : World) :
  exists w' b tr,
    processBatchApplications toString36 toUpperCase env uid jobs user w
    = (Ok tt, w') /\
    batchOf (idDrawn w) w' = Some b /\
    status b = completed /\
    progress b = lastProgress env uid (length jobs) 0 jobs 0 /\
    (0 <= progress b <= 100)%Z /\
    (forall init last,
        jobs = init ++ [last] ->
        leavesByContinue env uid (length init) last = false ->
        progress b = 100%Z) /\
    trace w' = trace w ++ tr /\
    (forall i jobId,
        nth_error jobs i = Some jobId ->
        In (EvJob i jobId) tr /\
        (delayedAfter i tr <-> leavesByContinue env uid i jobId = false)).
Proof.
  destruct (processBatchApplications_full uid jobs user w)
    as (w' & rs & tr & Hrun & Hheap &
        (first & loop & last & -> & Hpaced & Hfirst & Hlast & Hnd) &
        Hown & _ & Htr & _).
  eexists w', _, _. split; [exact Hrun|]. split.
  { unfold batchOf. rewrite Hown. cbn. rewrite Hheap. apply lookup_insert_eq. }
  cbn [status progress].
  split; [reflexivity|]. split; [reflexivity|]. split.
  { apply lastProgress_bounds; [reflexivity | lia]. }
  split.
  { intros init final -> Hfinal. rewrite lastProgress_app.
    cbn [lastProgress]. rewrite Nat.add_0_l, Hfinal.
    rewrite length_app. cbn [length]. apply roundPercent_all. lia. }
  split; [exact Htr|].
  intros i jobId Hi. split.
  - right. apply in_or_app. left.
    exact (paced_In env uid jobs 0 loop i jobId Hpaced Hi).
  - unfold delayedAfter.
    change (first :: loop ++ [last]) with ([first] ++ loop ++ [last]).
    rewrite eventsBetween_notJob by (repeat constructor; exact Hfirst).
    cbn [app].
    apply (paced_delayedAfter env uid jobs 0 loop [last] i jobId Hpaced).
    + repeat constructor. exact Hlast.
    + intros [H | []]. now apply Hnd.
    + exact Hi.
Qed.

(** The batch ids in the table all point to allocated objects. *)
Definition tableAllocated (w : World) : Prop :=
  forall k r, batchStatuses w !! k = Some r -> (r < nextRef w)%nat.

(** X23. Processing a batch leaves every other batch as it was: under
    any id other than the new batch's own, [getBatchStatus] returns after
    the run what it returned before; and the table still points to
    allocated objects only. *)
Theorem batch_leaves_other_batches (uid : jsstring) (jobs : list jsstring)
    (user : User) (w : World) (k : jsstring) :
  tableAllocated w -> k <> idDrawn w ->
  result (getBatchStatus k)
    (world_after
       (processBatchApplications toString36 toUpperCase env uid jobs user) w)
  = result (getBatchStatus k) w /\
  tableAllocated
    (world_after
       (processBatchApplications toString36 toUpperCase env uid jobs user) w).
Proof.
  intros Hwf Hk.
  destruct (processBatchApplications_full uid jobs user w)
    as (w' & rs & tr & Hrun & Hheap & _ & Hown & Hother & _ & _ & Hnext).
  unfold world_after. rewrite Hrun. cbn [snd]. split.
  - unfold result, getBatchStatus. cbn [fst]. rewrite (Hother k Hk).
    destruct (batchStatuses w !! k) as [r|] eqn:Hr; [|reflexivity]. cbn.
    rewrite Hheap. specialize (Hwf k r Hr).
    rewrite lookup_insert_ne by lia. reflexivity.
  - intros k' r Hr. rewrite Hnext.
    destruct (decide (k' = idDrawn w)) as [->|Hne].
    + rewrite Hown in Hr. injection Hr as <-. lia.
    + rewrite (Hother k' Hne) in Hr. specialize (Hwf k' r Hr). lia.
Qed.

(** A request is accepted: it names at least one job, the user exists and
    the profile is complete. *)
Definition accepted (uid : jsstring) (jobIds : option (list jsstring)) : Prop :=
  exists jobs user,
    jobIds = Some jobs /\ jobs <> [] /\
    User_findById env uid = Ok (Some user) /\ profileComplete user = true.

(** X24. [POST /batch] always answers, and exactly once.  The response
    is 200 exactly when the request is accepted, and then it is sent before
    any job is gone through; a request that is not accepted gets 400, 404
    or 500 and leaves the batch table and the batch objects untouched. *)
Theorem postBatch_answers_once (uid : jsstring)
    (jobIds : option (list jsstring)) (w : World) :
  exists resp w' code sent tr,
    postBatch toString36 toUpperCase env uid jobIds w = (Ok resp, w') /\
    trace w' = trace w ++ tr /\
    List.filter isResponse tr = [EvResponse code sent] /\
    (code = 200%Z <-> accepted uid jobIds) /\
    (code = 200%Z ->
     exists n batchId,
       resp = batchStarted n batchId /\ sent = Some batchId /\
       hd_error tr = Some (EvResponse 200 sent)) /\
    (code <> 200%Z ->
     (code = 400 \/ code = 404 \/ code = 500)%Z /\ sent = None /\
     (exists m, resp = errorResponse code m) /\
     heap w' = heap w /\ batchStatuses w' = batchStatuses w).
Proof.
  assert (Hrej : forall resp w' code tr,
    trace w' = trace w ++ tr ->
    List.filter isResponse tr = [EvResponse code None] ->
    (code = 400 \/ code = 404 \/ code = 500)%Z ->
    (exists m, resp = errorResponse code m) ->
    heap w' = heap w -> batchStatuses w' = batchStatuses w ->
    ~ accepted uid jobIds ->
    trace w' = trace w ++ tr /\
    List.filter isResponse tr = [EvResponse code None] /\
    (code = 200%Z <-> accepted uid jobIds) /\
    (code = 200%Z ->
     exists n batchId,
       resp = batchStarted n batchId /\ @None jsstring = Some batchId /\
       hd_error tr = Some (EvResponse 200 None)) /\
    (code <> 200%Z ->
     (code = 400 \/ code = 404 \/ code = 500)%Z /\ @None jsstring = None /\
     (exists m, resp = errorResponse code m) /\
     heap w' = heap w /\ batchStatuses w' = batchStatuses w)).
  { intros resp w' code tr Ht Hf Hc Hm Hh Hb Hno.
    split; [exact Ht|]. split; [exact Hf|].
    split; [split; [lia | contradiction]|].
    split; [lia|]. intros _. now repeat split. }
  unfold postBatch.
  destruct jobIds as [[|j jobs]|].
  - eexists _, _, 400%Z, None, [EvResponse 400 None].
    split; [reflexivity|]. apply Hrej; try reflexivity; [tauto | now eexists |].
    intros (jobs & user & [= <-] & Hne & _). now apply Hne.
  - unfold try_catch. unfold bind at 1. unfold lift at 1.
    destruct (User_findById env uid) as [[user|]|m] eqn:Huser; cbv beta iota.
    + destruct (profileComplete user) eqn:Hcomplete; cbn [negb].
      * destruct (processBatchApplications_full uid (j :: jobs) user
                    {| clock := clock w; randoms := randoms w;
                       drawn := S (drawn w); heap := heap w;
                       nextRef := nextRef w; batchStatuses := batchStatuses w;
                       trace := trace w ++ [EvResponse 200 (Some (idDrawn w))] |})
          as (w' & rs & tr & Hrun & _ & _ & _ & _ & Htr & Hno & _).
        eexists _, w', 200%Z, (Some (idDrawn w)),
          (EvResponse 200 (Some (idDrawn w)) :: tr).
        split.
        { rewrite (bind_ok _ _ w (afterDraw w) (idDrawn w)) by reflexivity.
          rewrite (bind_ok _ _ (afterDraw w) _ tt) by reflexivity.
          rewrite (bind_ok _ _ _ _ _ Hrun). reflexivity. }
        split; [rewrite Htr; cbn [trace]; now rewrite <- app_assoc|].
        split.
        { cbn [List.filter isResponse]. f_equal.
          clear Htr. induction Hno as [|e tr He Hno IH]; [reflexivity|].
          cbn [List.filter]. destruct e; try exact IH. destruct He. }
        split.
        { split; [|reflexivity]. intros _. exists (j :: jobs), user.
          split; [reflexivity|]. split; [discriminate|]. now split. }
        split; [|intros H; now contradiction H].
        intros _. now eexists _, _.
      * eexists _, _, 400%Z, None, [EvResponse 400 None].
        split; [reflexivity|].
        apply Hrej; try reflexivity; [tauto | now eexists |].
        intros (jobs' & user' & _ & _ & Hu & Hc). congruence.
    + eexists _, _, 404%Z, None, [EvResponse 404 None].
      split; [reflexivity|].
      apply Hrej; try reflexivity; [tauto | now eexists |].
      intros (jobs' & user' & _ & _ & Hu & _). congruence.
    + eexists _, _, 500%Z, None, [EvLog m; EvResponse 500 None].
      split; [reflexivity|].
      apply Hrej; try reflexivity;
        [cbn [trace]; now rewrite <- app_assoc | tauto | now eexists |].
      intros (jobs' & user' & _ & _ & Hu & _). congruence.
  - eexists _, _, 400%Z, None, [EvResponse 400 None].
    split; [reflexivity|]. apply Hrej; try reflexivity; [tauto | now eexists |].
    intros (jobs & user & [=] & _).
Qed.

End WithRuntime.

(** A world in which one batch has been processed already. *)
Definition worldAfterFirst : World :=
  world_after
    (processBatchApplications toString36 asciiUpper (envWith (fun _ => false))
       (js "u1") [js "job-7"] someUser) world0.

Lemma batch_leaves_other_batches_witness :
  result (getBatchStatus (idDrawn toString36 asciiUpper world0))
    (world_after
       (processBatchApplications toString36 asciiUpper
          (envWith (fun _ => false)) (js "u2") [js "job-gone"; js "job-8"]
          someUser) worldAfterFirst)
  = result (getBatchStatus (idDrawn toString36 asciiUpper world0))
           worldAfterFirst /\
  tableAllocated
    (world_after
       (processBatchApplications toString36 asciiUpper
          (envWith (fun _ => false)) (js "u2") [js "job-gone"; js "job-8"]
          someUser) worldAfterFirst).
Proof.
  apply (batch_leaves_other_batches toString36 asciiUpper
           (envWith (fun _ => false)) (js "u2") [js "job-gone"; js "job-8"]
           someUser worldAfterFirst (idDrawn toString36 asciiUpper world0)).
  - apply (batch_leaves_other_batches toString36 asciiUpper
             (envWith (fun _ => false)) (js "u1") [js "job-7"]
             someUser world0 (js "none")).
    + intros k r H. cbn [batchStatuses world0] in H.
      rewrite lookup_empty in H. discriminate H.
    + vm_compute. discriminate.
  - vm_compute. discriminate.
Defined.

End BatchFacts.

(** ** The single application route, the status route and the profile:
       properties *)

Module ApplyRoutesFacts.
Import Portal Applicant AutoApply ApplyRoutes EffFacts ApplicantFacts
  AutoApplyFacts BatchFacts.

Local Open Scope eff_scope.

(** [applyToJob] on a new applicant. *)
Lemma applyToJob_fresh (session : Session) (job : Scraper.JobListing) :
  applyToJob session job new_AutomatedJobApplicant =
  match launch session with
  | launchThrows => (Ok (notInitialized job), new_AutomatedJobApplicant)
  | pageSetupThrows =>
      (Ok (notInitialized job), {| browser := true; applicationResults := [] |})
  | ready =>
      let r := match adapterOutcome session job with
               | Ok marker => reported session job marker
               | Throw e => caught session job e
               end in
      (Ok r, {| browser := true; applicationResults := [r] |})
  end.
Proof.
  unfold applyToJob, bind, get, new_AutomatedJobApplicant. cbn [browser negb].
  unfold initialize, bind, modify, ret.
  destruct (launch session); cbn [negb]; try reflexivity.
  now rewrite applyToJob_body_run.
Qed.

(** Every step of a single application succeeds, and the application is
    saved under [applicationId]. *)
Definition everyStepSucceeds (env : Env) (uid : jsstring)
    (jobId : option jsstring) (applicationId : jsstring) : Prop :=
  exists j user job credentials,
    jobId = Some j /\ j <> [] /\
    User_findById env uid = Ok (Some user) /\ profileComplete user = true /\
    Job_findById env 0 j = Ok (Some job) /\
    hasCredentials env 0 uid (determinePortal (Scraper.applicationUrl job))
    = Ok true /\
    getCredentials env 0 uid (determinePortal (Scraper.applicationUrl job))
    = Ok credentials /\
    buildUserProfile env user credentials = Ok tt /\
    launch (session env 0) = ready /\
    adapterOutcome (session env 0) job = Ok true /\
    closeBrowser (session env 0) = Ok tt /\
    Application_save env 0 uid job = Ok applicationId.

Ltac refuse_success :=
  eexists; split; [reflexivity|]; split;
  [ intros id; split;
    [ intros H; discriminate H
    | intros (sj & suser & sjob & scredentials & Sj & Sne & Su & Sc & Sjob
              & Shas & Sget & Sprof & Slaunch & Sdrive & Sclose & Ssave);
      try (injection Sj as <-); try congruence ]
  | intros ? ? ? [= <- _ _]; tauto ].

(** X25. [POST /api/auto-apply] always answers and changes nothing of
    the batch state.  It answers with success exactly when every step
    succeeded: a job id was given, the user exists with a complete profile,
    the job exists, the user has credentials for its portal and they can be
    read, the profile can be built, a browser starts, the adapter finds the
    confirmation marker, the browser closes, and the application is saved.
    Every other answer is an error with status 400, 404 or 500. *)
Theorem postApply_success_iff (env : Env) (uid : jsstring)
    (jobId : option jsstring) (w : World) :
  exists resp,
    postApply env uid jobId w = (Ok resp, w) /\
    (forall id, resp = applySuccess id <-> everyStepSucceeds env uid jobId id) /\
    (forall c m e, resp = applyError c m e ->
                   (c = 400 \/ c = 404 \/ c = 500)%Z).
Proof.
  unfold postApply, try_catch.
  destruct jobId as [[|ch j]|]; [refuse_success| |refuse_success].
  unfold bind at 1. unfold lift at 1.
  destruct (User_findById env uid) as [[user|]|m] eqn:Huser; cbv beta iota;
    [|refuse_success|refuse_success].
  destruct (profileComplete user) eqn:Hcomplete; cbn [negb];
    [|refuse_success].
  unfold bind at 1. unfold lift at 1.
  destruct (Job_findById env 0 (ch :: j)) as [[job|]|m] eqn:Hjob;
    cbv beta iota zeta; [|refuse_success|refuse_success].
  unfold bind at 1. unfold lift at 1.
  destruct (hasCredentials env 0 uid _) as [[|]|m] eqn:Hhas;
    cbv beta iota; cbn [negb]; [|refuse_success|refuse_success].
  unfold bind at 1. unfold lift at 1.
  destruct (getCredentials env 0 uid _) as [credentials|m] eqn:Hget;
    cbv beta iota; [|refuse_success].
  unfold bind at 1. unfold lift at 1.
  destruct (buildUserProfile env user credentials) as [[]|m] eqn:Hprof;
    cbv beta iota; [|refuse_success].
  rewrite applyToJob_fresh.
  destruct (launch (session env 0)) eqn:Hlaunch; cbv zeta; cbn [fst snd].
  - unfold bind, lift, close, get, ret, new_AutomatedJobApplicant.
    cbn [browser success notInitialized error]. refuse_success.
  - unfold bind, lift, close, get, ret. cbn [browser].
    destruct (closeBrowser (session env 0)) as [[]|m] eqn:Hclose;
      cbn [fst success notInitialized error]; refuse_success.
  - unfold bind at 1. unfold lift at 1. cbv beta iota.
    unfold bind at 1. unfold lift at 1.
    unfold close, bind, get, modify, throw. cbn [browser].
    destruct (closeBrowser (session env 0)) as [[]|m] eqn:Hclose;
      cbn [fst]; cbv beta iota; [|refuse_success].
    destruct (adapterOutcome (session env 0) job) as [[|]|m] eqn:Hdrive;
      cbn [success reported caught error]; [|refuse_success|refuse_success].
    unfold lift.
    destruct (Application_save env 0 uid job) as [applicationId|m] eqn:Hsave;
      cbv beta iota; [|refuse_success].
    eexists. split; [reflexivity|]. split.
    + intros id. split.
      * intros [= <-]. exists (ch :: j), user, job, credentials.
        repeat split; try assumption. discriminate.
      * intros (j' & user' & job' & credentials' & Hj & _ & Hu & _ & Hjob'
                & _ & _ & _ & _ & _ & _ & Hsave').
        injection Hj as <-. congruence.
    + intros c m e H. discriminate H.
Qed.

Section WithRuntime.

Variable toString36 : Z -> jsstring.
Variable toUpperCase : jsstring -> jsstring.
Variable env : Env.

(** X26. [GET /status/:batchId] after a run of
    [processBatchApplications]: under the batch's own id it answers with the
    completed batch, which holds one result per job id, in order; under an
    id for which the table holds no batch it answers 404, unless the id is
    the name of a property of [Object.prototype] ([constructor],
    [toString], [__proto__], ...): the table inherits that property and
    the route answers 200 with it; and it changes nothing. *)
Theorem getStatus_after_batch (uid : jsstring) (jobs : list jsstring)
    (user : User) (w : World) :
  exists w' b,
    processBatchApplications toString36 toUpperCase env uid jobs user w
    = (Ok tt, w') /\
    getStatus (idDrawn toString36 toUpperCase w) w'
    = (Ok (statusFound (batchObject b)), w') /\
    status b = completed /\ jobIds b = jobs /\ userId b = uid /\
    List.map jobId (results b) = jobs /\
    (forall k, batchStatuses w' !! k = None ->
       getStatus k w'
       = (Ok (if inheritedName k then statusFound (inheritedProperty k)
              else statusError 404 (js "Batch application process not found")),
          w')).
Proof.
  destruct (processBatchApplications_spec toString36 toUpperCase env
              uid jobs user w)
    as (w' & b & tr & Hrun & Hb & _ & Hst & Hres & _ & Hown & _).
  destruct (processBatchApplications_full toString36 toUpperCase env
              uid jobs user w)
    as (w'' & rs & tr' & Hrun' & Hheap & _).
  rewrite Hrun in Hrun'. injection Hrun' as <-.
  exists w', b. split; [exact Hrun|].
  assert (Hfields : jobIds b = jobs /\ userId b = uid).
  { rewrite Hheap, lookup_insert_eq in Hb. injection Hb as <-. now split. }
  assert (Hfound :
    getStatus (idDrawn toString36 toUpperCase w) w'
    = (Ok (statusFound (batchObject b)), w')).
  { unfold getStatus, lookupBatchStatus, try_catch, bind, getBatchStatus.
    rewrite Hown. cbn. now rewrite Hb. }
  assert (Hmissing : forall k, batchStatuses w' !! k = None ->
    getStatus k w'
    = (Ok (if inheritedName k then statusFound (inheritedProperty k)
           else statusError 404 (js "Batch application process not found")),
       w')).
  { intros k Hk.
    unfold getStatus, lookupBatchStatus, try_catch, bind, getBatchStatus.
    rewrite Hk. cbn. now destruct (inheritedName k). }
  split; [exact Hfound|].
  split; [exact Hst|]. split; [apply Hfields|]. split; [apply Hfields|].
  split; [exact Hres | exact Hmissing].
Qed.

(** On a table without batches, [GET /status/constructor] answers 200 and
    [GET /status/unknown] answers 404. *)
Example getStatus_inherited (w : World) :
  batchStatuses w = ∅ ->
  getStatus (js "constructor") w
  = (Ok (statusFound (inheritedProperty (js "constructor"))), w) /\
  getStatus (js "unknown") w
  = (Ok (statusError 404 (js "Batch application process not found")), w).
Proof.
  intros Hw. unfold getStatus, lookupBatchStatus, try_catch, bind, getBatchStatus.
  rewrite Hw, !lookup_empty. now split.
Qed.

End WithRuntime.

(** The inner loop ends on the highest level the degree names, if that
    is above the one it started with. *)
Lemma scanLevels_spec (d : jsstring) (levels : list (jsstring * Z)) :
  forall highest,
    (scanLevels d levels highest = highest \/
     In (scanLevels d levels highest) levels /\
     includes d (fst (scanLevels d levels highest)) = true) /\
    (snd highest <= snd (scanLevels d levels highest))%Z /\
    (forall lvl v, In (lvl, v) levels -> includes d lvl = true ->
                   (v <= snd (scanLevels d levels highest))%Z).
Proof.
  induction levels as [|[level value] rest IH]; intros highest.
  - cbn. split; [now left|]. split; [lia|]. intros ? ? [].
  - cbn [scanLevels].
    destruct (includes d level) eqn:Hinc; cbn [andb].
    + destruct (snd highest <? value)%Z eqn:Hlt.
      * apply Z.ltb_lt in Hlt.
        destruct (IH (level, value)) as (Hout & Hle & Hall). cbn [snd] in Hle.
        split; [|split].
        -- right. destruct Hout as [-> | [Hin Hi]].
           ++ split; [now left | exact Hinc].
           ++ split; [now right | exact Hi].
        -- lia.
        -- intros lvl v [[= <- <-] | Hin] Hi; [exact Hle | exact (Hall _ _ Hin Hi)].
      * apply Z.ltb_ge in Hlt.
        destruct (IH highest) as (Hout & Hle & Hall).
        split; [|split].
        -- destruct Hout as [-> | [Hin Hi]]; [now left|].
           right. split; [now right | exact Hi].
        -- exact Hle.
        -- intros lvl v [[= <- <-] | Hin] Hi; [lia | exact (Hall _ _ Hin Hi)].
    + destruct (IH highest) as (Hout & Hle & Hall).
      split; [|split].
      * destruct Hout as [-> | [Hin Hi]]; [now left|].
        right. split; [now right | exact Hi].
      * exact Hle.
      * intros lvl v [[= <- <-] | Hin] Hi; [congruence | exact (Hall _ _ Hin Hi)].
Qed.

Lemma scanEducation_spec (education : list Education) :
  forall highest,
    In highest educationLevels ->
    match scanEducation education highest with
    | Ok out =>
        In out educationLevels /\ (snd highest <= snd out)%Z /\
        (out = highest \/
         exists edu d, In edu education /\ degree edu = Some d /\
                       includes d (fst out) = true) /\
        (forall edu, In edu education ->
           exists d, degree edu = Some d /\
             forall lvl v, In (lvl, v) educationLevels ->
                           includes d lvl = true -> (v <= snd out)%Z)
    | Throw _ => exists edu, In edu education /\ degree edu = None
    end.
Proof.
  induction education as [|edu rest IH]; intros highest Hin.
  - cbn. split; [exact Hin|]. split; [lia|]. split; [now left|]. intros ? [].
  - cbn [scanEducation]. destruct (degree edu) as [d|] eqn:Hd.
    2:{ exists edu. split; [now left | exact Hd]. }
    destruct (scanLevels_spec d educationLevels highest)
      as (Hout & Hle & Hall).
    set (mid := scanLevels d educationLevels highest) in *.
    assert (Hmid : In mid educationLevels).
    { destruct Hout as [-> | [H _]]; assumption. }
    specialize (IH mid Hmid).
    destruct (scanEducation rest mid) as [out|e].
    + destruct IH as (Ho & Hle' & Hfrom & Hmax).
      split; [exact Ho|]. split; [lia|]. split.
      * destruct Hfrom as [-> | (edu' & d' & Hin' & Hd' & Hi)].
        -- destruct Hout as [-> | [_ Hi]]; [now left|].
           right. exists edu, d. split; [now left|]. now split.
        -- right. exists edu', d'. split; [now right|]. now split.
      * intros edu' [<- | Hin'].
        -- exists d. split; [exact Hd|]. intros lvl v Hlv Hi.
           specialize (Hall lvl v Hlv Hi). lia.
        -- now apply Hmax.
    + destruct IH as (edu' & Hin' & Hd'). exists edu'. split; [now right|].
      exact Hd'.
Qed.

(** X27. [getHighestEducation] returns one of the five level names: the
    highest-valued one that some degree contains (as a substring, case
    mattering), and "High School" when no degree contains a higher one; no
    degree names a level above it.  It throws only when some entry has no
    degree. *)
Theorem getHighestEducation_highest_named
    (education : option (list Education)) :
  match getHighestEducation education with
  | Ok level =>
      exists value,
        In (level, value) educationLevels /\
        (level = js "High School" \/
         exists edu d, In edu (default [] education) /\ degree edu = Some d /\
                       includes d level = true) /\
        (forall edu, In edu (default [] education) ->
           exists d, degree edu = Some d /\
             forall lvl v, In (lvl, v) educationLevels ->
                           includes d lvl = true -> (v <= value)%Z)
  | Throw _ =>
      exists edu, In edu (default [] education) /\ degree edu = None
  end.
Proof.
  assert (Hstart : In (js "High School", 1%Z) educationLevels) by now left.
  destruct education as [[|edu rest]|]; cbn [getHighestEducation default].
  - exists 1%Z. split; [exact Hstart|]. split; [now left|]. intros ? [].
  - pose proof (scanEducation_spec (edu :: rest) _ Hstart) as H.
    destruct (scanEducation (edu :: rest) (js "High School", 1%Z))
      as [[level value]|e]; [|exact H].
    destruct H as (Hin & _ & Hfrom & Hmax). exists value.
    split; [exact Hin|]. split; [|exact Hmax].
    destruct Hfrom as [[= -> _] | H]; [now left | now right].
  - exists 1%Z. split; [exact Hstart|]. split; [now left|]. intros ? [].
Qed.

Section WithCalendar.

Variable getFullYear : Z -> Z.
Variable getMonth : Z -> Z.

Local Abbreviation monthsOf := (monthsOf getFullYear getMonth).
Local Abbreviation sumMonths := (sumMonths getFullYear getMonth).

Lemma sumMonths_None (now : Z) (jobs : list WorkExperience) :
  sumMonths now jobs None = None.
Proof. induction jobs as [|job rest IH]; [reflexivity | exact IH]. Qed.

Lemma sumMonths_spec (now : Z) (jobs : list WorkExperience) :
  forall t,
    match sumMonths now jobs (Some t) with
    | Some total =>
        exists months,
          Forall2 (fun job m => monthsOf now job = Some m) jobs months /\
          total = (t + fold_right Z.add 0 months)%Z
    | None => exists job, In job jobs /\ monthsOf now job = None
    end.
Proof.
  induction jobs as [|job rest IH]; intros t.
  - cbn. exists []. split; [apply List.Forall2_nil | cbn; lia].
  - cbn [ApplyRoutes.sumMonths].
    destruct (monthsOf now job) as [m|] eqn:Hm.
    + specialize (IH (t + m)%Z).
      destruct (sumMonths now rest (Some (t + m)%Z)) as [total|].
      * destruct IH as (months & Hall & ->). exists (m :: months).
        split; [now constructor | cbn [fold_right]; lia].
      * destruct IH as (job' & Hin & Hnone). exists job'.
        split; [now right | exact Hnone].
    + rewrite sumMonths_None. exists job. split; [now left | exact Hm].
Qed.

(** X28. [calculateYearsOfExperience] is 0 without work experience;
    otherwise it is the sum over the jobs of the months between the start
    and the end (today for a current job), counted by calendar year and
    month only, rounded to the nearest number of years with halves going
    up; and it is NaN exactly when a date that is needed is invalid. *)
Theorem calculateYearsOfExperience_rounds_months
    (now : Z) (workExperience : option (list WorkExperience)) :
  match calculateYearsOfExperience getFullYear getMonth now workExperience with
  | Some years =>
      exists months,
        Forall2 (fun job m => monthsOf now job = Some m)
                (default [] workExperience) months /\
        (12 * years - 6 <= fold_right Z.add 0 months <= 12 * years + 5)%Z
  | None =>
      exists job, In job (default [] workExperience) /\
        (startDate job = None \/ (current job = false /\ endDate job = None))
  end.
Proof.
  destruct workExperience as [[|job rest]|];
    cbn [calculateYearsOfExperience default].
  - exists []. split; [apply List.Forall2_nil | cbn; lia].
  - pose proof (sumMonths_spec now (job :: rest) 0) as H.
    destruct (sumMonths now (job :: rest) (Some 0%Z)) as [total|].
    + destruct H as (months & Hall & ->). exists months.
      split; [exact Hall|].
      generalize (fold_right Z.add 0%Z months). intros t.
      pose proof (Z.div_mod (0 + t + 6) 12 ltac:(lia)) as Hdm.
      pose proof (Z.mod_pos_bound (0 + t + 6) 12 ltac:(lia)) as Hb. lia.
    + destruct H as (job' & Hin & Hnone). exists job'. split; [exact Hin|].
      unfold ApplyRoutes.monthsOf in Hnone.
      destruct (startDate job'); [|now left]. right.
      destruct (current job'); [discriminate|].
      destruct (endDate job'); [discriminate | now split].
  - exists []. split; [apply List.Forall2_nil | cbn; lia].
Qed.

End WithCalendar.

End ApplyRoutesFacts.

(** ** The applicant over several calls, and the steps of a LinkedIn
       application: properties *)

Module EasyApplyFacts.
Import Portal Applicant EasyApply EffFacts ApplicantFacts ApplyRoutesFacts.

(** The result [applyToJob] returns once the adapter has run. *)
Definition outcome (session : Session) (job : Scraper.JobListing)
  : ApplicationResult :=
  match adapterOutcome session job with
  | Ok marker => reported session job marker
  | Throw e => caught session job e
  end.

Lemma applyToJob_with_browser (session : Session) (job : Scraper.JobListing)
    (rs : list ApplicationResult) :
  applyToJob session job {| browser := true; applicationResults := rs |}
  = (Ok (outcome session job),
     {| browser := true; applicationResults := rs ++ [outcome session job] |}).
Proof.
  unfold applyToJob, bind, get. cbn [browser negb].
  now rewrite applyToJob_body_run.
Qed.

(** X29. Two calls of [applyToJob] on one applicant.  When the browser
    starts, both jobs go through their adapters and both results are
    recorded, in order.  When the launch itself fails, both calls return
    "Failed to initialize browser" and nothing is recorded.  When the
    launch works and the page set-up after it fails, the first call returns
    "Failed to initialize browser" unrecorded, but the browser handle stays,
    so the second call goes to the adapter without another launch.  In each
    case [getApplicationResults] returns what was recorded, and [close],
    when closing works, leaves the results alone. *)
Theorem applyToJob_twice (session : Session) (job1 job2 : Scraper.JobListing) :
  exists r1 a1 r2 a2,
    applyToJob session job1 new_AutomatedJobApplicant = (Ok r1, a1) /\
    applyToJob session job2 a1 = (Ok r2, a2) /\
    match launch session with
    | ready =>
        r1 = outcome session job1 /\ r2 = outcome session job2 /\
        applicationResults a2 = [r1; r2] /\ browser a2 = true
    | pageSetupThrows =>
        r1 = notInitialized job1 /\ r2 = outcome session job2 /\
        applicationResults a2 = [r2] /\ browser a2 = true
    | launchThrows =>
        r1 = notInitialized job1 /\ r2 = notInitialized job2 /\
        applicationResults a2 = [] /\ browser a2 = false
    end /\
    getApplicationResults a2 = (Ok (applicationResults a2), a2) /\
    (closeBrowser session = Ok tt ->
     close session a2
     = (Ok tt, {| browser := false;
                  applicationResults := applicationResults a2 |})).
Proof.
  rewrite applyToJob_fresh. fold (outcome session job1).
  destruct (launch session) eqn:Hl; cbv zeta.
  - eexists _, _, _, _. split; [reflexivity|]. split.
    { rewrite applyToJob_fresh, Hl. reflexivity. }
    split; [now repeat split|]. split; [reflexivity|].
    intros _. reflexivity.
  - eexists _, _, _, _. split; [reflexivity|]. split.
    { apply applyToJob_with_browser. }
    split; [now repeat split|]. split; [reflexivity|].
    intros Hc. unfold close, bind, get, modify. cbn [browser]. now rewrite Hc.
  - eexists _, _, _, _. split; [reflexivity|]. split.
    { apply applyToJob_with_browser. }
    split; [now repeat split|]. split; [reflexivity|].
    intros Hc. unfold close, bind, get, modify. cbn [browser]. now rewrite Hc.
Qed.

(** The button of a pass leads on: it is there and says neither
    "Submit" nor "Apply". *)
Definition leadsOn (found : Exc (option jsstring)) : Prop :=
  exists text, found = Ok (Some text) /\
    includes text (js "Submit") = false /\ includes text (js "Apply") = false.

(** The button of a pass is the final one. *)
Definition isFinal (found : Exc (option jsstring)) : Prop :=
  exists text, found = Ok (Some text) /\
    (includes text (js "Submit") = true \/ includes text (js "Apply") = true).

Lemma stepLoop_spec (pass : nat -> Exc (option jsstring)) (remaining : nat) :
  forall currentStep,
    let out := stepLoop pass currentStep remaining in
    (length (fst out) <= remaining)%nat /\
    (snd out = submitted <->
     exists k, (k < remaining)%nat /\ isFinal (pass (currentStep + k)%nat) /\
               forall j, (j < k)%nat -> leadsOn (pass (currentStep + j)%nat)) /\
    (snd out = submitted ->
     exists nexts step, fst out = nexts ++ [clickSubmit step] /\
                        Forall (fun c => exists s, c = clickNext s) nexts) /\
    (snd out <> submitted ->
     Forall (fun c => exists s, c = clickNext s) (fst out)) /\
    ((forall j, (j < remaining)%nat -> leadsOn (pass (currentStep + j)%nat)) ->
     snd out = stepsExhausted /\ length (fst out) = remaining).
Proof.
  induction remaining as [|remaining IH]; intros currentStep; cbv zeta.
  - cbn [stepLoop fst snd length]. split; [lia|]. split.
    { split; [discriminate | intros (k & Hk & _); lia]. }
    split; [discriminate|]. split; [constructor|]. now split.
  - cbn [stepLoop].
    destruct (pass currentStep) as [[text|]|e] eqn:Hpass.
    + destruct (includes text (js "Submit") || includes text (js "Apply"))
        eqn:Hfinal.
      * cbn [fst snd length]. split; [lia|]. split.
        { split; [|reflexivity]. intros _. exists 0%nat.
          split; [lia|]. rewrite Nat.add_0_r. split; [|intros j Hj; lia].
          exists text. split; [exact Hpass|]. now apply orb_true_iff. }
        split.
        { intros _. exists [], currentStep. split; [reflexivity | constructor]. }
        split; [intros H; now contradiction H|].
        intros Hall. exfalso. specialize (Hall 0%nat ltac:(lia)).
        rewrite Nat.add_0_r, Hpass in Hall.
        destruct Hall as (text' & [= <-] & H1 & H2).
        rewrite H1, H2 in Hfinal. discriminate.
      * apply orb_false_iff in Hfinal as [Hs Ha].
        specialize (IH (S currentStep)). cbv zeta in IH.
        destruct (stepLoop pass (S currentStep) remaining) as [clicks ending].
        cbn [fst snd length] in *.
        destruct IH as (Hlen & Hsub & Hshape & Hother & Hall).
        split; [lia|]. split.
        { rewrite Hsub. split.
          - intros (k & Hk & Hfin & Hlead). exists (S k). split; [lia|].
            split; [now rewrite Nat.add_succ_r|].
            intros [|j] Hj.
            + rewrite Nat.add_0_r, Hpass. now exists text.
            + rewrite Nat.add_succ_r. apply Hlead. lia.
          - intros ([|k] & Hk & Hfin & Hlead).
            + rewrite Nat.add_0_r, Hpass in Hfin.
              destruct Hfin as (text' & [= <-] & [H|H]); congruence.
            + exists k. split; [lia|]. split.
              * now rewrite Nat.add_succ_r in Hfin.
              * intros j Hj. specialize (Hlead (S j) ltac:(lia)).
                now rewrite Nat.add_succ_r in Hlead. }
        split.
        { intros He. destruct (Hshape He) as (nexts & step & -> & Hn).
          exists (clickNext currentStep :: nexts), step.
          split; [reflexivity|]. constructor; [now eexists | exact Hn]. }
        split.
        { intros He. constructor; [now eexists | now apply Hother]. }
        intros Hlead. destruct Hall as [He Hl].
        { intros j Hj. specialize (Hlead (S j) ltac:(lia)).
          now rewrite Nat.add_succ_r in Hlead. }
        split; [exact He | now rewrite Hl].
    + cbn [fst snd length]. split; [lia|]. split.
      { split; [discriminate|]. intros ([|k] & Hk & Hfin & Hlead).
        - rewrite Nat.add_0_r, Hpass in Hfin.
          destruct Hfin as (text' & [=] & _).
        - specialize (Hlead 0%nat ltac:(lia)).
          rewrite Nat.add_0_r, Hpass in Hlead.
          destruct Hlead as (text' & [=] & _). }
      split; [discriminate|]. split; [constructor|].
      intros Hall. specialize (Hall 0%nat ltac:(lia)).
      rewrite Nat.add_0_r, Hpass in Hall. destruct Hall as (text' & [=] & _).
    + cbn [fst snd length]. split; [lia|]. split.
      { split; [discriminate|]. intros ([|k] & Hk & Hfin & Hlead).
        - rewrite Nat.add_0_r, Hpass in Hfin.
          destruct Hfin as (text' & [=] & _).
        - specialize (Hlead 0%nat ltac:(lia)).
          rewrite Nat.add_0_r, Hpass in Hlead.
          destruct Hlead as (text' & [=] & _). }
      split; [discriminate|]. split; [constructor|].
      intros Hall. specialize (Hall 0%nat ltac:(lia)).
      rewrite Nat.add_0_r, Hpass in Hall. destruct Hall as (text' & [=] & _).
Qed.

(** X30. The step loop of [applyViaLinkedIn] clicks the primary button at
    most five times.  It clicks the final button (one whose text contains
    "Submit" or "Apply") exactly when such a button shows up within the
    first five passes, every pass before it having shown a button that
    leads on; that click is then the last one.  A form whose first five
    passes all lead on is left after five clicks without being
    submitted. *)
Theorem easyApplySteps_bounded (pass : nat -> Exc (option jsstring)) :
  (length (fst (easyApplySteps pass)) <= 5)%nat /\
  (snd (easyApplySteps pass) = submitted <->
   exists k, (1 <= k <= 5)%nat /\ isFinal (pass k) /\
             forall j, (1 <= j < k)%nat -> leadsOn (pass j)) /\
  (snd (easyApplySteps pass) = submitted ->
   exists nexts step,
     fst (easyApplySteps pass) = nexts ++ [clickSubmit step] /\
     Forall (fun c => exists s, c = clickNext s) nexts) /\
  ((forall j, (1 <= j <= 5)%nat -> leadsOn (pass j)) ->
   snd (easyApplySteps pass) = stepsExhausted /\
   fst (easyApplySteps pass)
   = [clickNext 1; clickNext 2; clickNext 3; clickNext 4; clickNext 5]).
Proof.
  pose proof (stepLoop_spec pass maxSteps 1) as H. cbv zeta in H.
  fold (easyApplySteps pass) in H.
  destruct H as (Hlen & Hsub & Hshape & _ & Hall).
  split; [exact Hlen|]. split; [|split; [exact Hshape|]].
  - rewrite Hsub. unfold maxSteps. split.
    + intros (k & Hk & Hfin & Hlead). exists (S k). split; [lia|].
      split; [exact Hfin|]. intros j Hj.
      replace j with (1 + (j - 1))%nat by lia. apply Hlead. lia.
    + intros (k & Hk & Hfin & Hlead). exists (k - 1)%nat. split; [lia|].
      replace (1 + (k - 1))%nat with k by lia. split; [exact Hfin|].
      intros j Hj. apply Hlead. lia.
  - intros Hlead.
    assert (Hlead' : forall j, (j < maxSteps)%nat -> leadsOn (pass (1 + j)%nat)).
    { intros j Hj. apply Hlead. unfold maxSteps in Hj. lia. }
    split; [now apply Hall|].
    unfold easyApplySteps, maxSteps. cbn [stepLoop].
    destruct (Hlead 1%nat ltac:(lia)) as (t1 & -> & -> & ->).
    destruct (Hlead 2%nat ltac:(lia)) as (t2 & -> & -> & ->).
    destruct (Hlead 3%nat ltac:(lia)) as (t3 & -> & -> & ->).
    destruct (Hlead 4%nat ltac:(lia)) as (t4 & -> & -> & ->).
    destruct (Hlead 5%nat ltac:(lia)) as (t5 & -> & -> & ->).
    reflexivity.
Qed.

End EasyApplyFacts.
